(** * systray: the menu-item registry, identifier allocation, the ready
    handshake and click delivery of [systray.go], as an interleaving
    semantics of goroutines over the package's shared variables.

    The package functions are written once, statement by statement, as
    programs over atomic actions ([prog]).  The same action semantics
    ([exec]) drives both a call run on its own ([run]) and the interleaved
    execution of a pool of goroutines ([step]). *)

From Stdlib Require Import ZArith Lia Sorted.
From stdpp Require Import base option list gmap strings.

(** ** Data model *)

(** [int32] arithmetic wraps around. *)
Definition wrap32 (z : Z) : Z :=
  ((z + 2147483648) mod 4294967296 - 2147483648)%Z.

(** Addresses of [MenuItem] objects; a [*MenuItem], where [None] is [nil];
    goroutine identifiers (positions in the pool). *)
Abbreviation loc := nat (only parsing).
Abbreviation ptr := (option nat) (only parsing).
Abbreviation tid := nat (only parsing).

(** [type MenuItem struct], lines 18-33. *)
Record MenuItem := mkMenuItem {
  id : Z;
  title : string;
  tooltip : string;
  disabled : bool;
  checked : bool;
  remove : bool;
  separator : bool
}.

Definition set_title (v : string) (m : MenuItem) : MenuItem :=
  mkMenuItem (id m) v (tooltip m) (disabled m) (checked m) (remove m) (separator m).
Definition set_tooltip (v : string) (m : MenuItem) : MenuItem :=
  mkMenuItem (id m) (title m) v (disabled m) (checked m) (remove m) (separator m).
Definition set_disabled (v : bool) (m : MenuItem) : MenuItem :=
  mkMenuItem (id m) (title m) (tooltip m) v (checked m) (remove m) (separator m).
Definition set_checked (v : bool) (m : MenuItem) : MenuItem :=
  mkMenuItem (id m) (title m) (tooltip m) (disabled m) v (remove m) (separator m).
Definition set_remove (v : bool) (m : MenuItem) : MenuItem :=
  mkMenuItem (id m) (title m) (tooltip m) (disabled m) (checked m) v (separator m).
Definition set_separator (v : bool) (m : MenuItem) : MenuItem :=
  mkMenuItem (id m) (title m) (tooltip m) (disabled m) (checked m) (remove m) v.

(** A Go channel: its capacity, fixed by [make], and the buffered elements,
    each with the goroutine that sent it. *)
Record chan (A : Type) := mkChan { cap : nat; buf : list (tid * A) }.
Arguments mkChan {A} _ _.
Arguments cap {A} _.
Arguments buf {A} _.
Definition make_chan {A : Type} (n : nat) : chan A := mkChan n [].

(** [sync.RWMutex].  A writer holds it, or readers do.  A goroutine inside
    [Lock] first announces itself ([waiting]) and then waits for the
    readers inside to leave; from the announcement on no new reader and no
    other writer gets in.  The holders are recorded by goroutine; Go itself
    only keeps counts. *)
Record RWMutex := mkRWMutex {
  writer : option tid;
  readers : list tid;
  waiting : option tid
}.

(** What crosses the boundary of the package, in the order it happened. *)
Inductive event :=
| Issued (t : tid) (i : Z)
| Applied (t : tid) (item : ptr) (shown : MenuItem) (before : ptr)
| Pinned (t : tid)
| Spawned (t : tid)
| ReadySignal (s r : tid)
| OnReady (t : tid)
| Delivered (s r : tid) (item : ptr).

(** The package variables of lines 35-44, the heap of [MenuItem] objects
    they point into, the quit request held by the native backend, and the
    history of events (newest first).  The objects are those allocated at
    line 71: applications are told not to create a [MenuItem] themselves
    (line 17). *)
Record state := mkState {
  ClickedCh : chan ptr;
  readyCh : chan unit;
  menuItems : gmap Z ptr;
  menuItemsLock : RWMutex;
  currentID : Z;
  heap : list MenuItem;
  quitRequested : bool;
  trace : list event
}.

Definition init_state : state :=
  mkState (make_chan 0) (make_chan 0) ∅ (mkRWMutex None [] None) 0%Z [] false [].

Definition with_ClickedCh (c : chan ptr) (s : state) : state :=
  mkState c (readyCh s) (menuItems s) (menuItemsLock s) (currentID s) (heap s)
    (quitRequested s) (trace s).
Definition with_readyCh (c : chan unit) (s : state) : state :=
  mkState (ClickedCh s) c (menuItems s) (menuItemsLock s) (currentID s) (heap s)
    (quitRequested s) (trace s).
Definition with_menuItems (m : gmap Z ptr) (s : state) : state :=
  mkState (ClickedCh s) (readyCh s) m (menuItemsLock s) (currentID s) (heap s)
    (quitRequested s) (trace s).
Definition with_lock (l : RWMutex) (s : state) : state :=
  mkState (ClickedCh s) (readyCh s) (menuItems s) l (currentID s) (heap s)
    (quitRequested s) (trace s).
Definition with_currentID (i : Z) (s : state) : state :=
  mkState (ClickedCh s) (readyCh s) (menuItems s) (menuItemsLock s) i (heap s)
    (quitRequested s) (trace s).
Definition with_heap (h : list MenuItem) (s : state) : state :=
  mkState (ClickedCh s) (readyCh s) (menuItems s) (menuItemsLock s) (currentID s) h
    (quitRequested s) (trace s).
Definition with_quit (q : bool) (s : state) : state :=
  mkState (ClickedCh s) (readyCh s) (menuItems s) (menuItemsLock s) (currentID s)
    (heap s) q (trace s).
Definition record (e : event) (s : state) : state :=
  mkState (ClickedCh s) (readyCh s) (menuItems s) (menuItemsLock s) (currentID s)
    (heap s) (quitRequested s) (e :: trace s).

(** Dereference of a [*MenuItem]. *)
Definition deref (s : state) (p : ptr) : option MenuItem :=
  match p with
  | Some l => heap s !! l
  | None => None
  end.

(** ** Programs *)

(** The function literal started by [go] in [Run], lines 52-55. *)
Inductive goroutine := ReadyWaiter.

(** The atomic actions of the package, indexed by the type of their result:
    [atomic.AddInt32(&currentID, 1)] (line 70); the allocation
    [&MenuItem{...}] (line 71); reading and writing a field through a
    [*MenuItem]; the four operations of [menuItemsLock];
    [menuItems[item.id] = item] (line 144) and [menuItems[id]] (line 154);
    the call of the backend (line 145); the [select] with [default] that
    offers [item] on [ClickedCh] (lines 156-160), whose result tells whether
    the send took place; a receive from [ClickedCh] by a listener of the
    application; [readyCh <- nil] (line 149) and [<-readyCh] (line 53);
    [runtime.LockOSThread()] (line 51); the [go] statement (line 52); the
    call of the [onReady] given to [Run] (line 54); [nativeLoop()]
    (line 57) and [quit()] (line 62). *)
Inductive action : Type -> Type :=
| AddInt32_currentID : action Z
| New (m : MenuItem) : action ptr
| Load (p : ptr) : action MenuItem
| Store (p : ptr) (f : MenuItem -> MenuItem) : action unit
| Lock : action unit
| Unlock : action unit
| RLock : action unit
| RUnlock : action unit
| MapStore (item : ptr) : action unit
| MapGet (k : Z) : action ptr
| addOrUpdateMenuItem (item before : ptr) : action unit
| SelectSendClicked (item : ptr) : action bool
| RecvClicked : action ptr
| SendReady : action unit
| RecvReady : action unit
| LockOSThread : action unit
| Go (g : goroutine) : action unit
| onReady : action unit
| nativeLoop : action unit
| quit : action unit.

(** A program: it has returned, or performs an action and goes on with its
    result. *)
Inductive prog (R : Type) : Type :=
| Ret (r : R)
| Bind {A : Type} (a : action A) (k : A -> prog R).
Arguments Ret {R} _.
Arguments Bind {R A} _ _.

Fixpoint bind {A B : Type} (p : prog A) (f : A -> prog B) : prog B :=
  match p with
  | Ret r => f r
  | Bind a k => Bind a (fun x => bind (k x) f)
  end.

Definition act {A : Type} (a : action A) : prog A := Bind a Ret.

Declare Scope prog_scope.
Delimit Scope prog_scope with prog.
Bind Scope prog_scope with prog.
Notation "x <- p ;; q" := (bind p (fun x => q))
  (at level 100, p at next level, q at level 200, right associativity) : prog_scope.
Notation "p ;; q" := (bind p (fun _ => q))
  (at level 100, q at level 200, right associativity) : prog_scope.
Open Scope prog_scope.

(** ** The package functions *)

(** [update], lines 141-146.  The deferred [Unlock] runs last. *)
Definition update (item before : ptr) : prog unit :=
  act Lock ;;
  act (MapStore item) ;;
  act (addOrUpdateMenuItem item before) ;;
  act Unlock.

(** [AddMenuItem], lines 69-74. *)
Definition AddMenuItem (title tooltip : string) (before : ptr) : prog ptr :=
  i <- act AddInt32_currentID ;;
  item <- act (New (mkMenuItem i title tooltip false false false false)) ;;
  update item before ;;
  Ret item.

(** The mutators, lines 77-138. *)
Definition SetTitle (item : ptr) (title : string) : prog unit :=
  act (Store item (set_title title)) ;;
  update item None.

Definition GetTitle (item : ptr) : prog string :=
  m <- act (Load item) ;;
  Ret (title m).

Definition SetTooltip (item : ptr) (tooltip : string) : prog unit :=
  act (Store item (set_tooltip tooltip)) ;;
  update item None.

Definition SetSeparator (item : ptr) (s : bool) : prog unit :=
  act (Store item (set_separator s)) ;;
  update item None.

Definition Disabled (item : ptr) : prog bool :=
  m <- act (Load item) ;;
  Ret (disabled m).

Definition Enable (item : ptr) : prog unit :=
  act (Store item (set_disabled false)) ;;
  update item None.

Definition Disable (item : ptr) : prog unit :=
  act (Store item (set_disabled true)) ;;
  update item None.

Definition Checked (item : ptr) : prog bool :=
  m <- act (Load item) ;;
  Ret (checked m).

Definition Check (item : ptr) : prog unit :=
  act (Store item (set_checked true)) ;;
  update item None.

Definition Uncheck (item : ptr) : prog unit :=
  act (Store item (set_checked false)) ;;
  update item None.

Definition Remove (item : ptr) : prog unit :=
  act (Store item (set_remove true)) ;;
  update item None.

(** [Run], lines 50-58, and the goroutine it starts. *)
Definition Run : prog unit :=
  act LockOSThread ;;
  act (Go ReadyWaiter) ;;
  act nativeLoop.

Definition body (g : goroutine) : prog unit :=
  match g with
  | ReadyWaiter => act RecvReady ;; act onReady
  end.

(** [Quit], lines 61-63. *)
Definition Quit : prog unit := act quit.

(** [systrayReady], lines 148-150. *)
Definition systrayReady : prog unit := act SendReady.

(** [systrayMenuItemSelected], lines 152-161. *)
Definition systrayMenuItemSelected (i : Z) : prog unit :=
  act RLock ;;
  item <- act (MapGet i) ;;
  act RUnlock ;;
  act (SelectSendClicked item) ;;
  Ret tt.

(** ** Semantics of the actions *)

Inductive outcome (A : Type) : Type :=
| Ok (a : A)
| Blocks
| Panics.
Arguments Ok {A} _.
Arguments Blocks {A}.
Arguments Panics {A}.

Fixpoint remove_reader (t : tid) (rs : list tid) : list tid :=
  match rs with
  | [] => []
  | r :: rs' => if Nat.eqb r t then rs' else r :: remove_reader t rs'
  end.

(** Whether the writers that have announced themselves leave the write
    lock to goroutine [t]: none has, or [t] itself has. *)
Definition may_write (t : tid) (w : option tid) : bool :=
  match w with
  | None => true
  | Some t' => Nat.eqb t' t
  end.

(** [RUnlock] by goroutine [t]: one reader fewer, [t] itself when it is
    among the readers. *)
Definition release (t : tid) (rs : list tid) : list tid :=
  if bool_decide (t ∈ rs) then remove_reader t rs else tail rs.
Arguments release : simpl never.

(** Modelled from the spec: [addOrUpdateMenuItem], [nativeLoop] and [quit]
    of the native backend, whose per-platform code is not in [systray.go].
    The backend applies the full state of one item with an optional
    insert-before hint, which is recorded as it is shown; its loop blocks
    until it is asked to stop. *)
Definition native_addOrUpdateMenuItem (t : tid) (item before : ptr) (s : state)
  : outcome (unit * state) :=
  match deref s item with
  | Some m => Ok (tt, record (Applied t item m before) s)
  | None => Panics
  end.

Definition native_loop (s : state) : outcome (unit * state) :=
  if quitRequested s then Ok (tt, s) else Blocks.

Definition native_quit (s : state) : outcome (unit * state) :=
  Ok (tt, with_quit true s).

Arguments native_addOrUpdateMenuItem t item before s /.
Arguments native_loop s /.
Arguments native_quit s /.

Definition has_room {A : Type} (c : chan A) : bool :=
  (length (buf c) <? cap c)%nat.
Definition enqueue {A : Type} (t : tid) (x : A) (c : chan A) : chan A :=
  mkChan (cap c) (buf c ++ [(t, x)]).

(** One action of goroutine [t] on the shared state.  A dereference of
    [nil] panics.  [Lock] waits for the writer, for a writer that has
    announced itself before, and for the readers to leave; [RLock] waits
    for the writer and for a writer that has announced itself; unlocking an
    unlocked mutex is fatal.  A send finds room
    only in a buffered channel; handing a value to a waiting receiver
    involves two goroutines and is a transition of the pool ([step]).  The
    call of [onReady], the function given to [Run], is recorded; what that
    function does are further calls of the pool. *)
Definition exec {A : Type} (a : action A) (t : tid) (s : state)
  : outcome (A * state) :=
  match a in action A return outcome (A * state) with
  | AddInt32_currentID =>
      let v := wrap32 (currentID s + 1) in
      Ok (v, record (Issued t v) (with_currentID v s))
  | New m => Ok (Some (length (heap s)), with_heap (heap s ++ [m]) s)
  | Load p =>
      match deref s p with
      | Some m => Ok (m, s)
      | None => Panics
      end
  | Store p f =>
      match p with
      | Some l =>
          match heap s !! l with
          | Some m => Ok (tt, with_heap (<[l := f m]> (heap s)) s)
          | None => Panics
          end
      | None => Panics
      end
  | Lock =>
      match writer (menuItemsLock s), readers (menuItemsLock s) with
      | None, [] =>
          if may_write t (waiting (menuItemsLock s))
          then Ok (tt, with_lock (mkRWMutex (Some t) [] None) s)
          else Blocks
      | _, _ => Blocks
      end
  | Unlock =>
      match writer (menuItemsLock s) with
      | Some _ =>
          Ok (tt, with_lock (mkRWMutex None (readers (menuItemsLock s))
                               (waiting (menuItemsLock s))) s)
      | None => Panics
      end
  | RLock =>
      match writer (menuItemsLock s), waiting (menuItemsLock s) with
      | None, None =>
          Ok (tt, with_lock (mkRWMutex None (t :: readers (menuItemsLock s)) None) s)
      | _, _ => Blocks
      end
  | RUnlock =>
      match readers (menuItemsLock s) with
      | [] => Panics
      | rs =>
          Ok (tt, with_lock (mkRWMutex (writer (menuItemsLock s)) (release t rs)
                               (waiting (menuItemsLock s))) s)
      end
  | MapStore item =>
      match deref s item with
      | Some m => Ok (tt, with_menuItems (<[id m := item]> (menuItems s)) s)
      | None => Panics
      end
  | MapGet k => Ok (default None (menuItems s !! k), s)
  | addOrUpdateMenuItem item before => native_addOrUpdateMenuItem t item before s
  | SelectSendClicked item =>
      if has_room (ClickedCh s)
      then Ok (true, with_ClickedCh (enqueue t item (ClickedCh s)) s)
      else Ok (false, s)
  | RecvClicked =>
      match buf (ClickedCh s) with
      | (sender, item) :: rest =>
          Ok (item, record (Delivered sender t item)
                      (with_ClickedCh (mkChan (cap (ClickedCh s)) rest) s))
      | [] => Blocks
      end
  | SendReady =>
      if has_room (readyCh s)
      then Ok (tt, with_readyCh (enqueue t tt (readyCh s)) s)
      else Blocks
  | RecvReady =>
      match buf (readyCh s) with
      | (sender, _) :: rest =>
          Ok (tt, record (ReadySignal sender t)
                    (with_readyCh (mkChan (cap (readyCh s)) rest) s))
      | [] => Blocks
      end
  | LockOSThread => Ok (tt, record (Pinned t) s)
  | Go g => Ok (tt, record (Spawned t) s)
  | onReady => Ok (tt, record (OnReady t) s)
  | nativeLoop => native_loop s
  | quit => native_quit s
  end.

(** A call run by goroutine [t] on its own, to its end. *)
Fixpoint run {R : Type} (p : prog R) (t : tid) (s : state) : outcome (R * state) :=
  match p with
  | Ret r => Ok (r, s)
  | Bind a k =>
      match exec a t s with
      | Ok (x, s') => run (k x) t s'
      | Blocks => Blocks
      | Panics => Panics
      end
  end.

(** ** The pool of goroutines *)

Record config := mkConfig { st : state; threads : list (prog unit) }.

Definition init : config := mkConfig init_state [].

(** What a send offers and what a receive accepts, with the program of the
    goroutine after the exchange. *)
Inductive msg := Click (item : ptr) | Ready.

Definition offers (p : prog unit) : option (msg * prog unit) :=
  match p with
  | Ret _ => None
  | Bind a k =>
      match a in action A return (A -> prog unit) -> option (msg * prog unit) with
      | SelectSendClicked item => fun k => Some (Click item, k true)
      | SendReady => fun k => Some (Ready, k tt)
      | _ => fun _ => None
      end k
  end.

Definition accepts (m : msg) (p : prog unit) : option (prog unit) :=
  match p with
  | Ret _ => None
  | Bind a k =>
      match a in action A return (A -> prog unit) -> option (prog unit) with
      | RecvClicked => fun k =>
          match m with Click item => Some (k item) | Ready => None end
      | RecvReady => fun k =>
          match m with Ready => Some (k tt) | Click _ => None end
      | _ => fun _ => None
      end k
  end.

Definition listening (m : msg) (ps : list (prog unit)) : bool :=
  existsb (fun p => match accepts m p with Some _ => true | None => false end) ps.

Definition idle (m : msg) (s : state) : bool :=
  match m with
  | Click _ => match buf (ClickedCh s) with [] => true | _ => false end
  | Ready => match buf (readyCh s) with [] => true | _ => false end
  end.

Definition exchanged (sender receiver : tid) (m : msg) : event :=
  match m with
  | Click item => Delivered sender receiver item
  | Ready => ReadySignal sender receiver
  end.

(** The [default] of the [select] at lines 156-160 is taken only when the
    send cannot proceed: here the send can, a receiver is waiting. *)
Definition send_ready {A : Type} (a : action A) (c : config) : bool :=
  match a with
  | SelectSendClicked item =>
      idle (Click item) (st c) && listening (Click item) (threads c)
  | _ => false
  end.

Definition spawns {A : Type} (a : action A) : list (prog unit) :=
  match a with
  | Go g => [body g]
  | _ => []
  end.

(** The calls application goroutines make. *)
Inductive call :=
| CallRun
| CallQuit
| CallAddMenuItem (title tooltip : string) (before : ptr)
| CallSetTitle (item : ptr) (title : string)
| CallGetTitle (item : ptr)
| CallSetTooltip (item : ptr) (tooltip : string)
| CallSetSeparator (item : ptr) (s : bool)
| CallDisabled (item : ptr)
| CallEnable (item : ptr)
| CallDisable (item : ptr)
| CallChecked (item : ptr)
| CallCheck (item : ptr)
| CallUncheck (item : ptr)
| CallRemove (item : ptr)
| Listen.

Definition entry (c : call) : prog unit :=
  match c with
  | CallRun => Run
  | CallQuit => Quit
  | CallAddMenuItem title tooltip before => AddMenuItem title tooltip before ;; Ret tt
  | CallSetTitle item title => SetTitle item title
  | CallGetTitle item => GetTitle item ;; Ret tt
  | CallSetTooltip item tooltip => SetTooltip item tooltip
  | CallSetSeparator item s => SetSeparator item s
  | CallDisabled item => Disabled item ;; Ret tt
  | CallEnable item => Enable item
  | CallDisable item => Disable item
  | CallChecked item => Checked item ;; Ret tt
  | CallCheck item => Check item
  | CallUncheck item => Uncheck item
  | CallRemove item => Remove item
  | Listen => act RecvClicked ;; Ret tt
  end.

(** Modelled from the spec: the native backend, whose code is not part of
    the package.  It calls back into the package on the goroutine that runs
    its loop: [systrayReady] once its loop is initialised and
    [systrayMenuItemSelected] on a click. *)
Inductive callback := CbReady | CbSelected (i : Z).

Definition handler (cb : callback) : prog unit :=
  match cb with
  | CbReady => systrayReady
  | CbSelected i => systrayMenuItemSelected i
  end.

Definition in_nativeLoop (p : prog unit) : bool :=
  match p with
  | Bind nativeLoop _ => true
  | _ => false
  end.

Definition at_Lock (p : prog unit) : bool :=
  match p with
  | Bind Lock _ => true
  | _ => false
  end.

(** The transitions of the pool: goroutine [t] performs its next action; a
    sender hands a value to a receiver; the application starts a goroutine
    with a call; the backend calls back on the goroutine that runs its loop;
    and goroutine [t], inside [menuItemsLock.Lock()] of line 142, announces
    itself as the next writer.  [sync.RWMutex.Lock] does this before it
    waits for the readers inside to leave, and it is why a new reader waits
    for a writer that is itself still waiting. *)
Inductive label :=
| Tau (t : tid)
| Handoff (sender receiver : tid)
| Start (c : call)
| Backend (t : tid) (cb : callback)
| Announce (t : tid).

Definition step (l : label) (c : config) : option config :=
  match l with
  | Tau t =>
      match threads c !! t with
      | Some (Bind a k) =>
          if send_ready a c then None
          else match exec a t (st c) with
               | Ok (x, s') =>
                   Some (mkConfig s' (<[t := k x]> (threads c) ++ spawns a))
               | _ => None
               end
      | _ => None
      end
  | Handoff sender receiver =>
      match threads c !! sender, threads c !! receiver with
      | Some ps, Some pr =>
          match offers ps with
          | Some (m, ps') =>
              match accepts m pr with
              | Some pr' =>
                  if idle m (st c)
                  then Some (mkConfig (record (exchanged sender receiver m) (st c))
                               (<[receiver := pr']> (<[sender := ps']> (threads c))))
                  else None
              | None => None
              end
          | None => None
          end
      | _, _ => None
      end
  | Start cl => Some (mkConfig (st c) (threads c ++ [entry cl]))
  | Backend t cb =>
      match threads c !! t with
      | Some p =>
          if in_nativeLoop p
          then Some (mkConfig (st c) (<[t := handler cb ;; p]> (threads c)))
          else None
      | None => None
      end
  | Announce t =>
      match threads c !! t,
            writer (menuItemsLock (st c)), waiting (menuItemsLock (st c)) with
      | Some p, None, None =>
          if at_Lock p
          then Some (mkConfig
                       (with_lock (mkRWMutex None (readers (menuItemsLock (st c)))
                                     (Some t)) (st c))
                       (threads c))
          else None
      | _, _, _ => None
      end
  end.

Fixpoint steps (ls : list label) (c : config) : option config :=
  match ls with
  | [] => Some c
  | l :: ls' =>
      match step l c with
      | Some c' => steps ls' c'
      | None => None
      end
  end.

Definition reachable (c : config) : Prop := exists ls, steps ls init = Some c.

(** ** Calls run on their own *)

(** Nobody holds [menuItemsLock] and nobody waits for it. *)
Definition lock_free (s : state) : Prop :=
  menuItemsLock s = mkRWMutex None [] None.

(** The calls of the backend recorded in a history, oldest first, each with
    the item, what it showed, and the positional hint. *)
Fixpoint applied (tr : list event) : list (ptr * MenuItem * ptr) :=
  match tr with
  | [] => []
  | Applied _ item m before :: tr' => applied tr' ++ [(item, m, before)]
  | _ :: tr' => applied tr'
  end.

(** The eight mutators, by name. *)
Inductive mutator :=
| MSetTitle (title : string)
| MSetTooltip (tooltip : string)
| MSetSeparator (s : bool)
| MEnable
| MDisable
| MCheck
| MUncheck
| MRemove.

Definition mutate (mu : mutator) (item : ptr) : prog unit :=
  match mu with
  | MSetTitle v => SetTitle item v
  | MSetTooltip v => SetTooltip item v
  | MSetSeparator b => SetSeparator item b
  | MEnable => Enable item
  | MDisable => Disable item
  | MCheck => Check item
  | MUncheck => Uncheck item
  | MRemove => Remove item
  end.

(** The field write each mutator makes before it calls [update]. *)
Definition staged (mu : mutator) : MenuItem -> MenuItem :=
  match mu with
  | MSetTitle v => set_title v
  | MSetTooltip v => set_tooltip v
  | MSetSeparator b => set_separator b
  | MEnable => set_disabled false
  | MDisable => set_disabled true
  | MCheck => set_checked true
  | MUncheck => set_checked false
  | MRemove => set_remove true
  end.

(** What the mutator establishes, in the words of its documentation. *)
Definition established (mu : mutator) (m : MenuItem) : Prop :=
  match mu with
  | MSetTitle v => title m = v
  | MSetTooltip v => tooltip m = v
  | MSetSeparator b => separator m = b
  | MEnable => disabled m = false
  | MDisable => disabled m = true
  | MCheck => checked m = true
  | MUncheck => checked m = false
  | MRemove => remove m = true
  end.

Inductive field := Fid | Ftitle | Ftooltip | Fdisabled | Fchecked | Fremove | Fseparator.

Definition designated (mu : mutator) : field :=
  match mu with
  | MSetTitle _ => Ftitle
  | MSetTooltip _ => Ftooltip
  | MSetSeparator _ => Fseparator
  | MEnable | MDisable => Fdisabled
  | MCheck | MUncheck => Fchecked
  | MRemove => Fremove
  end.

Definition same_field (f : field) (m m' : MenuItem) : Prop :=
  match f with
  | Fid => id m' = id m
  | Ftitle => title m' = title m
  | Ftooltip => tooltip m' = tooltip m
  | Fdisabled => disabled m' = disabled m
  | Fchecked => checked m' = checked m
  | Fremove => remove m' = remove m
  | Fseparator => separator m' = separator m
  end.

(** The state [update] leaves when it runs alone on an unlocked registry:
    the entry is written and the backend is called, between [Lock] and
    [Unlock]. *)
Definition published (t : tid) (l : loc) (m : MenuItem) (before : ptr) (s : state)
  : state :=
  with_lock (mkRWMutex None [] None)
    (record (Applied t (Some l) m before)
       (with_menuItems (<[id m := Some l]> (menuItems s))
          (with_lock (mkRWMutex (Some t) [] None) s))).

(** Lines 70-71 of [AddMenuItem]: the identifier and the new object. *)
Definition stage (title tooltip : string) : prog ptr :=
  i <- act AddInt32_currentID ;;
  act (New (mkMenuItem i title tooltip false false false false)).

(** Every object the registry or the backend has seen is allocated. *)
Definition closed (s : state) : Prop :=
  (forall k l, menuItems s !! k = Some (Some l) -> (l < length (heap s))%nat)
  /\ (forall l m b, (Some l, m, b) ∈ applied (trace s) -> (l < length (heap s))%nat).

(** The state after [AddMenuItem("Open", "Open window", nil)] in a fresh
    process. *)
Definition opened : state :=
  match run (AddMenuItem "Open" "Open window" None) 0%nat init_state with
  | Ok (_, s) => s
  | _ => init_state
  end.

(** ** Views of the semantics used in the proofs *)

(** The transitions of [step], case by case. *)
Inductive transition (c : config) : label -> config -> Prop :=
| trans_tau (t : tid) {A : Type} (a : action A) (k : A -> prog unit) (x : A) (s' : state) :
    threads c !! t = Some (Bind a k) ->
    send_ready a c = false ->
    exec a t (st c) = Ok (x, s') ->
    transition c (Tau t) (mkConfig s' (<[t := k x]> (threads c) ++ spawns a))
| trans_handoff (sender receiver : tid) (ps pr ps' pr' : prog unit) (m : msg) :
    threads c !! sender = Some ps ->
    threads c !! receiver = Some pr ->
    offers ps = Some (m, ps') ->
    accepts m pr = Some pr' ->
    idle m (st c) = true ->
    transition c (Handoff sender receiver)
      (mkConfig (record (exchanged sender receiver m) (st c))
         (<[receiver := pr']> (<[sender := ps']> (threads c))))
| trans_start (cl : call) :
    transition c (Start cl) (mkConfig (st c) (threads c ++ [entry cl]))
| trans_backend (t : tid) (cb : callback) (p : prog unit) :
    threads c !! t = Some p ->
    in_nativeLoop p = true ->
    transition c (Backend t cb) (mkConfig (st c) (<[t := handler cb ;; p]> (threads c)))
| trans_announce (t : tid) (p : prog unit) :
    threads c !! t = Some p ->
    at_Lock p = true ->
    writer (menuItemsLock (st c)) = None ->
    waiting (menuItemsLock (st c)) = None ->
    transition c (Announce t)
      (mkConfig (with_lock (mkRWMutex None (readers (menuItemsLock (st c))) (Some t))
                   (st c))
         (threads c)).

(** Both channels are made without a capacity (lines 38 and 39) and hold
    nothing. *)
Definition unbuffered (s : state) : Prop :=
  ClickedCh s = make_chan 0 /\ readyCh s = make_chan 0.

(** ** Concrete executions *)

Definition after (ls : list label) : config :=
  match steps ls init with
  | Some c => c
  | None => init
  end.

(** Two goroutines call [AddMenuItem] and their steps interleave. *)
Definition two_adds : list label :=
  [Start (CallAddMenuItem "A" "" None); Start (CallAddMenuItem "B" "" None);
   Tau 1; Tau 0; Tau 0; Tau 1; Tau 0; Tau 0; Tau 0; Tau 0; Tau 1; Tau 1; Tau 1; Tau 1].

(** A listener waits, [Run] is under way, item "Open" is added, and a
    goroutine has executed line 78 of [SetTitle] (the field write) but not
    yet entered [update]; then the backend reports a click on the item. *)
Definition retitling : list label :=
  [Start Listen; Start CallRun; Tau 1; Tau 1;
   Start (CallAddMenuItem "Open" "Open window" None);
   Tau 3; Tau 3; Tau 3; Tau 3; Tau 3; Tau 3;
   Start (CallSetTitle (Some 0%nat) "Close"); Tau 4;
   Backend 1 (CbSelected 1); Tau 1; Tau 1; Tau 1; Handoff 1 0].

(** [Run] is called, the backend signals ready, the started goroutine calls
    [onReady]; then the backend signals ready a second time. *)
Definition ready_once : list label :=
  [Start CallRun; Tau 0; Tau 0; Backend 0 CbReady; Handoff 0 1; Tau 1].

Definition ready_twice : list label := ready_once ++ [Backend 0 CbReady].

(** A listener waits on [ClickedCh], [Run] is under way, and the backend
    reports a click on identifier [i] to the goroutine running its loop. *)
Definition clicking (i : Z) : list label :=
  [Start Listen; Start CallRun; Tau 1; Tau 1; Backend 1 (CbSelected i)].

(** ** Identifier allocation *)

(** The identifiers issued, newest first. *)
Fixpoint issued (tr : list event) : list Z :=
  match tr with
  | [] => []
  | Issued _ i :: tr' => i :: issued tr'
  | _ :: tr' => issued tr'
  end.

(** What a counter that starts at 0 issues in [n] increments, newest first. *)
Fixpoint ids_upto (n : nat) : list Z :=
  match n with
  | O => []
  | S k => wrap32 (Z.of_nat (S k)) :: ids_upto k
  end.

Definition counter_inv (s : state) : Prop :=
  issued (trace s) = ids_upto (length (issued (trace s)))
  /\ currentID s = wrap32 (Z.of_nat (length (issued (trace s)))).

(** The state after [n] calls of [AddMenuItem], one after the other, in a
    fresh process. *)
Definition add_item (s : state) : state :=
  match run (AddMenuItem "" "" None) 0%nat s with
  | Ok (_, s') => s'
  | _ => s
  end.

Definition add_items (n : N) : state := N.iter n add_item init_state.

(** ** Type states of programs *)

(** A program follows a discipline given by a rule on its actions: from
    state [q] every action it can perform is allowed and leads to a state
    from which the rest follows the discipline, and it ends in a final
    state. *)
Fixpoint typed {Q R : Type} (rule : forall A : Type, action A -> Q -> Q -> Prop)
    (final : Q -> Prop) (p : prog R) (q : Q) : Prop :=
  match p with
  | Ret _ => final q
  | Bind a k => exists q', rule _ a q q' /\ forall x, typed rule final (k x) q'
  end.

(** ** The lock discipline *)

(** What a goroutine holds of [menuItemsLock], and how far its critical
    section has got: before the registry write, between the write of [item]
    and the call of the backend, after the call. *)
Inductive held :=
| Free
| Reading
| Writing0
| Writing1 (item : ptr)
| Writing2.

Definition lock_rule (A : Type) (a : action A) (h h' : held) : Prop :=
  match a with
  | Lock => h = Free /\ h' = Writing0
  | MapStore item => h = Writing0 /\ h' = Writing1 item
  | addOrUpdateMenuItem item _ => h = Writing1 item /\ h' = Writing2
  | Unlock => h = Writing2 /\ h' = Free
  | RLock => h = Free /\ h' = Reading
  | MapGet _ => h = Reading /\ h' = Reading
  | RUnlock => h = Reading /\ h' = Free
  | Store _ f => h = Free /\ h' = Free /\ forall m, id (f m) = id m
  | _ => h = Free /\ h' = Free
  end.

Definition disciplined {R : Type} (p : prog R) (h : held) : Prop :=
  typed lock_rule (fun h' => h' = Free) p h.

(** The registry as the backend has been shown it: for each identifier, the
    item of the newest call of [addOrUpdateMenuItem] with that identifier. *)
Fixpoint shown (tr : list event) : gmap Z ptr :=
  match tr with
  | [] => ∅
  | Applied _ item m _ :: tr' => <[id m := item]> (shown tr')
  | _ :: tr' => shown tr'
  end.

Definition holds (s : state) (t : tid) (h : held) : Prop :=
  match h with
  | Free => writer (menuItemsLock s) <> Some t /\ t ∉ readers (menuItemsLock s)
  | Reading => t ∈ readers (menuItemsLock s)
  | Writing0 | Writing2 =>
      writer (menuItemsLock s) = Some t /\ menuItems s = shown (trace s)
  | Writing1 item =>
      writer (menuItemsLock s) = Some t
      /\ exists m, deref s item = Some m
                   /\ menuItems s = <[id m := item]> (shown (trace s))
  end.

Definition lock_inv (c : config) : Prop :=
  (forall t p, threads c !! t = Some p ->
     exists h, disciplined p h /\ holds (st c) t h)
  /\ (forall t, writer (menuItemsLock (st c)) = Some t ->
        readers (menuItemsLock (st c)) = [] /\ (t < length (threads c))%nat)
  /\ (forall t, t ∈ readers (menuItemsLock (st c)) -> (t < length (threads c))%nat)
  /\ NoDup (readers (menuItemsLock (st c)))
  /\ (writer (menuItemsLock (st c)) = None ->
        menuItems (st c) = shown (trace (st c))).

(** Actions that leave lock, registry and backend alone. *)
Definition lock_neutral {A : Type} (a : action A) : Prop :=
  match a with
  | Lock | Unlock | RLock | RUnlock | MapStore _ | addOrUpdateMenuItem _ _ => False
  | Store _ f => forall m, id (f m) = id m
  | _ => True
  end.

Definition stable (s s' : state) : Prop :=
  menuItemsLock s' = menuItemsLock s
  /\ menuItems s' = menuItems s
  /\ shown (trace s') = shown (trace s)
  /\ (forall p m, deref s p = Some m -> exists m', deref s' p = Some m' /\ id m' = id m).

(** ** The ready handshake *)

(** Where a goroutine stands with respect to the handshake: in [Run] before
    [LockOSThread] or before the [go] statement, in the started goroutine
    before the receive or before the call of [onReady], or anywhere else. *)
Inductive role := Plain | Run0 | Run1 | Wait0 | Wait1.

Definition role_eqb (q q' : role) : bool :=
  match q, q' with
  | Plain, Plain | Run0, Run0 | Run1, Run1 | Wait0, Wait0 | Wait1, Wait1 => true
  | _, _ => false
  end.

Definition role_rule (A : Type) (a : action A) (q q' : role) : Prop :=
  match a with
  | LockOSThread => q = Run0 /\ q' = Run1
  | Go _ => q = Run1 /\ q' = Plain
  | RecvReady => q = Wait0 /\ q' = Wait1
  | onReady => q = Wait1 /\ q' = Plain
  | _ => q = Plain /\ q' = Plain
  end.

(** The role of a goroutine, read off its next action. *)
Definition cls {R : Type} (p : prog R) : role :=
  match p with
  | Bind LockOSThread _ => Run0
  | Bind (Go _) _ => Run1
  | Bind RecvReady _ => Wait0
  | Bind onReady _ => Wait1
  | _ => Plain
  end.

Definition shaped {R : Type} (p : prog R) : Prop :=
  typed role_rule (fun q => q = Plain) p (cls p).

Definition ind (q q' : role) : nat := if role_eqb q q' then 1%nat else 0%nat.

(** How many goroutines of the pool have role [q]. *)
Fixpoint count (q : role) (ps : list (prog unit)) : nat :=
  match ps with
  | [] => 0%nat
  | p :: ps' => (ind (cls p) q + count q ps')%nat
  end.

Definition is_pinned (e : event) : bool :=
  match e with Pinned _ => true | _ => false end.
Definition is_spawned (e : event) : bool :=
  match e with Spawned _ => true | _ => false end.
Definition is_readySignal (e : event) : bool :=
  match e with ReadySignal _ _ => true | _ => false end.
Definition is_onReady (e : event) : bool :=
  match e with OnReady _ => true | _ => false end.

(** How many events of a kind a history has. *)
Fixpoint tally (f : event -> bool) (tr : list event) : nat :=
  match tr with
  | [] => 0%nat
  | e :: tr' => ((if f e then 1 else 0) + tally f tr')%nat
  end.

(** Every call of [onReady] comes after a ready signal received by the
    goroutine that makes the call. *)
Fixpoint signalled_before (tr : list event) : Prop :=
  match tr with
  | [] => True
  | OnReady t :: tr' => (exists s, ReadySignal s t ∈ tr') /\ signalled_before tr'
  | _ :: tr' => signalled_before tr'
  end.

(** Events that are no part of the handshake. *)
Definition quiet (e : event) : Prop :=
  match e with
  | Issued _ _ | Applied _ _ _ _ | Delivered _ _ _ => True
  | _ => False
  end.

(** One move of goroutine [t]: its role before, the events it adds (newest
    first), the number of goroutines it starts, and its role after. *)
Inductive moves (t : tid) : role -> list event -> nat -> role -> Prop :=
| mv_plain (es : list event) : Forall quiet es -> moves t Plain es 0 Plain
| mv_pin : moves t Run0 [Pinned t] 0 Run1
| mv_go : moves t Run1 [Spawned t] 1 Plain
| mv_recv (s : tid) : moves t Wait0 [ReadySignal s t] 0 Wait1
| mv_call : moves t Wait1 [OnReady t] 0 Plain.

Definition handshake_inv (c : config) : Prop :=
  (forall t p, threads c !! t = Some p -> shaped p)
  /\ (count Wait0 (threads c) + count Wait1 (threads c)
       + tally is_onReady (trace (st c))
      = tally is_spawned (trace (st c)))%nat
  /\ (count Wait1 (threads c) + tally is_onReady (trace (st c))
      = tally is_readySignal (trace (st c)))%nat
  /\ (count Run1 (threads c) + tally is_spawned (trace (st c))
      = tally is_pinned (trace (st c)))%nat
  /\ (forall t, Pinned t ∈ trace (st c) ->
        exists p, threads c !! t = Some p /\ (cls p = Run1 \/ cls p = Plain))
  /\ (forall t, OnReady t ∈ trace (st c) ->
        exists p, threads c !! t = Some p /\ cls p = Plain)
  /\ (forall t p, threads c !! t = Some p -> cls p = Wait1 ->
        exists s, ReadySignal s t ∈ trace (st c))
  /\ signalled_before (trace (st c))
  /\ (forall t, OnReady t ∈ trace (st c) -> Pinned t ∉ trace (st c)).

(** ** A call on its own within the pool *)

(** Programs that start no goroutine and do not receive clicks. *)
Definition calm_rule (A : Type) (a : action A) (q q' : unit) : Prop :=
  spawns a = [] /\ match a with RecvClicked => False | _ => True end.

Definition calm {R : Type} (p : prog R) : Prop :=
  typed calm_rule (fun _ => True) p tt.

(** No goroutine other than [t] waits for a click. *)
Definition no_listener_but (t : tid) (ps : list (prog unit)) : Prop :=
  forall r p item, r <> t -> ps !! r = Some p -> accepts (Click item) p = None.

(** ** Further notions *)

(** Every registry entry denotes an allocated object whose [id] is the key
    of the entry. *)
Definition keyed (s : state) : Prop :=
  forall k p, menuItems s !! k = Some p ->
    exists l m, p = Some l /\ heap s !! l = Some m /\ id m = k.

(** Every object of [s] is still there in [s'], with the same [id]. *)
Definition persists (s s' : state) : Prop :=
  forall l m, heap s !! l = Some m ->
    exists m', heap s' !! l = Some m' /\ id m' = id m.

(** The goroutine is inside the critical section of [update], between
    [Lock] and [Unlock] (lines 142-146). *)
Definition in_update (p : prog unit) : Prop :=
  match p with
  | Bind (MapStore _) _ | Bind (addOrUpdateMenuItem _ _) _ | Bind Unlock _ => True
  | _ => False
  end.

(** The goroutine is at a channel operation, in the native loop, or about to
    call [onReady]: it waits for, or calls into, another party. *)
Definition at_rendezvous (p : prog unit) : Prop :=
  match p with
  | Bind (SelectSendClicked _) _ | Bind RecvClicked _ | Bind SendReady _
  | Bind RecvReady _ | Bind nativeLoop _ | Bind onReady _ => True
  | _ => False
  end.

(** What the backend was last shown of the object at [l]: the state
    recorded by the newest call of [addOrUpdateMenuItem] for it. *)
Fixpoint last_shown (tr : list event) (l : loc) : option MenuItem :=
  match tr with
  | [] => None
  | Applied _ (Some l') m _ :: tr' =>
      if Nat.eqb l' l then Some m else last_shown tr' l
  | _ :: tr' => last_shown tr' l
  end.

(** The item a goroutine is about to publish: it is at the [Lock] of
    [update], at the registry write or at the call of the backend for that
    item.  A mutator is there from its field write on (lines 78-79) until
    its call of the backend has returned. *)
Fixpoint publishing (p : prog unit) : option ptr :=
  match p with
  | Ret _ => None
  | Bind a k =>
      match a in action A return (A -> option ptr) -> option ptr with
      | Lock => fun rest => rest tt
      | MapStore item => fun _ => Some item
      | addOrUpdateMenuItem item _ => fun _ => Some item
      | _ => fun _ => None
      end (fun x => publishing (k x))
  end.

(** Whether a goroutine has written a field of an item that the backend has
    not been shown since. *)
Inductive pend :=
| Clean
| Dirty (item : ptr).

Definition dirty_rule (A : Type) (a : action A) (q q' : pend) : Prop :=
  match a with
  | Store p _ => q = Clean /\ q' = Dirty p
  | Lock => q' = q
  | MapStore item => (q = Clean \/ q = Dirty item) /\ q' = q
  | addOrUpdateMenuItem item _ => (q = Clean \/ q = Dirty item) /\ q' = Clean
  | _ => q = Clean /\ q' = Clean
  end.

Definition tidy {R : Type} (p : prog R) (q : pend) : Prop :=
  typed dirty_rule (fun q' => q' = Clean) p q.

(** For every object the backend has been shown: its state is what was
    shown last, or some goroutine has written a field of it since. *)
Definition settled (c : config) : Prop :=
  (forall t p, threads c !! t = Some p -> exists q, tidy p q)
  /\ (forall l m, last_shown (trace (st c)) l = Some m ->
        heap (st c) !! l = Some m
        \/ exists t p, threads c !! t = Some p /\ tidy p (Dirty (Some l))).

(** ** Writers waiting for the lock *)

(** A writer that has announced itself is a goroutine at the [Lock] of
    line 142, and no writer has announced itself while one holds the
    lock. *)
Definition queue_inv (c : config) : Prop :=
  (forall w, waiting (menuItemsLock (st c)) = Some w ->
     exists p, threads c !! w = Some p /\ at_Lock p = true)
  /\ (forall w, writer (menuItemsLock (st c)) = Some w ->
        waiting (menuItemsLock (st c)) = None).

(** ** The click handler, line by line *)

(** [systrayMenuItemSelected] from line 154 on, from line 155 on with the
    [item] it has looked up, and at the [select] of lines 156-160. *)
Definition selected_lookup (i : Z) : prog unit :=
  item <- act (MapGet i) ;;
  act RUnlock ;;
  act (SelectSendClicked item) ;;
  Ret tt.

Definition selected_unlock (item : ptr) : prog unit :=
  act RUnlock ;;
  act (SelectSendClicked item) ;;
  Ret tt.

Definition selected_send (item : ptr) : prog unit :=
  act (SelectSendClicked item) ;;
  Ret tt.

(** [Run] is under way and a goroutine is inside [AddMenuItem], at its call
    of the backend after the registry write, when the backend reports a
    click on identifier 1; nobody listens on [ClickedCh]. *)
Definition click_during_update : list label :=
  [Start CallRun; Tau 0; Tau 0;
   Start (CallAddMenuItem "Open" "Open window" None);
   Tau 2; Tau 2; Tau 2; Tau 2;
   Backend 0 (CbSelected 1)].

(** [Run] is called twice, so two goroutines run a native loop.  The
    handler of a click on the first holds the read lock, at line 154;
    [AddMenuItem] has announced itself at its [Lock]; and the backend
    reports a click to the second. *)
Definition click_behind_writer : list label :=
  [Start CallRun; Tau 0; Tau 0;
   Start CallRun; Tau 2; Tau 2;
   Backend 0 (CbSelected 1); Tau 0;
   Start (CallAddMenuItem "Open" "Open window" None);
   Tau 4; Tau 4; Announce 4;
   Backend 2 (CbSelected 1)].

(** [Run] is called twice; the backend signals ready from each loop. *)
Definition two_runs : list label :=
  [Start CallRun; Tau 0; Tau 0;
   Start CallRun; Tau 2; Tau 2;
   Backend 0 CbReady; Handoff 0 1; Tau 1;
   Backend 2 CbReady; Handoff 2 3; Tau 3].

(** ** Identifiers and the objects that carry them *)

(** The identifier a goroutine has drawn at line 70 and not yet put into an
    object: it is at the allocation of line 71. *)
Definition holding {R : Type} (p : prog R) : option Z :=
  match p with
  | Bind (New m) _ => Some (id m)
  | _ => None
  end.

(** A program allocates an object only directly after it has drawn an
    identifier, and with that identifier; its field writes keep the [id].
    [q] is the identifier it has drawn and not yet used. *)
Fixpoint numbered {R : Type} (p : prog R) (q : option Z) : Prop :=
  match p with
  | Ret _ => q = None
  | Bind a k =>
      match a in action A return (A -> option Z -> Prop) -> Prop with
      | AddInt32_currentID => fun rest => q = None /\ forall v, rest v (Some v)
      | New m => fun rest => q = Some (id m) /\ forall x, rest x None
      | Store _ f => fun rest =>
          q = None /\ (forall m, id (f m) = id m) /\ forall x, rest x None
      | _ => fun rest => q = None /\ forall x, rest x None
      end (fun x q' => numbered (k x) q')
  end.

(** The identifiers of objects and the identifiers drawn and not yet used
    have all been issued; as long as no identifier has been issued twice,
    no two objects carry the same, no two goroutines hold the same, and no
    goroutine holds the identifier of an object. *)
Definition numbering (c : config) : Prop :=
  (forall t p, threads c !! t = Some p -> numbered p (holding p))
  /\ (forall l m, heap (st c) !! l = Some m -> id m ∈ issued (trace (st c)))
  /\ (forall t p v, threads c !! t = Some p -> holding p = Some v ->
        v ∈ issued (trace (st c)))
  /\ (NoDup (issued (trace (st c))) ->
      (forall l1 l2 m1 m2, heap (st c) !! l1 = Some m1 -> heap (st c) !! l2 = Some m2 ->
         id m1 = id m2 -> l1 = l2)
      /\ (forall t1 t2 p1 p2 v, threads c !! t1 = Some p1 -> threads c !! t2 = Some p2 ->
            holding p1 = Some v -> holding p2 = Some v -> t1 = t2)
      /\ (forall l m t p, heap (st c) !! l = Some m -> threads c !! t = Some p ->
            holding p <> Some (id m))).

(** ** A call of [AddMenuItem] among other goroutines *)

(** How many actions of its own goroutine [t] performs in an execution. *)
Fixpoint own_steps (t : tid) (ls : list label) : nat :=
  match ls with
  | [] => 0%nat
  | Tau t' :: ls' => ((if Nat.eqb t' t then 1 else 0) + own_steps t ls')%nat
  | _ :: ls' => own_steps t ls'
  end.

(** [AddMenuItem] in a goroutine that goes on with [k], after [n] of its six
    actions; [v] is the identifier drawn at line 70 and [l] the object
    allocated at line 71. *)
Definition adding (n : nat) (v : Z) (l : loc) (ttl tip : string) (before : ptr)
    (k : ptr -> prog unit) : prog unit :=
  match n with
  | 0%nat => item <- AddMenuItem ttl tip before ;; k item
  | 1%nat =>
      item <- act (New (mkMenuItem v ttl tip false false false false)) ;;
      update item before ;; k item
  | 2%nat => update (Some l) before ;; k (Some l)
  | 3%nat =>
      act (MapStore (Some l)) ;; act (addOrUpdateMenuItem (Some l) before) ;;
      act Unlock ;; k (Some l)
  | 4%nat => act (addOrUpdateMenuItem (Some l) before) ;; act Unlock ;; k (Some l)
  | 5%nat => act Unlock ;; k (Some l)
  | _ => k (Some l)
  end.

(** The call of [AddMenuItem] that goroutine [t] began in [c0], after [n]
    of its actions, in [c]: the identifier it has drawn was issued after
    [c0], and the object it has allocated is new since [c0] and carries
    that identifier. *)
Definition calling (c0 : config) (t : tid) (ttl tip : string) (before : ptr)
    (k : ptr -> prog unit) (n : nat) (c : config) : Prop :=
  exists v l es,
    threads c !! t = Some (adding n v l ttl tip before k)
    /\ issued (trace (st c)) = es ++ issued (trace (st c0))
    /\ (length (heap (st c0)) <= length (heap (st c)))%nat
    /\ ((1 <= n)%nat -> v ∈ es)
    /\ ((2 <= n)%nat ->
        (length (heap (st c0)) <= l)%nat
        /\ exists m, heap (st c) !! l = Some m /\ id m = v).

(** * Properties *)

Lemma run_bind {A B : Type} (p : prog A) (f : A -> prog B) (t : tid) (s : state) :
  run (bind p f) t s
  = match run p t s with
    | Ok (x, s') => run (f x) t s'
    | Blocks => Blocks
    | Panics => Panics
    end.
Proof.
  revert s. induction p as [r | X a k IH]; intros s; simpl; [reflexivity|].
  destruct (exec a t s) as [[x s']| |]; [apply IH | reflexivity | reflexivity].
Qed.

Lemma run_update (t : tid) (l : loc) (m : MenuItem) (before : ptr) (s : state) :
  lock_free s -> heap s !! l = Some m ->
  run (update (Some l) before) t s = Ok (tt, published t l m before s).
Proof.
  intros Hfree Hl. unfold lock_free in Hfree.
  unfold update. simpl. rewrite Hfree. simpl. rewrite Hl. simpl. rewrite Hl.
  reflexivity.
Qed.

Lemma run_mutate (mu : mutator) (t : tid) (l : loc) (m : MenuItem) (s : state) :
  lock_free s -> heap s !! l = Some m ->
  run (mutate mu (Some l)) t s
  = Ok (tt, published t l (staged mu m) None (with_heap (<[l := staged mu m]> (heap s)) s)).
Proof.
  intros Hfree Hl.
  assert (Hl' : heap (with_heap (<[l := staged mu m]> (heap s)) s) !! l
                = Some (staged mu m)).
  { simpl. apply list_lookup_insert_eq. eapply lookup_lt_Some; eauto. }
  assert (Hfree' : lock_free (with_heap (<[l := staged mu m]> (heap s)) s)) by exact Hfree.
  pose proof (run_update t l (staged mu m) None _ Hfree' Hl') as Hu.
  destruct mu; simpl in *; rewrite Hl; exact Hu.
Qed.

Lemma staged_established (mu : mutator) (m : MenuItem) : established mu (staged mu m).
Proof. destruct mu; reflexivity. Qed.

Lemma staged_frame (mu : mutator) (m : MenuItem) (f : field) :
  f <> designated mu -> same_field f m (staged mu m).
Proof. destruct mu, f; simpl; intros H; try reflexivity; congruence. Qed.

Lemma staged_id (mu : mutator) (m : MenuItem) : id (staged mu m) = id m.
Proof. destruct mu; reflexivity. Qed.

Lemma published_lookup (t : tid) (l : loc) (m : MenuItem) (before : ptr) (s : state) :
  menuItems (published t l m before s) !! id m = Some (Some l).
Proof. simpl. apply lookup_insert_eq. Qed.

(** C3: after any of the eight mutators has run to its end on an item, with
    no other writer in between, looking the item's id up in the registry
    succeeds and yields that item, whose fields hold what the mutator
    established. *)
Theorem C3_read_your_writes (mu : mutator) (t : tid) (l : loc) (m : MenuItem) (s : state) :
  lock_free s -> heap s !! l = Some m ->
  exists s' m',
    run (mutate mu (Some l)) t s = Ok (tt, s')
    /\ exec (MapGet (id m)) t s' = Ok (Some l, s')
    /\ deref s' (Some l) = Some m'
    /\ id m' = id m
    /\ established mu m'.
Proof.
  intros Hfree Hl.
  exists (published t l (staged mu m) None (with_heap (<[l := staged mu m]> (heap s)) s)).
  exists (staged mu m).
  split; [apply run_mutate; assumption|].
  split.
  { simpl. rewrite <- (staged_id mu m) at 1. rewrite lookup_insert_eq. reflexivity. }
  split.
  { simpl. apply list_lookup_insert_eq. eapply lookup_lt_Some; eauto. }
  split; [apply staged_id | apply staged_established].
Qed.

Lemma C3_read_your_writes_witness :
  exists s' m',
    run (mutate (MSetTitle "Close") (Some 0%nat)) 0%nat opened = Ok (tt, s')
    /\ exec (MapGet 1%Z) 0%nat s' = Ok (Some 0%nat, s')
    /\ deref s' (Some 0%nat) = Some m'
    /\ id m' = 1%Z
    /\ title m' = "Close".
Proof.
  exact (C3_read_your_writes (MSetTitle "Close") 0%nat 0%nat
           (mkMenuItem 1%Z "Open" "Open window" false false false false) opened
           eq_refl eq_refl).
Defined.

(** C4: a mutator changes its designated field of the item and nothing
    else: every other field of the item, its id included, and every other
    object keep their values. *)
Theorem C4_only_designated_field (mu : mutator) (t : tid) (l : loc) (m : MenuItem)
    (s : state) :
  lock_free s -> heap s !! l = Some m ->
  exists s' m',
    run (mutate mu (Some l)) t s = Ok (tt, s')
    /\ heap s' !! l = Some m'
    /\ established mu m'
    /\ (forall f, f <> designated mu -> same_field f m m')
    /\ (forall l', l' <> l -> heap s' !! l' = heap s !! l').
Proof.
  intros Hfree Hl.
  exists (published t l (staged mu m) None (with_heap (<[l := staged mu m]> (heap s)) s)).
  exists (staged mu m).
  split; [apply run_mutate; assumption|].
  split.
  { simpl. apply list_lookup_insert_eq. eapply lookup_lt_Some; eauto. }
  split; [apply staged_established|].
  split; [intros f Hf; apply staged_frame; assumption|].
  intros l' Hne. simpl. apply list_lookup_insert_ne. congruence.
Qed.

Lemma C4_only_designated_field_witness :
  exists s' m',
    run (Disable (Some 0%nat)) 0%nat opened = Ok (tt, s')
    /\ heap s' !! 0%nat = Some m'
    /\ disabled m' = true
    /\ title m' = "Open".
Proof.
  destruct (C4_only_designated_field MDisable 0%nat 0%nat
              (mkMenuItem 1%Z "Open" "Open window" false false false false) opened
              eq_refl eq_refl) as (s' & m' & Hrun & Hm' & Hest & Hframe & _).
  exists s', m'. repeat split; try assumption.
  apply (Hframe Ftitle). discriminate.
Defined.

(** The scenario of the specification: item "Open" is disabled, then
    checked; the two flags are independent and the title stays. *)
Example disable_then_check :
  match run (Disable (Some 0%nat) ;; m2 <- act (Load (Some 0%nat)) ;;
             Check (Some 0%nat) ;; m3 <- act (Load (Some 0%nat)) ;;
             Ret (disabled m2, title m2, (checked m3, disabled m3, title m3)))
          0%nat opened with
  | Ok (r, _) => r = (true, "Open", (true, true, "Open"))
  | _ => False
  end.
Proof. vm_compute. reflexivity. Qed.

Lemma run_AddMenuItem (title tooltip : string) (before : ptr) (t : tid) (s : state) :
  lock_free s ->
  let i := wrap32 (currentID s + 1) in
  let m := mkMenuItem i title tooltip false false false false in
  let l := length (heap s) in
  run (AddMenuItem title tooltip before) t s
  = Ok (Some l, published t l m before
                  (with_heap (heap s ++ [m]) (record (Issued t i) (with_currentID i s)))).
Proof.
  intros Hfree i m l.
  set (s1 := with_heap (heap s ++ [m]) (record (Issued t i) (with_currentID i s))).
  assert (Hl : heap s1 !! l = Some m).
  { simpl. unfold l. rewrite lookup_app_r by lia. rewrite Nat.sub_diag. reflexivity. }
  assert (Hfree1 : lock_free s1) by exact Hfree.
  unfold AddMenuItem. rewrite run_bind.
  change (run (act AddInt32_currentID) t s)
    with (Ok (i, record (Issued t i) (with_currentID i s))).
  cbv iota beta. rewrite run_bind. fold m.
  change (run (act (New m)) t (record (Issued t i) (with_currentID i s)))
    with (Ok (Some l, s1)).
  cbv iota beta. rewrite run_bind.
  rewrite (run_update t l m before s1 Hfree1 Hl). reflexivity.
Qed.

(** C6: the positional hint reaches the backend only at creation:
    [AddMenuItem] hands its [before] argument to [addOrUpdateMenuItem], and
    each of the eight mutators hands it [nil]. *)
Theorem C6_hint_only_at_creation (t : tid) (s : state) :
  lock_free s ->
  (forall title tooltip before, exists item m s',
      run (AddMenuItem title tooltip before) t s = Ok (item, s')
      /\ deref s' item = Some m
      /\ applied (trace s') = applied (trace s) ++ [(item, m, before)])
  /\ (forall mu l m, heap s !! l = Some m -> exists m' s',
      run (mutate mu (Some l)) t s = Ok (tt, s')
      /\ deref s' (Some l) = Some m'
      /\ applied (trace s') = applied (trace s) ++ [(Some l, m', None)]).
Proof.
  intros Hfree. split.
  - intros ti to before. do 3 eexists. split; [apply run_AddMenuItem; assumption|].
    split.
    + simpl. rewrite lookup_app_r by lia. rewrite Nat.sub_diag. reflexivity.
    + reflexivity.
  - intros mu l m Hl. do 2 eexists. split; [apply run_mutate; eassumption|].
    split.
    + simpl. apply list_lookup_insert_eq. eapply lookup_lt_Some; eauto.
    + reflexivity.
Qed.

Lemma C6_hint_only_at_creation_witness :
  (forall title tooltip before, exists item m s',
      run (AddMenuItem title tooltip before) 0%nat opened = Ok (item, s')
      /\ deref s' item = Some m
      /\ applied (trace s') = applied (trace opened) ++ [(item, m, before)])
  /\ (forall mu l m, heap opened !! l = Some m -> exists m' s',
      run (mutate mu (Some l)) 0%nat opened = Ok (tt, s')
      /\ deref s' (Some l) = Some m'
      /\ applied (trace s') = applied (trace opened) ++ [(Some l, m', None)]).
Proof. exact (C6_hint_only_at_creation 0%nat opened eq_refl). Defined.

(** C9: [AddMenuItem] constructs the item (which alone reaches neither the
    registry nor the backend) and then publishes it with the [update] all
    mutators use, handing over the staged state; the item it returns has
    the given title and tooltip, and disabled, checked, remove and separator
    all false. *)
Theorem C9_staged_then_published (ttl tip : string) (before : ptr) (t : tid)
    (s : state) :
  lock_free s -> closed s ->
  exists item m s1 s2,
    run (stage ttl tip) t s = Ok (item, s1)
    /\ deref s1 item = Some m
    /\ menuItems s1 = menuItems s
    /\ applied (trace s1) = applied (trace s)
    /\ (forall k, menuItems s1 !! k <> Some item)
    /\ (forall x, x ∈ applied (trace s1) -> x.1.1 <> item)
    /\ AddMenuItem ttl tip before
       = (x <- stage ttl tip ;; update x before ;; Ret x)
    /\ run (update item before) t s1 = Ok (tt, s2)
    /\ run (AddMenuItem ttl tip before) t s = Ok (item, s2)
    /\ deref s2 item = Some m
    /\ applied (trace s2) = applied (trace s) ++ [(item, m, before)]
    /\ menuItems s2 !! id m = Some item
    /\ title m = ttl /\ tooltip m = tip
    /\ disabled m = false /\ checked m = false
    /\ remove m = false /\ separator m = false.
Proof.
  intros Hfree [Hreg Happ].
  set (i := wrap32 (currentID s + 1)).
  set (m := mkMenuItem i ttl tip false false false false).
  set (s1 := with_heap (heap s ++ [m]) (record (Issued t i) (with_currentID i s))).
  assert (Hl : heap s1 !! length (heap s) = Some m).
  { simpl. rewrite lookup_app_r by lia. rewrite Nat.sub_diag. reflexivity. }
  exists (Some (length (heap s))), m, s1, (published t (length (heap s)) m before s1).
  split; [reflexivity|].
  split; [exact Hl|].
  split; [reflexivity|].
  split; [reflexivity|].
  split.
  { intros k Hk. simpl in Hk. apply Hreg in Hk. lia. }
  split.
  { intros [[x mx] bx] Hx Heq. simpl in *. subst x. apply Happ in Hx. lia. }
  split; [reflexivity|].
  split; [apply run_update; [exact Hfree | exact Hl]|].
  split; [apply run_AddMenuItem; exact Hfree|].
  split; [exact Hl|].
  split; [reflexivity|].
  split; [apply published_lookup|].
  repeat split.
Qed.

Lemma closed_init : closed init_state.
Proof.
  split.
  - intros k l H. simpl in H. rewrite lookup_empty in H. discriminate.
  - intros l m b H. simpl in H. inversion H.
Qed.

Lemma C9_staged_then_published_witness :
  exists item m s1 s2,
    run (stage "Open" "Open window") 0%nat init_state = Ok (item, s1)
    /\ deref s1 item = Some m
    /\ menuItems s1 = menuItems init_state
    /\ applied (trace s1) = applied (trace init_state)
    /\ (forall k, menuItems s1 !! k <> Some item)
    /\ (forall x, x ∈ applied (trace s1) -> x.1.1 <> item)
    /\ AddMenuItem "Open" "Open window" None
       = (x <- stage "Open" "Open window" ;; update x None ;; Ret x)
    /\ run (update item None) 0%nat s1 = Ok (tt, s2)
    /\ run (AddMenuItem "Open" "Open window" None) 0%nat init_state = Ok (item, s2)
    /\ deref s2 item = Some m
    /\ applied (trace s2) = applied (trace init_state) ++ [(item, m, None)]
    /\ menuItems s2 !! id m = Some item
    /\ title m = "Open" /\ tooltip m = "Open window"
    /\ disabled m = false /\ checked m = false
    /\ remove m = false /\ separator m = false.
Proof.
  exact (C9_staged_then_published "Open" "Open window" None 0%nat init_state
           eq_refl closed_init).
Defined.

(** ** The pool: general facts *)

Lemma step_transition (l : label) (c c' : config) :
  step l c = Some c' -> transition c l c'.
Proof.
  destruct l as [t | sd rc | cl | t cb | t]; simpl.
  - destruct (threads c !! t) as [[r | A a k]|] eqn:Ht; try discriminate.
    destruct (send_ready a c) eqn:Hs; try discriminate.
    destruct (exec a t (st c)) as [[x s']| |] eqn:He; try discriminate.
    intros [= <-]. eapply trans_tau; eassumption.
  - destruct (threads c !! sd) as [ps|] eqn:Hs; try discriminate.
    destruct (threads c !! rc) as [pr|] eqn:Hr; try discriminate.
    destruct (offers ps) as [[m ps']|] eqn:Ho; try discriminate.
    destruct (accepts m pr) as [pr'|] eqn:Ha; try discriminate.
    destruct (idle m (st c)) eqn:Hi; try discriminate.
    intros [= <-]. eapply trans_handoff; eassumption.
  - intros [= <-]. constructor.
  - destruct (threads c !! t) as [p|] eqn:Ht; try discriminate.
    destruct (in_nativeLoop p) eqn:Hn; try discriminate.
    intros [= <-]. eapply trans_backend; eassumption.
  - destruct (threads c !! t) as [p|] eqn:Ht; try discriminate.
    destruct (writer (menuItemsLock (st c))) eqn:Hw; try discriminate.
    destruct (waiting (menuItemsLock (st c))) eqn:Hq; try discriminate.
    destruct (at_Lock p) eqn:Hp; try discriminate.
    intros [= <-]. eapply trans_announce; eassumption.
Qed.

Lemma steps_invariant (P : config -> Prop) :
  (forall l c c', P c -> step l c = Some c' -> P c') ->
  forall ls c c', P c -> steps ls c = Some c' -> P c'.
Proof.
  intros Hstep ls. induction ls as [|l ls IH]; intros c c' Hc Hs; simpl in Hs.
  - injection Hs as <-. exact Hc.
  - destruct (step l c) as [c1|] eqn:E; [|discriminate].
    eapply IH; [|exact Hs]. eapply Hstep; eassumption.
Qed.

Lemma reachable_invariant (P : config -> Prop) :
  P init ->
  (forall l c c', P c -> step l c = Some c' -> P c') ->
  forall c, reachable c -> P c.
Proof.
  intros H0 Hstep c [ls Hls]. eapply steps_invariant; eassumption.
Qed.

Lemma steps_app (ls1 ls2 : list label) (c : config) :
  steps (ls1 ++ ls2) c
  = match steps ls1 c with Some c1 => steps ls2 c1 | None => None end.
Proof.
  revert c. induction ls1 as [|l ls1 IH]; intros c; simpl; [reflexivity|].
  destruct (step l c); [apply IH | reflexivity].
Qed.

Lemma reachable_step (l : label) (c c' : config) :
  reachable c -> step l c = Some c' -> reachable c'.
Proof.
  intros [ls Hls] Hs. exists (ls ++ [l]). rewrite steps_app, Hls. simpl.
  rewrite Hs. reflexivity.
Qed.

Lemma offers_inv (ps ps' : prog unit) (m : msg) :
  offers ps = Some (m, ps') ->
  (exists item k, ps = Bind (SelectSendClicked item) k /\ m = Click item /\ ps' = k true)
  \/ (exists k, ps = Bind SendReady k /\ m = Ready /\ ps' = k tt).
Proof.
  destruct ps as [r | A a k]; [discriminate|].
  destruct a; simpl; try discriminate; intros [= <- <-];
    [left | right]; eauto 10.
Qed.

Lemma accepts_inv (pr pr' : prog unit) (m : msg) :
  accepts m pr = Some pr' ->
  (exists item k, pr = Bind RecvClicked k /\ m = Click item /\ pr' = k item)
  \/ (exists k, pr = Bind RecvReady k /\ m = Ready /\ pr' = k tt).
Proof.
  destruct pr as [r | A a k]; [discriminate|].
  destruct a; simpl; try discriminate; destruct m; try discriminate;
    intros [= <-]; [left | right]; eauto 10.
Qed.

(** ** The channels stay empty *)

Lemma exec_unbuffered {A : Type} (a : action A) (t : tid) (s s' : state) (x : A) :
  unbuffered s -> exec a t s = Ok (x, s') -> unbuffered s'.
Proof.
  intros [Hc Hr] He.
  destruct a; simpl in He; rewrite ?Hc, ?Hr in He; simpl in He;
    repeat case_match; simplify_eq; split; assumption.
Qed.

Lemma step_unbuffered (l : label) (c c' : config) :
  unbuffered (st c) -> step l c = Some c' -> unbuffered (st c').
Proof.
  intros Hu Hs. apply step_transition in Hs.
  destruct Hs; simpl; try assumption.
  eapply exec_unbuffered; eassumption.
Qed.

Lemma reachable_unbuffered (c : config) : reachable c -> unbuffered (st c).
Proof.
  apply (reachable_invariant (fun c => unbuffered (st c))).
  - split; reflexivity.
  - intros l c0 c' H. apply step_unbuffered. exact H.
Qed.

(** ** Click delivery *)

Lemma step_tau {A : Type} (c : config) (t : tid) (a : action A) (k : A -> prog unit)
    (x : A) (s' : state) :
  threads c !! t = Some (Bind a k) ->
  send_ready a c = false ->
  exec a t (st c) = Ok (x, s') ->
  spawns a = [] ->
  step (Tau t) c = Some (mkConfig s' (<[t := k x]> (threads c))).
Proof.
  intros Ht Hs He Hsp. simpl. rewrite Ht, Hs, He, Hsp, app_nil_r. reflexivity.
Qed.

Lemma listening_lookup (m : msg) (ps : list (prog unit)) :
  listening m ps = true ->
  exists r p p', ps !! r = Some p /\ accepts m p = Some p'.
Proof.
  unfold listening. intros H. apply existsb_exists in H as (p & Hin & Hp).
  apply list_elem_of_In, list_elem_of_lookup in Hin as [r Hr].
  destruct (accepts m p) as [p'|] eqn:E; [|discriminate]. eauto.
Qed.

Lemma select_default (c : config) (t : tid) (item : ptr) (k : bool -> prog unit) :
  unbuffered (st c) ->
  threads c !! t = Some (Bind (SelectSendClicked item) k) ->
  listening (Click item) (threads c) = false ->
  step (Tau t) c = Some (mkConfig (st c) (<[t := k false]> (threads c))).
Proof.
  intros [Hcc _] Ht Hl. eapply step_tau; [exact Ht | | | reflexivity].
  - simpl. rewrite Hl. apply andb_false_r.
  - simpl. rewrite Hcc. reflexivity.
Qed.

Lemma select_handoff (c : config) (t r : tid) (item : ptr) (k : bool -> prog unit)
    (k' : ptr -> prog unit) :
  unbuffered (st c) ->
  threads c !! t = Some (Bind (SelectSendClicked item) k) ->
  threads c !! r = Some (Bind RecvClicked k') ->
  step (Handoff t r) c
  = Some (mkConfig (record (Delivered t r item) (st c))
            (<[r := k' item]> (<[t := k true]> (threads c)))).
Proof.
  intros [Hcc _] Ht Hr. simpl. rewrite Ht, Hr. simpl. rewrite Hcc. reflexivity.
Qed.

Lemma release_head (t : tid) (rs : list tid) : release t (t :: rs) = rs.
Proof.
  unfold release. rewrite bool_decide_eq_true_2 by (apply elem_of_cons; auto).
  simpl. rewrite Nat.eqb_refl. reflexivity.
Qed.

Lemma after_reachable (ls : list label) : reachable (after ls).
Proof.
  unfold after. destruct (steps ls init) as [c|] eqn:E.
  - exists ls. exact E.
  - exists []. reflexivity.
Qed.

(** ** Identifier allocation *)

Lemma wrap32_small (z : Z) : (-2147483648 <= z < 2147483648)%Z -> wrap32 z = z.
Proof. intros H. unfold wrap32. rewrite Z.mod_small by lia. lia. Qed.

Lemma wrap32_succ (z : Z) : wrap32 (wrap32 z + 1) = wrap32 (z + 1).
Proof.
  unfold wrap32.
  replace ((z + 2147483648) mod 4294967296 - 2147483648 + 1 + 2147483648)%Z
    with ((z + 2147483648) mod 4294967296 + 1)%Z by lia.
  replace (z + 1 + 2147483648)%Z with ((z + 2147483648) + 1)%Z by lia.
  rewrite (Z.add_mod (z + 2147483648) 1) by lia.
  rewrite (Z.add_mod ((z + 2147483648) mod 4294967296) 1) by lia.
  rewrite Z.mod_mod by lia. reflexivity.
Qed.

Lemma exec_counter {A : Type} (a : action A) (t : tid) (s s' : state) (x : A) :
  counter_inv s -> exec a t s = Ok (x, s') -> counter_inv s'.
Proof.
  intros [Hi Hc] He. unfold counter_inv.
  destruct a; simpl in He; repeat case_match; simplify_eq; simpl;
    try (split; assumption).
  split.
  - f_equal; [|exact Hi]. rewrite Hc, wrap32_succ. f_equal. lia.
  - rewrite Hc, wrap32_succ. f_equal. lia.
Qed.

Lemma step_counter (l : label) (c c' : config) :
  counter_inv (st c) -> step l c = Some c' -> counter_inv (st c').
Proof.
  intros Hinv Hs. apply step_transition in Hs.
  destruct Hs as [t A a k x s' _ _ He | sd rc ps pr ps' pr' m _ _ _ _ _ | | |];
    simpl; try assumption.
  - eapply exec_counter; eassumption.
  - destruct m; exact Hinv.
Qed.

Lemma reachable_counter (c : config) : reachable c -> counter_inv (st c).
Proof.
  apply (reachable_invariant (fun c => counter_inv (st c))).
  - split; reflexivity.
  - intros l c0 c'. apply step_counter.
Qed.

Lemma ids_upto_bound (n : nat) (x : Z) :
  (Z.of_nat n < 2147483648)%Z -> x ∈ ids_upto n -> (1 <= x <= Z.of_nat n)%Z.
Proof.
  induction n as [|n IH]; intros Hn Hx; simpl in Hx.
  - inversion Hx.
  - apply elem_of_cons in Hx as [-> | Hx].
    + rewrite wrap32_small by lia. lia.
    + apply IH in Hx; lia.
Qed.

Lemma ids_upto_sorted (n : nat) :
  (Z.of_nat n < 2147483648)%Z ->
  StronglySorted (fun newer older => (older < newer)%Z) (ids_upto n).
Proof.
  induction n as [|n IH]; intros Hn; simpl; constructor.
  - apply IH. lia.
  - apply Forall_forall. intros x Hx.
    apply ids_upto_bound in Hx; [|lia].
    rewrite wrap32_small by lia. lia.
Qed.

Lemma ids_upto_NoDup (n : nat) : (Z.of_nat n < 2147483648)%Z -> NoDup (ids_upto n).
Proof.
  induction n as [|n IH]; intros Hn; simpl; constructor.
  - intros Hx. apply ids_upto_bound in Hx; [|lia].
    rewrite wrap32_small in Hx by lia. lia.
  - apply IH. lia.
Qed.

Lemma add_item_spec (s : state) :
  lock_free s ->
  lock_free (add_item s) /\ currentID (add_item s) = wrap32 (currentID s + 1).
Proof.
  intros Hfree. unfold add_item. rewrite run_AddMenuItem by exact Hfree.
  split; reflexivity.
Qed.

Lemma add_items_spec (n : N) :
  lock_free (add_items n) /\ currentID (add_items n) = wrap32 (Z.of_N n).
Proof.
  unfold add_items. induction n as [|n [IHf IHc]] using N.peano_ind.
  - split; reflexivity.
  - rewrite N.iter_succ. destruct (add_item_spec _ IHf) as [Hf Hc].
    split; [exact Hf|]. rewrite Hc, IHc, wrap32_succ. f_equal. lia.
Qed.

Lemma wrap_after_max (s : state) :
  lock_free s -> currentID s = 2147483646%Z ->
  exists a b s1 s2 ma mb,
    run (AddMenuItem "" "" None) 0%nat s = Ok (a, s1)
    /\ run (AddMenuItem "" "" None) 0%nat s1 = Ok (b, s2)
    /\ deref s2 a = Some ma /\ deref s2 b = Some mb
    /\ id ma = 2147483647%Z /\ id mb = (-2147483648)%Z.
Proof.
  intros Hfree Hc.
  pose proof (run_AddMenuItem "" "" None 0%nat s Hfree) as H1. cbv zeta in H1.
  rewrite Hc in H1. change (wrap32 (2147483646 + 1)) with 2147483647%Z in H1.
  set (m1 := mkMenuItem 2147483647 "" "" false false false false) in *.
  set (s1 := published 0 (length (heap s)) m1 None _) in H1.
  assert (Hfree1 : lock_free s1) by reflexivity.
  assert (Hc1 : currentID s1 = 2147483647%Z) by reflexivity.
  assert (Hh1 : heap s1 = heap s ++ [m1]) by reflexivity.
  pose proof (run_AddMenuItem "" "" None 0%nat s1 Hfree1) as H2. cbv zeta in H2.
  rewrite Hc1 in H2. change (wrap32 (2147483647 + 1)) with (-2147483648)%Z in H2.
  set (m2 := mkMenuItem (-2147483648) "" "" false false false false) in *.
  exists (Some (length (heap s))), (Some (length (heap s1))), s1.
  eexists. exists m1, m2.
  split; [exact H1|]. split; [exact H2|].
  split.
  { simpl. rewrite lookup_app_l by (rewrite length_app; simpl; lia).
    rewrite lookup_app_r by lia. rewrite Nat.sub_diag. reflexivity. }
  split.
  { cbn [deref published with_lock record with_menuItems with_heap heap].
    rewrite lookup_app_r by lia. rewrite Nat.sub_diag. reflexivity. }
  split; reflexivity.
Qed.

Lemma next_id (s : state) :
  lock_free s ->
  exists a s1 m,
    run (AddMenuItem "" "" None) 0%nat s = Ok (a, s1)
    /\ deref s1 a = Some m /\ id m = wrap32 (currentID s + 1).
Proof.
  intros Hfree. do 3 eexists. split; [apply run_AddMenuItem; exact Hfree|].
  split.
  - simpl. rewrite lookup_app_r by lia. rewrite Nat.sub_diag. reflexivity.
  - reflexivity.
Qed.

(** C2 as stated fails.  First, [currentID] is an [int32]: after 2147483646
    calls of [AddMenuItem] the next call returns an item with identifier
    2147483647 and the call after it one with identifier -2147483648, which
    is smaller; and the call after 4294967296 calls returns identifier 1,
    as the very first call did.  Second, calls return in another order than
    they draw their identifiers: of two concurrent calls, goroutine 1 draws
    identifier 1 and goroutine 0 draws 2; goroutine 0 returns first, with
    the item of identifier 2, while goroutine 1 is still before the [Lock]
    of [update], and returns afterwards with the item of identifier 1. *)
Lemma C2_counterexample :
  (exists a b s1 s2 ma mb,
     run (AddMenuItem "" "" None) 0%nat (add_items 2147483646) = Ok (a, s1)
     /\ run (AddMenuItem "" "" None) 0%nat s1 = Ok (b, s2)
     /\ deref s2 a = Some ma /\ deref s2 b = Some mb
     /\ id ma = 2147483647%Z /\ id mb = (-2147483648)%Z)
  /\ (exists a b s1 s2 ma mb,
       run (AddMenuItem "" "" None) 0%nat (add_items 0) = Ok (a, s1)
       /\ run (AddMenuItem "" "" None) 0%nat (add_items 4294967296) = Ok (b, s2)
       /\ deref s1 a = Some ma /\ deref s2 b = Some mb
       /\ id ma = 1%Z /\ id mb = 1%Z)
  /\ (exists c1 c2,
       steps (firstn 10 two_adds) init = Some c1
       /\ steps (skipn 10 two_adds) c1 = Some c2
       /\ threads c1 !! 0%nat = Some (Ret tt)
       /\ threads c1 !! 1%nat = Some (update (Some 1%nat) None ;; Ret tt)
       /\ threads c2 !! 1%nat = Some (Ret tt)
       /\ trace (st c2)
          = [Applied 1 (Some 1%nat) (mkMenuItem 1 "B" "" false false false false) None;
             Applied 0 (Some 0%nat) (mkMenuItem 2 "A" "" false false false false) None;
             Issued 0 2; Issued 1 1]).
Proof.
  split; [|split].
  - destruct (add_items_spec 2147483646) as [Hf Hc].
    apply wrap_after_max; [exact Hf|]. rewrite Hc. reflexivity.
  - destruct (add_items_spec 0) as [Hf0 Hc0].
    destruct (add_items_spec 4294967296) as [Hf1 Hc1].
    destruct (next_id _ Hf0) as (a & s1 & ma & Ha & Hda & Hia).
    destruct (next_id _ Hf1) as (b & s2 & mb & Hb & Hdb & Hib).
    exists a, b, s1, s2, ma, mb.
    split; [exact Ha|]. split; [exact Hb|]. split; [exact Hda|].
    split; [exact Hdb|]. split.
    + rewrite Hia, Hc0. reflexivity.
    + rewrite Hib, Hc1. reflexivity.
  - do 2 eexists. split; [vm_compute; reflexivity|].
    split; [vm_compute; reflexivity|].
    split; [reflexivity|]. split; [reflexivity|]. split; reflexivity.
Qed.


(** ** The lock discipline *)

Lemma typed_bind {Q A B : Type} (rule : forall A : Type, action A -> Q -> Q -> Prop)
    (final final' : Q -> Prop) (p : prog A) (f : A -> prog B) (q : Q) :
  typed rule final p q ->
  (forall x q', final q' -> typed rule final' (f x) q') ->
  typed rule final' (bind p f) q.
Proof.
  intros Hp Hf. revert q Hp.
  induction p as [r | X a k IH]; intros q Hp; simpl in *.
  - apply Hf. exact Hp.
  - destruct Hp as (q' & Hr & Hk). exists q'. split; [exact Hr|].
    intros x. apply IH. apply Hk.
Qed.

Ltac discipline :=
  repeat first
    [ progress (cbn [typed bind act])
    | match goal with
      | |- exists _, lock_rule _ _ _ _ /\ _ => eexists; split; [cbn; eauto|]
      | |- forall _, _ => intro
      | |- _ = _ => reflexivity
      end ].

Lemma entry_disciplined (cl : call) : disciplined (entry cl) Free.
Proof.
  unfold disciplined.
  destruct cl; cbn [entry];
    unfold Run, Quit, AddMenuItem, SetTitle, GetTitle, SetTooltip, SetSeparator,
      Disabled, Enable, Disable, Checked, Check, Uncheck, Remove, update;
    discipline.
Qed.

Lemma handler_disciplined (cb : callback) : disciplined (handler cb) Free.
Proof.
  unfold disciplined.
  destruct cb; cbn [handler]; unfold systrayReady, systrayMenuItemSelected;
    discipline.
Qed.

Lemma body_disciplined (g : goroutine) : disciplined (body g) Free.
Proof. unfold disciplined. destruct g; cbn [body]; discipline. Qed.

Lemma remove_reader_subset (t x : tid) (rs : list tid) :
  x ∈ remove_reader t rs -> x ∈ rs.
Proof.
  induction rs as [|r rs IH]; simpl; [auto|].
  destruct (Nat.eqb r t); intros H.
  - apply elem_of_cons. right. exact H.
  - apply elem_of_cons in H as [-> | H]; apply elem_of_cons; [left | right]; auto.
Qed.

Lemma remove_reader_other (t x : tid) (rs : list tid) :
  x <> t -> x ∈ rs -> x ∈ remove_reader t rs.
Proof.
  intros Hne. induction rs as [|r rs IH]; simpl; [auto|].
  intros H. apply elem_of_cons in H as [-> | H].
  - destruct (Nat.eqb_spec r t); [congruence|]. apply elem_of_cons. left. reflexivity.
  - destruct (Nat.eqb r t); [exact H|]. apply elem_of_cons. right. auto.
Qed.

Lemma remove_reader_NoDup (t : tid) (rs : list tid) :
  NoDup rs -> NoDup (remove_reader t rs).
Proof.
  induction 1 as [|r rs Hr Hnd IH]; simpl; [constructor|].
  destruct (Nat.eqb r t); [exact Hnd|].
  constructor; [|exact IH]. intros H. apply Hr. eapply remove_reader_subset. exact H.
Qed.

Lemma remove_reader_gone (t : tid) (rs : list tid) :
  NoDup rs -> t ∉ remove_reader t rs.
Proof.
  induction 1 as [|r rs Hr Hnd IH]; simpl; [apply not_elem_of_nil|].
  destruct (Nat.eqb_spec r t) as [-> | Hne]; [exact Hr|].
  intros H. apply elem_of_cons in H as [-> | H]; [congruence | auto].
Qed.

Lemma tail_subset (x : tid) (rs : list tid) : x ∈ tail rs -> x ∈ rs.
Proof. destruct rs; simpl; [auto|]. intros H. apply elem_of_cons. auto. Qed.

Lemma release_subset (t x : tid) (rs : list tid) : x ∈ release t rs -> x ∈ rs.
Proof.
  unfold release. destruct (bool_decide (t ∈ rs));
    [apply remove_reader_subset | apply tail_subset].
Qed.

Lemma release_other (t x : tid) (rs : list tid) :
  t ∈ rs -> x <> t -> x ∈ rs -> x ∈ release t rs.
Proof.
  intros Ht Hne Hx. unfold release. rewrite bool_decide_eq_true_2 by exact Ht.
  apply remove_reader_other; assumption.
Qed.

Lemma release_NoDup (t : tid) (rs : list tid) : NoDup rs -> NoDup (release t rs).
Proof.
  intros H. unfold release. destruct (bool_decide (t ∈ rs)).
  - apply remove_reader_NoDup. exact H.
  - destruct H; simpl; [constructor | assumption].
Qed.

Lemma release_gone (t : tid) (rs : list tid) : NoDup rs -> t ∉ release t rs.
Proof.
  intros H. unfold release. destruct (bool_decide (t ∈ rs)) eqn:E.
  - apply remove_reader_gone. exact H.
  - apply bool_decide_eq_false in E. intros Ht. apply E, tail_subset. exact Ht.
Qed.

Lemma holds_stable (s s' : state) (t : tid) (h : held) :
  stable s s' -> holds s t h -> holds s' t h.
Proof.
  intros (Hl & Hm & Hs & Hd). destruct h; simpl; rewrite ?Hl, ?Hm, ?Hs; try tauto.
  intros (Hw & m & Hdm & Hmm). split; [exact Hw|].
  destruct (Hd _ _ Hdm) as (m' & Hm' & Hid). exists m'. rewrite Hid. auto.
Qed.

Lemma stable_refl (s : state) : stable s s.
Proof. repeat split; eauto. Qed.

Lemma stable_record (e : event) (s : state) :
  shown (e :: trace s) = shown (trace s) -> stable s (record e s).
Proof. intros H. repeat split; eauto. Qed.

Lemma exec_stable {A : Type} (a : action A) (t : tid) (s s' : state) (x : A) :
  lock_neutral a -> exec a t s = Ok (x, s') -> stable s s'.
Proof.
  intros Hn He.
  destruct a; simpl in Hn; try contradiction; simpl in He;
    repeat case_match; simplify_eq;
    try apply stable_refl; try (apply stable_record; reflexivity);
    try (repeat split; eauto; fail).
  - (* New *)
    repeat split; try reflexivity. intros [l|] m0 Hp; simpl in *; [|discriminate].
    exists m0. split; [|reflexivity]. apply lookup_app_l_Some. exact Hp.
  - (* Store *)
    repeat split; try reflexivity. intros [l|] m0 Hp; simpl in *; [|discriminate].
    destruct (decide (l = n)) as [-> | Hne].
    + exists (f m0). split; [|apply Hn].
      rewrite list_lookup_insert_eq by (eapply lookup_lt_Some; eauto).
      congruence.
    + exists m0. split; [|reflexivity]. rewrite list_lookup_insert_ne by congruence.
      exact Hp.
Qed.

Lemma lock_inv_init : lock_inv init.
Proof.
  split; [|split; [|split; [|split]]]; simpl.
  - intros t p H. rewrite lookup_nil in H. discriminate.
  - discriminate.
  - intros t H. inversion H.
  - constructor.
  - reflexivity.
Qed.

Lemma lock_inv_spawn (c : config) (ps : list (prog unit)) :
  lock_inv c ->
  Forall (fun p => disciplined p Free) ps ->
  lock_inv (mkConfig (st c) (threads c ++ ps)).
Proof.
  intros (Hth & Hw & Hr & Hnd & Hag) Hps.
  split; [|split; [|split; [|split]]]; simpl; try assumption.
  - intros t p Hp. apply lookup_app_Some in Hp as [Hp | [Hge Hp]].
    + apply Hth. exact Hp.
    + exists Free. split.
      * eapply Forall_lookup_1 in Hps; [exact Hps | exact Hp].
      * simpl. split.
        -- intros Hwt. apply Hw in Hwt. lia.
        -- intros Hrt. apply Hr in Hrt. lia.
  - intros t Ht. destruct (Hw t Ht) as [? ?]. split; [assumption|].
    rewrite length_app. lia.
  - intros t Ht. apply Hr in Ht. rewrite length_app. lia.
Qed.

Lemma lock_inv_set (c : config) (t : tid) (p' : prog unit) (s' : state) (h' : held) :
  lock_inv c ->
  (t < length (threads c))%nat ->
  disciplined p' h' -> holds s' t h' ->
  (forall t0 h0, t0 <> t -> holds (st c) t0 h0 -> holds s' t0 h0) ->
  (forall t0, writer (menuItemsLock s') = Some t0 ->
     readers (menuItemsLock s') = [] /\ (t0 < length (threads c))%nat) ->
  (forall t0, t0 ∈ readers (menuItemsLock s') -> (t0 < length (threads c))%nat) ->
  NoDup (readers (menuItemsLock s')) ->
  (writer (menuItemsLock s') = None -> menuItems s' = shown (trace s')) ->
  lock_inv (mkConfig s' (<[t := p']> (threads c))).
Proof.
  intros (Hth & _) Hlt Hp' Hh' Hothers Hw Hr Hnd Hag.
  split; [|split; [|split; [|split]]]; simpl; try assumption;
    try (intros; rewrite length_insert; auto).
  intros t0 p Hp. destruct (decide (t0 = t)) as [-> | Hne].
  - rewrite list_lookup_insert_eq in Hp by exact Hlt. injection Hp as <-.
    exists h'. split; assumption.
  - rewrite list_lookup_insert_ne in Hp by congruence.
    destruct (Hth t0 p Hp) as (h0 & Hd & Hh). exists h0. split; [exact Hd|].
    apply Hothers; assumption.
Qed.

Lemma lock_inv_set_stable (c : config) (t : tid) (p' : prog unit) (s' : state)
    (h : held) :
  lock_inv c ->
  (t < length (threads c))%nat ->
  disciplined p' h -> holds (st c) t h ->
  stable (st c) s' ->
  lock_inv (mkConfig s' (<[t := p']> (threads c))).
Proof.
  intros Hinv Hlt Hp' Hh Hst.
  pose proof Hinv as (_ & Hw & Hr & Hnd & Hag).
  pose proof Hst as (Hl & Hm & Hs & _).
  apply lock_inv_set with (h' := h); try assumption; rewrite ?Hl, ?Hm, ?Hs;
    try assumption.
  - eapply holds_stable; eassumption.
  - intros t0 h0 _. apply holds_stable. exact Hst.
Qed.

Lemma holds_other_writer (s : state) (t t0 : tid) (h0 : held) :
  writer (menuItemsLock s) = Some t -> t0 <> t -> holds s t0 h0 ->
  h0 = Free \/ h0 = Reading.
Proof.
  intros Hw Hne Hh. destruct h0; simpl in Hh; auto;
    destruct Hh as [Hw0 _]; congruence.
Qed.

Lemma lock_inv_exec {A : Type} (c : config) (t : tid) (a : action A)
    (k : A -> prog unit) (x : A) (s' : state) :
  lock_inv c ->
  threads c !! t = Some (Bind a k) ->
  exec a t (st c) = Ok (x, s') ->
  lock_inv (mkConfig s' (<[t := k x]> (threads c))).
Proof.
  intros Hinv Ht He.
  pose proof Hinv as (Hth & Hw & Hr & Hnd & Hag).
  assert (Hlt : (t < length (threads c))%nat) by (eapply lookup_lt_Some; eauto).
  destruct (Hth t _ Ht) as (h & Hty & Hh).
  destruct Hty as (h' & Hrule & Hk). fold (@typed held unit) in Hk.
  specialize (Hk x).
  assert (Hneutral : lock_neutral a -> h' = h ->
            lock_inv (mkConfig s' (<[t := k x]> (threads c)))).
  { intros Hn ->. eapply lock_inv_set_stable; try eassumption.
    eapply exec_stable; eassumption. }
  destruct a; simpl in Hrule;
    try (apply Hneutral; [exact I | destruct Hrule; congruence]).
  - (* Store *)
    destruct Hrule as (-> & -> & Hid). apply Hneutral; [exact Hid | reflexivity].
  - (* Lock *)
    destruct Hrule as [-> ->]. simpl in He.
    destruct (writer (menuItemsLock (st c))) eqn:Ew; [discriminate|].
    destruct (readers (menuItemsLock (st c))) eqn:Er; [|discriminate].
    destruct (may_write t (waiting (menuItemsLock (st c)))); [|discriminate].
    injection He as <- <-.
    apply lock_inv_set with (h' := Writing0);
      [exact Hinv | exact Hlt | exact Hk | | | | | | ]; simpl.
    + split; [reflexivity | apply Hag; reflexivity].
    + intros t0 h0 Hne Hh0. destruct h0; simpl in *; rewrite ?Ew, ?Er in *.
      * split; [congruence | apply not_elem_of_nil].
      * inversion Hh0.
      * destruct Hh0; discriminate.
      * destruct Hh0; discriminate.
      * destruct Hh0; discriminate.
    + intros t0 [= <-]. auto.
    + intros t0 H0. inversion H0.
    + constructor.
    + discriminate.
  - (* Unlock *)
    destruct Hrule as [-> ->]. simpl in He. destruct Hh as [Hwt Hm].
    rewrite Hwt in He. injection He as <- <-.
    destruct (Hw t Hwt) as [Hre _].
    apply lock_inv_set with (h' := Free);
      [exact Hinv | exact Hlt | exact Hk | | | | | | ]; simpl.
    + split; [discriminate|]. rewrite Hre. apply not_elem_of_nil.
    + intros t0 h0 Hne Hh0.
      destruct (holds_other_writer _ _ _ _ Hwt Hne Hh0) as [-> | ->];
        simpl in *; [|exact Hh0]. split; [discriminate | apply Hh0].
    + discriminate.
    + exact Hr.
    + exact Hnd.
    + intros _. exact Hm.
  - (* RLock *)
    destruct Hrule as [-> ->]. simpl in He. destruct Hh as [Hwt Hrt].
    destruct (writer (menuItemsLock (st c))) eqn:Ew; [discriminate|].
    destruct (waiting (menuItemsLock (st c))) eqn:Eq; [discriminate|].
    injection He as <- <-.
    apply lock_inv_set with (h' := Reading);
      [exact Hinv | exact Hlt | exact Hk | | | | | | ]; simpl.
    + apply elem_of_cons. left. reflexivity.
    + intros t0 h0 Hne Hh0. destruct h0; simpl in *; rewrite ?Ew in *.
      * split; [discriminate|]. intros H0. apply elem_of_cons in H0 as [? | H0];
          [congruence | apply Hh0; exact H0].
      * apply elem_of_cons. right. exact Hh0.
      * destruct Hh0; discriminate.
      * destruct Hh0; discriminate.
      * destruct Hh0; discriminate.
    + discriminate.
    + intros t0 H0. apply elem_of_cons in H0 as [-> | H0]; auto.
    + constructor; assumption.
    + intros _. apply Hag. reflexivity.
  - (* RUnlock *)
    destruct Hrule as [-> ->]. cbn [exec] in He. simpl in Hh.
    destruct (readers (menuItemsLock (st c))) as [|r0 rs0] eqn:Er;
      [inversion Hh|].
    rewrite <- Er in *. injection He as <- <-.
    assert (Hnw : writer (menuItemsLock (st c)) = None).
    { destruct (writer (menuItemsLock (st c))) as [w|] eqn:Ew; [|reflexivity].
      destruct (Hw w eq_refl) as [Hre _]. rewrite Hre in Hh. inversion Hh. }
    apply lock_inv_set with (h' := Free);
      [exact Hinv | exact Hlt | exact Hk | | | | | | ]; simpl.
    + split; [rewrite Hnw; discriminate | apply release_gone; exact Hnd].
    + intros t0 h0 Hne Hh0. destruct h0; simpl in *.
      * split; [apply Hh0|]. intros H0. apply release_subset in H0.
        apply Hh0. exact H0.
      * apply release_other; assumption.
      * exact Hh0.
      * exact Hh0.
      * exact Hh0.
    + rewrite Hnw. discriminate.
    + intros t0 H0. apply release_subset in H0. auto.
    + apply release_NoDup. exact Hnd.
    + intros _. apply Hag. exact Hnw.
  - (* MapStore *)
    destruct Hrule as [-> ->]. simpl in He. destruct Hh as [Hwt Hm].
    destruct (deref (st c) item) as [m|] eqn:Ed; [|discriminate].
    injection He as <- <-.
    apply lock_inv_set with (h' := Writing1 item);
      [exact Hinv | exact Hlt | exact Hk | | | | | | ]; simpl.
    + split; [exact Hwt|]. exists m. rewrite Hm. auto.
    + intros t0 h0 Hne Hh0.
      destruct (holds_other_writer _ _ _ _ Hwt Hne Hh0) as [-> | ->]; exact Hh0.
    + exact Hw.
    + exact Hr.
    + exact Hnd.
    + rewrite Hwt. discriminate.
  - (* addOrUpdateMenuItem *)
    destruct Hrule as [-> ->]. simpl in He. destruct Hh as (Hwt & m & Hdm & Hm).
    rewrite Hdm in He. injection He as <- <-.
    apply lock_inv_set with (h' := Writing2);
      [exact Hinv | exact Hlt | exact Hk | | | | | | ]; simpl.
    + split; [exact Hwt | exact Hm].
    + intros t0 h0 Hne Hh0.
      destruct (holds_other_writer _ _ _ _ Hwt Hne Hh0) as [-> | ->]; exact Hh0.
    + exact Hw.
    + exact Hr.
    + exact Hnd.
    + rewrite Hwt. discriminate.
Qed.

Lemma in_nativeLoop_inv (p : prog unit) :
  in_nativeLoop p = true -> exists k, p = Bind nativeLoop k.
Proof.
  destruct p as [r | A a k]; [discriminate|].
  destruct a; simpl; try discriminate. eauto.
Qed.

Lemma spawns_disciplined {A : Type} (a : action A) :
  Forall (fun p => disciplined p Free) (spawns a).
Proof.
  destruct a; simpl; try constructor; [apply body_disciplined | constructor].
Qed.

Lemma step_lock_inv (l : label) (c c' : config) :
  lock_inv c -> step l c = Some c' -> lock_inv c'.
Proof.
  intros Hinv Hs. apply step_transition in Hs.
  destruct Hs as [t A a k x s' Ht _ He
                 | sd rc ps pr ps' pr' m Hsd Hrc Hoff Hacc _
                 | cl
                 | t cb p Ht Hloop
                 | t p Ht Hat Hw Hq].
  5: { destruct Hinv as (Hth & Hwr & Hr & Hnd & Hag).
       split; [|split; [|split; [|split]]]; simpl; try assumption.
       - intros t0 p0 Hp0. destruct (Hth t0 p0 Hp0) as (h & Hd & Hh).
         exists h. split; [exact Hd|].
         destruct h; simpl in Hh |- *; try rewrite Hw in Hh; exact Hh.
       - discriminate.
       - intros _. apply Hag. exact Hw. }
  - apply (lock_inv_spawn (mkConfig s' (<[t := k x]> (threads c)))).
    + eapply lock_inv_exec; eassumption.
    + apply spawns_disciplined.
  - pose proof Hinv as (Hth & _).
    assert (Hst : stable (st c) (record (exchanged sd rc m) (st c))).
    { apply stable_record. destruct m; reflexivity. }
    destruct (Hth sd ps Hsd) as (hs & Hds & Hhs).
    destruct (Hth rc pr Hrc) as (hr & Hdr & Hhr).
    assert (Hps' : disciplined ps' hs).
    { apply offers_inv in Hoff as [(item & k & -> & _ & ->) | (k & -> & _ & ->)];
        destruct Hds as (h' & [-> ->] & Hk); apply Hk. }
    assert (Hpr' : disciplined pr' hr).
    { apply accepts_inv in Hacc as [(item & k & -> & _ & ->) | (k & -> & _ & ->)];
        destruct Hdr as (h' & [-> ->] & Hk); apply Hk. }
    assert (H1 : lock_inv (mkConfig (record (exchanged sd rc m) (st c))
                             (<[sd := ps']> (threads c)))).
    { eapply lock_inv_set_stable; try eassumption.
      eapply lookup_lt_Some; eauto. }
    apply (lock_inv_set_stable _ rc pr' _ hr H1).
    + simpl. rewrite length_insert. eapply lookup_lt_Some; eauto.
    + exact Hpr'.
    + simpl. eapply holds_stable; eassumption.
    + apply stable_refl.
  - apply lock_inv_spawn; [exact Hinv|].
    constructor; [apply entry_disciplined | constructor].
  - pose proof Hinv as (Hth & _).
    destruct (Hth t p Ht) as (h & Hd & Hh).
    apply in_nativeLoop_inv in Hloop as [k ->].
    assert (h = Free) as -> by (destruct Hd as (h' & [-> _] & _); reflexivity).
    eapply lock_inv_set_stable; try eassumption.
    + eapply lookup_lt_Some; eauto.
    + unfold disciplined. eapply typed_bind; [apply handler_disciplined|].
      intros _ q' ->. exact Hd.
    + apply stable_refl.
Qed.

Lemma reachable_lock_inv (c : config) : reachable c -> lock_inv c.
Proof.
  apply reachable_invariant; [apply lock_inv_init | apply step_lock_inv].
Qed.

(** C7, as the code has it: every access to the registry map is made under
    [menuItemsLock].  In every state the process can reach, a goroutine
    about to write the map holds the lock exclusively, a goroutine about to
    read it holds the lock shared with no writer, the backend is called by
    the goroutine that holds the lock exclusively and has just written the
    entry of that item, a writer excludes all readers, and whenever no
    writer holds the lock the map equals what the backend has been shown,
    identifier by identifier.  (The fields of a registered item are not
    covered: mutators write them before taking the lock.) *)
Theorem C7_registry_under_lock (c : config) :
  reachable c ->
  (forall t item k, threads c !! t = Some (Bind (MapStore item) k) ->
     writer (menuItemsLock (st c)) = Some t)
  /\ (forall t i k, threads c !! t = Some (Bind (MapGet i) k) ->
        t ∈ readers (menuItemsLock (st c))
        /\ writer (menuItemsLock (st c)) = None)
  /\ (forall t item before k,
        threads c !! t = Some (Bind (addOrUpdateMenuItem item before) k) ->
        writer (menuItemsLock (st c)) = Some t
        /\ exists m, deref (st c) item = Some m
                     /\ menuItems (st c) = <[id m := item]> (shown (trace (st c))))
  /\ (forall t, writer (menuItemsLock (st c)) = Some t ->
        readers (menuItemsLock (st c)) = [])
  /\ (writer (menuItemsLock (st c)) = None ->
        menuItems (st c) = shown (trace (st c))).
Proof.
  intros Hreach. destruct (reachable_lock_inv c Hreach) as (Hth & Hw & Hr & Hnd & Hag).
  split; [|split; [|split; [|split]]].
  - intros t item k Ht. destruct (Hth t _ Ht) as (h & (h' & [-> _] & _) & Hh).
    apply Hh.
  - intros t i k Ht. destruct (Hth t _ Ht) as (h & (h' & [-> _] & _) & Hh).
    simpl in Hh. split; [exact Hh|].
    destruct (writer (menuItemsLock (st c))) as [w|] eqn:Ew; [|reflexivity].
    destruct (Hw w eq_refl) as [Hre _]. rewrite Hre in Hh. inversion Hh.
  - intros t item before k Ht.
    destruct (Hth t _ Ht) as (h & (h' & [-> _] & _) & Hh). exact Hh.
  - intros t Ht. apply (Hw t Ht).
  - exact Hag.
Qed.

Lemma C7_registry_under_lock_witness :
  let c := after (firstn 9 retitling) in
  threads c !! 3%nat
  = Some (Bind (addOrUpdateMenuItem (Some 0%nat) None) (fun _ => act Unlock ;; Ret tt))
  /\ writer (menuItemsLock (st c)) = Some 3%nat
  /\ readers (menuItemsLock (st c)) = [].
Proof.
  intros c.
  destruct (C7_registry_under_lock c (after_reachable _))
    as (_ & _ & Happly & Hexcl & _).
  split; [reflexivity|].
  destruct (Happly 3%nat (Some 0%nat) None (fun _ => act Unlock ;; Ret tt) eq_refl)
    as [Hw _].
  split; [exact Hw | exact (Hexcl 3%nat Hw)].
Defined.

(** C7 as stated fails in its last part: item 1 is registered and shown to
    the backend with title "Open"; [SetTitle] has written the title
    (line 78) and not yet taken the lock.  No goroutine holds the lock, the
    registry resolves a click on 1 to the item, whose title is "Close", and
    delivers it, while the backend was last shown "Open". *)
Lemma C7_counterexample :
  exists c m,
    steps retitling init = Some c
    /\ menuItemsLock (st c) = mkRWMutex None [] None
    /\ menuItems (st c) !! 1%Z = Some (Some 0%nat)
    /\ deref (st c) (Some 0%nat) = Some m
    /\ title m = "Close"
    /\ applied (trace (st c))
       = [(Some 0%nat, mkMenuItem 1 "Open" "Open window" false false false false, None)]
    /\ head (trace (st c)) = Some (Delivered 1 0 (Some 0%nat)).
Proof. do 2 eexists. split; [vm_compute; reflexivity|]. repeat split. Qed.

(** ** The ready handshake *)

Lemma typed_cls {R : Type} (p : prog R) (q : role) :
  typed role_rule (fun q => q = Plain) p q -> q = cls p.
Proof.
  destruct p as [r | A a k]; simpl; [auto|].
  intros (q' & Hr & _). destruct a; destruct Hr as [-> _]; reflexivity.
Qed.

Lemma typed_shaped {R : Type} (p : prog R) (q : role) :
  typed role_rule (fun q => q = Plain) p q -> shaped p.
Proof. intros H. unfold shaped. rewrite <- (typed_cls p q H). exact H. Qed.

Ltac roles :=
  repeat first
    [ progress (cbn [typed bind act])
    | match goal with
      | |- exists _, role_rule _ _ _ _ /\ _ => eexists; split; [cbn; eauto|]
      | |- forall _, _ => intro
      | |- _ = _ => reflexivity
      end ].

Lemma entry_shaped (cl : call) : shaped (entry cl).
Proof.
  unfold shaped.
  destruct cl; cbn [entry];
    unfold Run, Quit, AddMenuItem, SetTitle, GetTitle, SetTooltip, SetSeparator,
      Disabled, Enable, Disable, Checked, Check, Uncheck, Remove, update;
    cbn [cls bind act]; roles.
Qed.

Lemma entry_cls (cl : call) :
  cls (entry cl) = Plain \/ cls (entry cl) = Run0.
Proof. destruct cl; cbn; auto. Qed.

Lemma handler_plain (cb : callback) :
  typed role_rule (fun q => q = Plain) (handler cb) Plain.
Proof.
  destruct cb; cbn [handler]; unfold systrayReady, systrayMenuItemSelected; roles.
Qed.

Lemma body_shaped (g : goroutine) : shaped (body g) /\ cls (body g) = Wait0.
Proof.
  destruct g. split; [|reflexivity]. unfold shaped. cbn [body cls bind act]. roles.
Qed.

Lemma ind_same (q : role) : ind q q = 1%nat.
Proof. destruct q; reflexivity. Qed.

Lemma count_app (q : role) (ps ps' : list (prog unit)) :
  count q (ps ++ ps') = (count q ps + count q ps')%nat.
Proof. induction ps as [|p ps IH]; simpl; [reflexivity|]. rewrite IH. lia. Qed.

Lemma count_insert (q : role) (ps : list (prog unit)) (t : tid) (p p' : prog unit) :
  ps !! t = Some p ->
  (count q (<[t := p']> ps) + ind (cls p) q = count q ps + ind (cls p') q)%nat.
Proof.
  revert t. induction ps as [|p0 ps IH]; intros t Ht; [discriminate|].
  destruct t as [|t]; simpl in *.
  - injection Ht as ->. lia.
  - specialize (IH t Ht). lia.
Qed.

Lemma count_zero (q : role) (ps : list (prog unit)) (t : tid) (p : prog unit) :
  count q ps = 0%nat -> ps !! t = Some p -> cls p <> q.
Proof.
  revert t. induction ps as [|p0 ps IH]; intros t Hc Ht; [discriminate|].
  simpl in Hc. destruct t as [|t]; simpl in Ht.
  - injection Ht as ->. intros Heq. rewrite Heq, ind_same in Hc. lia.
  - apply (IH t); [lia | exact Ht].
Qed.

Lemma tally_app (f : event -> bool) (tr tr' : list event) :
  tally f (tr ++ tr') = (tally f tr + tally f tr')%nat.
Proof. induction tr as [|e tr IH]; simpl; [reflexivity|]. rewrite IH. lia. Qed.

Lemma tally_quiet (es : list event) :
  Forall quiet es ->
  tally is_pinned es = 0%nat /\ tally is_spawned es = 0%nat
  /\ tally is_readySignal es = 0%nat /\ tally is_onReady es = 0%nat.
Proof.
  induction 1 as [|e es He _ IH]; simpl; [auto|].
  destruct e; simpl in He; try contradiction; exact IH.
Qed.

Lemma quiet_elem (es : list event) (e : event) :
  Forall quiet es -> e ∈ es -> quiet e.
Proof. intros H Hin. eapply Forall_forall in H; eauto. Qed.

Lemma signalled_before_quiet (es tr : list event) :
  Forall quiet es -> signalled_before tr -> signalled_before (es ++ tr).
Proof.
  induction 1 as [|e es He _ IH]; simpl; [auto|].
  intros Htr. destruct e; simpl in He; try contradiction; auto.
Qed.

Lemma moves_tally (t : tid) (q q' : role) (es : list event) (n : nat) :
  moves t q es n q' ->
  tally is_pinned es = ind q Run0
  /\ tally is_spawned es = ind q Run1
  /\ tally is_readySignal es = ind q Wait0
  /\ tally is_onReady es = ind q Wait1
  /\ n = ind q Run1
  /\ ind q' Wait0 = 0%nat
  /\ ind q' Wait1 = ind q Wait0
  /\ ind q' Run1 = ind q Run0.
Proof.
  destruct 1 as [es Hq | | | s |]; try (repeat split; reflexivity).
  destruct (tally_quiet es Hq) as (-> & -> & -> & ->). repeat split.
Qed.

Lemma moves_events (t : tid) (q q' : role) (es : list event) (n : nat) :
  moves t q es n q' ->
  (forall t0, Pinned t0 ∈ es -> t0 = t /\ q' = Run1)
  /\ (forall t0, OnReady t0 ∈ es -> t0 = t /\ q = Wait1 /\ q' = Plain)
  /\ (q' = Wait1 -> exists s, ReadySignal s t ∈ es)
  /\ (q = Run1 \/ q = Plain -> q' = Plain)
  /\ (forall tr, signalled_before tr ->
        (q = Wait1 -> exists s, ReadySignal s t ∈ tr) ->
        signalled_before (es ++ tr)).
Proof.
  destruct 1 as [es Hq | | | s |].
  - split; [|split; [|split; [|split]]]; try discriminate; auto.
    + intros t0 H. apply (quiet_elem _ _ Hq) in H. contradiction.
    + intros t0 H. apply (quiet_elem _ _ Hq) in H. contradiction.
    + intros tr Htr _. apply signalled_before_quiet; assumption.
  - split; [|split; [|split; [|split]]]; try discriminate.
    + intros t0 H. apply list_elem_of_singleton in H. injection H as ->. auto.
    + intros t0 H. apply list_elem_of_singleton in H. discriminate.
    + intros [H | H]; discriminate.
    + intros tr Htr _. exact Htr.
  - split; [|split; [|split; [|split]]]; try discriminate; auto.
    + intros t0 H. apply list_elem_of_singleton in H. discriminate.
    + intros t0 H. apply list_elem_of_singleton in H. discriminate.
  - split; [|split; [|split; [|split]]].
    + intros t0 H. apply list_elem_of_singleton in H. discriminate.
    + intros t0 H. apply list_elem_of_singleton in H. discriminate.
    + intros _. exists s. apply list_elem_of_singleton. reflexivity.
    + intros [H | H]; discriminate.
    + intros tr Htr _. exact Htr.
  - split; [|split; [|split; [|split]]]; try discriminate; auto.
    + intros t0 H. apply list_elem_of_singleton in H. discriminate.
    + intros t0 H. apply list_elem_of_singleton in H. injection H as ->. auto.
    + intros tr Htr Hs. simpl. split; [apply Hs; reflexivity | exact Htr].
Qed.

Lemma lookup_moved (ps extra : list (prog unit)) (t t0 : tid) (p' p0 : prog unit) :
  (t < length ps)%nat ->
  (<[t := p']> ps ++ extra) !! t0 = Some p0 ->
  (t0 = t /\ p0 = p') \/ (t0 <> t /\ ps !! t0 = Some p0) \/ p0 ∈ extra.
Proof.
  intros Hlt H. apply lookup_app_Some in H as [H | [_ H]].
  - destruct (decide (t0 = t)) as [-> | Hne].
    + rewrite list_lookup_insert_eq in H by exact Hlt. injection H as <-. auto.
    + rewrite list_lookup_insert_ne in H by congruence. auto.
  - right. right. apply list_elem_of_lookup. eauto.
Qed.

Lemma lookup_moved_same (ps extra : list (prog unit)) (t : tid) (p' : prog unit) :
  (t < length ps)%nat -> (<[t := p']> ps ++ extra) !! t = Some p'.
Proof.
  intros Hlt. rewrite lookup_app_l by (rewrite length_insert; exact Hlt).
  apply list_lookup_insert_eq. exact Hlt.
Qed.

Lemma lookup_moved_other (ps extra : list (prog unit)) (t t0 : tid)
    (p' p0 : prog unit) :
  t0 <> t -> ps !! t0 = Some p0 -> (<[t := p']> ps ++ extra) !! t0 = Some p0.
Proof.
  intros Hne H. apply lookup_app_l_Some.
  rewrite list_lookup_insert_ne by congruence. exact H.
Qed.

Lemma count_waiters (q : role) (n : nat) :
  count q (repeat (body ReadyWaiter) n) = (n * ind Wait0 q)%nat.
Proof.
  induction n as [|n IH]; [reflexivity|]. cbn [repeat count]. rewrite IH.
  change (cls (body ReadyWaiter)) with Wait0. lia.
Qed.

Lemma hs_move (c : config) (t : tid) (p p' : prog unit) (es : list event) (n : nat)
    (s' : state) :
  handshake_inv c ->
  threads c !! t = Some p ->
  shaped p' ->
  moves t (cls p) es n (cls p') ->
  trace s' = es ++ trace (st c) ->
  handshake_inv (mkConfig s' (<[t := p']> (threads c) ++ repeat (body ReadyWaiter) n)).
Proof.
  intros (Hsh & N1 & N2 & N3 & P1 & P2 & P3 & P4 & P5) Ht Hp' Hmv Htr.
  assert (Hlt : (t < length (threads c))%nat) by (eapply lookup_lt_Some; eauto).
  pose proof (count_insert Wait0 _ t p p' Ht) as C0.
  pose proof (count_insert Wait1 _ t p p' Ht) as C1.
  pose proof (count_insert Run1 _ t p p' Ht) as CR.
  destruct (moves_tally _ _ _ _ _ Hmv) as (T1 & T2 & T3 & T4 & Hn & I0 & I1 & IR).
  destruct (moves_events _ _ _ _ _ Hmv) as (E1 & E2 & E3 & E4 & E5).
  unfold handshake_inv. simpl. rewrite Htr, !count_app, !tally_app, !count_waiters.
  rewrite T1, T2, T3, T4. change (ind Wait0 Wait0) with 1%nat.
  change (ind Wait0 Wait1) with 0%nat. change (ind Wait0 Run1) with 0%nat.
  split; [|split; [|split; [|split; [|split; [|split; [|split; [|split]]]]]]].
  - intros t0 p0 H0. apply lookup_moved in H0 as [[_ ->] | [[_ H0] | H0]];
      [exact Hp' | eapply Hsh; exact H0 | | exact Hlt].
    apply list_elem_of_In, repeat_spec in H0. subst p0.
    apply (proj1 (body_shaped ReadyWaiter)).
  - lia.
  - lia.
  - lia.
  - intros t0 H0. apply elem_of_app in H0 as [H0 | H0].
    + destruct (E1 t0 H0) as [-> Hq']. exists p'. split; [|auto].
      apply lookup_moved_same. exact Hlt.
    + destruct (P1 t0 H0) as (p0 & Hp0 & Hc0).
      destruct (decide (t0 = t)) as [-> | Hne].
      * rewrite Ht in Hp0. injection Hp0 as <-. exists p'.
        split; [apply lookup_moved_same; exact Hlt|]. right. apply E4. exact Hc0.
      * exists p0. split; [apply lookup_moved_other; assumption | exact Hc0].
  - intros t0 H0. apply elem_of_app in H0 as [H0 | H0].
    + destruct (E2 t0 H0) as (-> & _ & Hq'). exists p'. split; [|exact Hq'].
      apply lookup_moved_same. exact Hlt.
    + destruct (P2 t0 H0) as (p0 & Hp0 & Hc0).
      destruct (decide (t0 = t)) as [-> | Hne].
      * rewrite Ht in Hp0. injection Hp0 as <-. exists p'.
        split; [apply lookup_moved_same; exact Hlt|]. apply E4. auto.
      * exists p0. split; [apply lookup_moved_other; assumption | exact Hc0].
  - intros t0 p0 H0 Hc0. apply lookup_moved in H0 as [[-> ->] | [[_ H0] | H0]];
      [| | |exact Hlt].
    + destruct (E3 Hc0) as [s Hs]. exists s. apply elem_of_app. auto.
    + destruct (P3 t0 p0 H0 Hc0) as [s Hs]. exists s. apply elem_of_app. auto.
    + apply list_elem_of_In, repeat_spec in H0. subst p0. discriminate.
  - apply E5; [exact P4|]. intros Hq. apply (P3 t p Ht Hq).
  - intros t0 H0 H1. apply elem_of_app in H0 as [H0 | H0].
    + destruct (E2 t0 H0) as (-> & Hq & Hq').
      apply elem_of_app in H1 as [H1 | H1].
      * destruct (E1 t H1) as [_ Hr]. congruence.
      * destruct (P1 t H1) as (p0 & Hp0 & Hc0). rewrite Ht in Hp0.
        injection Hp0 as <-. destruct Hc0; congruence.
    + apply elem_of_app in H1 as [H1 | H1].
      * destruct (E1 t0 H1) as [-> Hr].
        destruct (P2 t H0) as (p0 & Hp0 & Hc0). rewrite Ht in Hp0.
        injection Hp0 as <-. rewrite E4 in Hr by auto. discriminate.
      * exact (P5 t0 H0 H1).
Qed.

Lemma hs_move0 (c : config) (t : tid) (p p' : prog unit) (es : list event) (s' : state) :
  handshake_inv c ->
  threads c !! t = Some p ->
  shaped p' ->
  moves t (cls p) es 0 (cls p') ->
  trace s' = es ++ trace (st c) ->
  handshake_inv (mkConfig s' (<[t := p']> (threads c))).
Proof.
  intros Hinv Ht Hp' Hmv Htr.
  pose proof (hs_move c t p p' es 0 s' Hinv Ht Hp' Hmv Htr) as H.
  simpl in H. rewrite app_nil_r in H. exact H.
Qed.

Lemma exec_moves {A : Type} (a : action A) (t : tid) (s s' : state) (x : A)
    (q q' : role) :
  exec a t s = Ok (x, s') ->
  role_rule A a q q' ->
  exists es, trace s' = es ++ trace s
             /\ moves t q es (length (spawns a)) q'
             /\ spawns a = repeat (body ReadyWaiter) (length (spawns a)).
Proof.
  intros He Hr.
  destruct a; simpl in He, Hr; destruct Hr as [-> ->];
    repeat case_match; simplify_eq;
    first [ exists []; split; [reflexivity|]; split; [repeat constructor|];
            try reflexivity
          | eexists [_]; split; [reflexivity|]; split; [repeat constructor|];
            try reflexivity ].
  destruct g. reflexivity.
Qed.

Lemma hs_start (c : config) (cl : call) :
  handshake_inv c -> handshake_inv (mkConfig (st c) (threads c ++ [entry cl])).
Proof.
  intros (Hsh & N1 & N2 & N3 & P1 & P2 & P3 & P4 & P5).
  assert (Hc : count Wait0 [entry cl] = 0%nat /\ count Wait1 [entry cl] = 0%nat
               /\ count Run1 [entry cl] = 0%nat).
  { simpl. destruct (entry_cls cl) as [-> | ->]; auto. }
  destruct Hc as (C0 & C1 & CR).
  unfold handshake_inv. simpl. rewrite !count_app, C0, C1, CR.
  split; [|split; [|split; [|split; [|split; [|split; [|split; [|split]]]]]]];
    try assumption; try lia.
  - intros t p H. apply lookup_app_Some in H as [H | [_ H]]; [eapply Hsh; eauto|].
    apply list_lookup_singleton_Some in H as [_ <-]. apply entry_shaped.
  - intros t H. destruct (P1 t H) as (p & Hp & Hc). exists p.
    split; [apply lookup_app_l_Some; exact Hp | exact Hc].
  - intros t H. destruct (P2 t H) as (p & Hp & Hc). exists p.
    split; [apply lookup_app_l_Some; exact Hp | exact Hc].
  - intros t p H Hc. apply lookup_app_Some in H as [H | [_ H]]; [eapply P3; eauto|].
    apply list_lookup_singleton_Some in H as [_ <-].
    destruct (entry_cls cl) as [E | E]; rewrite E in Hc; discriminate.
Qed.

Lemma handshake_inv_init : handshake_inv init.
Proof.
  unfold handshake_inv. simpl.
  split; [|split; [|split; [|split; [|split; [|split; [|split; [|split]]]]]]];
    try reflexivity; try exact I.
  - intros t p H. rewrite lookup_nil in H. discriminate.
  - intros t H. inversion H.
  - intros t H. inversion H.
  - intros t p H. rewrite lookup_nil in H. discriminate.
  - intros t H. inversion H.
Qed.

Lemma step_handshake_inv (l : label) (c c' : config) :
  handshake_inv c -> step l c = Some c' -> handshake_inv c'.
Proof.
  intros Hinv Hs. apply step_transition in Hs.
  pose proof Hinv as (Hsh & _).
  destruct Hs as [t A a k x s' Ht _ He
                 | sd rc ps pr ps' pr' m Hsd Hrc Hoff Hacc _
                 | cl
                 | t cb p Ht Hloop
                 | t p Ht Hat Hw Hq].
  5: exact Hinv.
  - pose proof (Hsh t _ Ht) as (q' & Hr & Hk).
    destruct (exec_moves a t (st c) s' x _ q' He Hr) as (es & Htr & Hmv & Hsp).
    rewrite Hsp. eapply hs_move; try eassumption.
    + eapply typed_shaped. apply Hk.
    + rewrite <- (typed_cls (k x) q' (Hk x)). exact Hmv.
  - assert (Hne : sd <> rc).
    { intros ->. rewrite Hsd in Hrc. injection Hrc as ->.
      apply offers_inv in Hoff as [(? & ? & -> & _) | (? & -> & _)];
        apply accepts_inv in Hacc as [(? & ? & ? & _) | (? & ? & _)]; discriminate. }
    assert (H1 : handshake_inv (mkConfig (st c) (<[sd := ps']> (threads c)))).
    { eapply (hs_move0 c sd ps ps' []); try eassumption; [| |reflexivity].
      - pose proof (Hsh sd ps Hsd) as Hps.
        apply offers_inv in Hoff as [(item & k & -> & _ & ->) | (k & -> & _ & ->)];
          destruct Hps as (q' & [_ ->] & Hk); eapply typed_shaped; apply Hk.
      - pose proof (Hsh sd ps Hsd) as Hps.
        apply offers_inv in Hoff as [(item & k & -> & _ & ->) | (k & -> & _ & ->)];
          destruct Hps as (q' & [_ ->] & Hk);
          rewrite <- (typed_cls _ _ (Hk _)); constructor; constructor. }
    assert (Hrc1 : threads (mkConfig (st c) (<[sd := ps']> (threads c))) !! rc
                   = Some pr).
    { simpl. rewrite list_lookup_insert_ne by exact Hne. exact Hrc. }
    pose proof (Hsh rc pr Hrc) as Hpr.
    apply accepts_inv in Hacc as [(item & k & -> & -> & ->) | (k & -> & -> & ->)];
      destruct Hpr as (q' & [_ ->] & Hk).
    + eapply (hs_move0 _ rc _ _ [Delivered sd rc item] _ H1 Hrc1);
        [eapply typed_shaped; apply Hk | | reflexivity].
      rewrite <- (typed_cls _ _ (Hk _)). constructor. repeat constructor.
    + eapply (hs_move0 _ rc _ _ [ReadySignal sd rc] _ H1 Hrc1);
        [eapply typed_shaped; apply Hk | | reflexivity].
      rewrite <- (typed_cls _ _ (Hk _)). constructor.
  - apply hs_start. exact Hinv.
  - apply in_nativeLoop_inv in Hloop as [k ->].
    pose proof (Hsh t _ Ht) as Hp.
    assert (Hp' : typed role_rule (fun q => q = Plain)
                    (handler cb ;; Bind nativeLoop k) Plain).
    { eapply typed_bind; [apply handler_plain|]. intros _ q' ->. exact Hp. }
    eapply (hs_move0 c t _ _ [] _ Hinv Ht); [eapply typed_shaped; exact Hp' | |
                                               reflexivity].
    rewrite <- (typed_cls _ _ Hp'). constructor. constructor.
Qed.

Lemma reachable_handshake_inv (c : config) : reachable c -> handshake_inv c.
Proof.
  apply reachable_invariant; [apply handshake_inv_init | apply step_handshake_inv].
Qed.

(** C8, as the code has it: the ready handshake is one-shot for each call
    of [Run], not for the process.  In every state the process can reach,
    [onReady] has been called no more often than [Run] has been entered, so
    at most once when [Run] is called once; no more often than ready signals
    have been received, each call coming after a signal received by the
    calling goroutine, so never when the backend has not signalled; and
    never by a goroutine that has pinned itself to its thread with
    [LockOSThread], the one that runs the native loop. *)
Theorem C8_onReady_once_per_Run (c : config) :
  reachable c ->
  (tally is_onReady (trace (st c)) <= tally is_pinned (trace (st c)))%nat
  /\ ((tally is_pinned (trace (st c)) <= 1)%nat ->
      (tally is_onReady (trace (st c)) <= 1)%nat)
  /\ (tally is_onReady (trace (st c)) <= tally is_readySignal (trace (st c)))%nat
  /\ signalled_before (trace (st c))
  /\ (tally is_readySignal (trace (st c)) = 0%nat ->
      tally is_onReady (trace (st c)) = 0%nat)
  /\ (forall t, OnReady t ∈ trace (st c) -> Pinned t ∉ trace (st c)).
Proof.
  intros Hreach.
  destruct (reachable_handshake_inv c Hreach)
    as (_ & N1 & N2 & N3 & _ & _ & _ & P4 & P5).
  split; [lia|]. split; [lia|]. split; [lia|]. split; [exact P4|].
  split; [lia | exact P5].
Qed.

Lemma C8_onReady_once_per_Run_witness :
  trace (st (after ready_once)) = [OnReady 1; ReadySignal 0 1; Spawned 0; Pinned 0]
  /\ (tally is_onReady (trace (st (after ready_once))) <= 1)%nat
  /\ Pinned 1 ∉ trace (st (after ready_once)).
Proof.
  destruct (C8_onReady_once_per_Run (after ready_once) (after_reachable _))
    as (_ & Hone & _ & _ & _ & Hsep).
  split; [reflexivity|]. split.
  - apply Hone. simpl. lia.
  - apply Hsep. simpl. apply elem_of_cons. left. reflexivity.
Defined.

(** C8 as stated fails: nothing makes the handshake one-shot for the
    process.  [Run] is called twice, each call starts its goroutine, the
    backend signals ready from each loop, and [onReady] is called twice. *)
Lemma C8_counterexample :
  exists c,
    steps two_runs init = Some c
    /\ trace (st c)
       = [OnReady 3; ReadySignal 2 3; OnReady 1; ReadySignal 0 1;
          Spawned 2; Pinned 2; Spawned 0; Pinned 0]
    /\ tally is_onReady (trace (st c)) = 2%nat
    /\ tally is_pinned (trace (st c)) = 2%nat.
Proof. eexists. split; [reflexivity|]. repeat split. Qed.


Lemma exec_trace_grows {A : Type} (a : action A) (t : tid) (s s' : state) (x : A) :
  exec a t s = Ok (x, s') -> exists es, trace s' = es ++ trace s.
Proof.
  intros He. destruct a; simpl in He; repeat case_match; simplify_eq;
    first [ exists []; reflexivity | eexists [_]; reflexivity ].
Qed.

Lemma step_trace_grows (l : label) (c c' : config) :
  step l c = Some c' -> exists es, trace (st c') = es ++ trace (st c).
Proof.
  intros Hs. apply step_transition in Hs.
  destruct Hs as [t A a k x s' _ _ He | sd rc ps pr ps' pr' m _ _ _ _ _ | | |]; simpl.
  - eapply exec_trace_grows. exact He.
  - eexists [_]. reflexivity.
  - exists []. reflexivity.
  - exists []. reflexivity.
  - exists []. reflexivity.
Qed.

Lemma step_tally_mono (f : event -> bool) (l : label) (c c' : config) :
  step l c = Some c' -> (tally f (trace (st c)) <= tally f (trace (st c')))%nat.
Proof.
  intros Hs. apply step_trace_grows in Hs as [es ->]. rewrite tally_app. lia.
Qed.

Lemma steps_tally_mono (f : event -> bool) (ls : list label) (c c' : config) :
  steps ls c = Some c' -> (tally f (trace (st c)) <= tally f (trace (st c')))%nat.
Proof.
  revert c. induction ls as [|l ls IH]; intros c Hs; simpl in Hs.
  - injection Hs as <-. lia.
  - destruct (step l c) as [c1|] eqn:E; [|discriminate].
    pose proof (step_tally_mono f l c c1 E). specialize (IH c1 Hs). lia.
Qed.

Lemma step_tau_inv (t : tid) (c c' : config) :
  step (Tau t) c = Some c' ->
  exists (A : Type) (a : action A) (k : A -> prog unit) (x : A) (s' : state),
    threads c !! t = Some (Bind a k)
    /\ exec a t (st c) = Ok (x, s')
    /\ c' = mkConfig s' (<[t := k x]> (threads c) ++ spawns a).
Proof.
  simpl. destruct (threads c !! t) as [[r | A a k]|] eqn:Ht; try discriminate.
  destruct (send_ready a c); try discriminate.
  destruct (exec a t (st c)) as [[x s']| |] eqn:He; try discriminate.
  intros [= <-]. exists A, a, k, x, s'. auto.
Qed.

(** A goroutine at the send of line 149 stays there until a goroutine
    waiting at the receive of line 53 takes the signal. *)
Lemma sendReady_moves (c c' : config) (t : tid) (k : unit -> prog unit) (l : label) :
  unbuffered (st c) ->
  threads c !! t = Some (Bind SendReady k) ->
  step l c = Some c' ->
  threads c' !! t = Some (Bind SendReady k)
  \/ exists r k', l = Handoff t r
                 /\ threads c !! r = Some (Bind RecvReady k')
                 /\ trace (st c') = ReadySignal t r :: trace (st c)
                 /\ threads c' !! t = Some (k tt).
Proof.
  intros [_ Hrc] Ht Hs.
  assert (Hlt : (t < length (threads c))%nat) by (eapply lookup_lt_Some; eauto).
  destruct l as [t0 | sd rc | cl | t0 cb | t0].
  5: { simpl in Hs. destruct (threads c !! t0) as [p|]; [|discriminate].
       destruct (writer (menuItemsLock (st c))); [discriminate|].
       destruct (waiting (menuItemsLock (st c))); [discriminate|].
       destruct (at_Lock p); [|discriminate]. injection Hs as <-.
       left. exact Ht. }
  - destruct (decide (t0 = t)) as [-> | Hne].
    + simpl in Hs. rewrite Ht in Hs. simpl in Hs. rewrite Hrc in Hs. discriminate.
    + apply step_tau_inv in Hs as (A & a & k0 & x & s' & _ & _ & ->).
      left. simpl. apply lookup_app_l_Some.
      rewrite list_lookup_insert_ne by lia. exact Ht.
  - simpl in Hs.
    destruct (threads c !! sd) as [ps|] eqn:Hsd; [|discriminate].
    destruct (threads c !! rc) as [pr|] eqn:Hr; [|discriminate].
    destruct (offers ps) as [[m ps']|] eqn:Hoff; [|discriminate].
    destruct (accepts m pr) as [pr'|] eqn:Hacc; [|discriminate].
    destruct (idle m (st c)); [|discriminate]. injection Hs as <-.
    assert (Hrt : rc <> t).
    { intros ->. rewrite Ht in Hr. injection Hr as <-.
      destruct m; discriminate. }
    destruct (decide (sd = t)) as [-> | Hne].
    + rewrite Ht in Hsd. injection Hsd as <-. simpl in Hoff.
      injection Hoff as <- <-.
      apply accepts_inv in Hacc as [(? & ? & _ & ? & _) | (k' & -> & _ & ->)];
        [discriminate|].
      right. exists rc, k'. split; [reflexivity|]. split; [exact Hr|].
      split; [reflexivity|]. simpl.
      rewrite list_lookup_insert_ne by lia.
      apply list_lookup_insert_eq. exact Hlt.
    + left. simpl. rewrite !list_lookup_insert_ne by lia. exact Ht.
  - simpl in Hs. injection Hs as <-. left. simpl. apply lookup_app_l_Some. exact Ht.
  - destruct (decide (t0 = t)) as [-> | Hne].
    + simpl in Hs. rewrite Ht in Hs. discriminate.
    + simpl in Hs. destruct (threads c !! t0) as [p|]; [|discriminate].
      destruct (in_nativeLoop p); [|discriminate]. injection Hs as <-.
      left. simpl. rewrite list_lookup_insert_ne by lia. exact Ht.
Qed.

Lemma no_waiter (c : config) :
  handshake_inv c ->
  (tally is_pinned (trace (st c)) <= 1)%nat ->
  (1 <= tally is_readySignal (trace (st c)))%nat ->
  count Wait0 (threads c) = 0%nat.
Proof. intros (_ & N1 & N2 & N3 & _). lia. Qed.

Lemma sendReady_stuck (ls : list label) (c c' : config) (t : tid)
    (k : unit -> prog unit) :
  reachable c ->
  threads c !! t = Some (Bind SendReady k) ->
  (1 <= tally is_readySignal (trace (st c)))%nat ->
  steps ls c = Some c' ->
  (tally is_pinned (trace (st c')) <= 1)%nat ->
  threads c' !! t = Some (Bind SendReady k).
Proof.
  revert c. induction ls as [|l ls IH]; intros c Hreach Ht Hsig Hs Hpin; simpl in Hs.
  - injection Hs as <-. exact Ht.
  - destruct (step l c) as [c1|] eqn:E; [|discriminate].
    pose proof (steps_tally_mono is_pinned ls c1 c' Hs) as Hm1.
    pose proof (step_tally_mono is_pinned l c c1 E) as Hm0.
    pose proof (step_tally_mono is_readySignal l c c1 E) as Hm2.
    apply (IH c1); try assumption; [eapply reachable_step; eassumption | | lia].
    destruct (sendReady_moves c c1 t k l (reachable_unbuffered c Hreach) Ht E)
      as [H | (r & k' & _ & Hr & _)]; [exact H|].
    exfalso.
    pose proof (no_waiter c (reachable_handshake_inv c Hreach)) as Hz.
    apply (count_zero Wait0 (threads c) r _ (Hz ltac:(lia) Hsig) Hr). reflexivity.
Qed.

(** C10: [systrayReady] is one unconditional send on [readyCh], which has
    no buffer.  In every state the process can reach, a goroutine at that
    send cannot go on by itself; it goes on only when a goroutine waiting at
    the receive in [Run]'s goroutine takes the signal.  No more signals are
    taken than [Run] was entered; when [Run] is entered once and a signal
    has been taken, no receiver is left, and a goroutine at the send stays
    there in every later state. *)
Theorem C10_second_ready_blocks (c : config) (t : tid) (k : unit -> prog unit) :
  reachable c ->
  threads c !! t = Some (Bind SendReady k) ->
  systrayReady = act SendReady
  /\ readyCh (st c) = make_chan 0
  /\ step (Tau t) c = None
  /\ (forall l c', step l c = Some c' ->
        threads c' !! t = Some (Bind SendReady k)
        \/ exists r k', l = Handoff t r
                       /\ threads c !! r = Some (Bind RecvReady k')
                       /\ trace (st c') = ReadySignal t r :: trace (st c)
                       /\ threads c' !! t = Some (k tt))
  /\ (tally is_readySignal (trace (st c)) <= tally is_pinned (trace (st c)))%nat
  /\ ((1 <= tally is_readySignal (trace (st c)))%nat ->
      forall ls c', steps ls c = Some c' ->
        (tally is_pinned (trace (st c')) <= 1)%nat ->
        threads c' !! t = Some (Bind SendReady k)).
Proof.
  intros Hreach Ht.
  pose proof (reachable_unbuffered c Hreach) as Hu.
  split; [reflexivity|]. split; [apply Hu|]. split.
  { simpl. rewrite Ht. simpl. destruct Hu as [_ ->]. reflexivity. }
  split.
  { intros l c' Hs. eapply sendReady_moves; eassumption. }
  split.
  { destruct (reachable_handshake_inv c Hreach) as (_ & N1 & N2 & N3 & _). lia. }
  intros Hsig ls c' Hs Hpin. eapply sendReady_stuck; eassumption.
Qed.

Lemma C10_second_ready_blocks_witness :
  threads (after ready_twice) !! 0%nat
  = Some (Bind SendReady (fun _ => Bind nativeLoop Ret))
  /\ step (Tau 0) (after ready_twice) = None
  /\ forall ls c', steps ls (after ready_twice) = Some c' ->
       (tally is_pinned (trace (st c')) <= 1)%nat ->
       threads c' !! 0%nat = Some (Bind SendReady (fun _ => Bind nativeLoop Ret)).
Proof.
  destruct (C10_second_ready_blocks (after ready_twice) 0%nat
              (fun _ => Bind nativeLoop Ret) (after_reachable _) eq_refl)
    as (_ & _ & Hblock & _ & _ & Hforever).
  split; [reflexivity|]. split; [exact Hblock|].
  apply Hforever. simpl. lia.
Defined.

(** ** Writers waiting for the lock *)

Lemma at_Lock_inv (p : prog unit) :
  at_Lock p = true -> exists k, p = Bind Lock k.
Proof.
  destruct p as [r | A a k]; [discriminate|].
  destruct a; simpl; try discriminate. eauto.
Qed.

Lemma exec_queue {A : Type} (a : action A) (k : A -> prog unit) (t : tid)
    (s s' : state) (x : A) :
  exec a t s = Ok (x, s') ->
  (at_Lock (Bind a k) = true
   /\ writer (menuItemsLock s') = Some t
   /\ waiting (menuItemsLock s') = None)
  \/ (at_Lock (Bind a k) = false
      /\ waiting (menuItemsLock s') = waiting (menuItemsLock s)
      /\ forall w, writer (menuItemsLock s') = Some w ->
                   writer (menuItemsLock s) = Some w).
Proof.
  intros He. destruct a; simpl in He; repeat case_match; simplify_eq; simpl;
    first [ left; repeat split; reflexivity
          | right; repeat split; try congruence; intros; congruence ].
Qed.

Lemma queue_inv_init : queue_inv init.
Proof. split; simpl; intros; discriminate. Qed.

Lemma step_queue_inv (l : label) (c c' : config) :
  queue_inv c -> step l c = Some c' -> queue_inv c'.
Proof.
  intros [Hq Hw] Hs. apply step_transition in Hs.
  destruct Hs as [t A a k x s' Ht _ He
                 | sd rc ps pr ps' pr' m Hsd Hrc Hoff Hacc _
                 | cl
                 | t cb p Ht Hloop
                 | t p Ht Hat Hwr Hwt].
  - destruct (exec_queue a k t (st c) s' x He)
      as [(Hat & Hw' & Hq') | (Hat & Hq' & Hw')]; split; simpl.
    + intros w Hwq. rewrite Hq' in Hwq. discriminate.
    + intros w _. exact Hq'.
    + intros w Hwq. rewrite Hq' in Hwq. destruct (Hq w Hwq) as (p & Hp & Hpl).
      exists p. split; [|exact Hpl]. apply lookup_moved_other; [|exact Hp].
      intros ->. rewrite Ht in Hp. injection Hp as <-. congruence.
    + intros w Hww. rewrite Hq'. eapply Hw. apply Hw'. exact Hww.
  - split; simpl; [|exact Hw].
    intros w Hwq. destruct (Hq w Hwq) as (p & Hp & Hpl).
    exists p. split; [|exact Hpl].
    assert (Hs' : w <> sd).
    { intros ->. rewrite Hsd in Hp. injection Hp as <-.
      apply offers_inv in Hoff as [(? & ? & -> & _) | (? & -> & _)]; discriminate. }
    assert (Hr' : w <> rc).
    { intros ->. rewrite Hrc in Hp. injection Hp as <-.
      apply accepts_inv in Hacc as [(? & ? & -> & _) | (? & -> & _)]; discriminate. }
    rewrite !list_lookup_insert_ne by congruence. exact Hp.
  - split; simpl; [|exact Hw].
    intros w Hwq. destruct (Hq w Hwq) as (p & Hp & Hpl).
    exists p. split; [|exact Hpl]. apply lookup_app_l_Some. exact Hp.
  - split; simpl; [|exact Hw].
    intros w Hwq. destruct (Hq w Hwq) as (p0 & Hp & Hpl).
    exists p0. split; [|exact Hpl].
    rewrite list_lookup_insert_ne; [exact Hp|].
    intros ->. rewrite Ht in Hp. injection Hp as <-.
    apply in_nativeLoop_inv in Hloop as [k ->]. discriminate.
  - split; simpl.
    + intros w [= <-]. exists p. auto.
    + intros w Hww. discriminate.
Qed.

Lemma reachable_queue_inv (c : config) : reachable c -> queue_inv c.
Proof.
  apply reachable_invariant; [apply queue_inv_init | apply step_queue_inv].
Qed.

(** ** Every object seen is allocated *)


Lemma exec_closed {A : Type} (a : action A) (t : tid) (s s' : state) (x : A) :
  closed s -> exec a t s = Ok (x, s') -> closed s'.
Proof.
  intros [Hreg Happ] He.
  destruct a; simpl in He; repeat case_match; simplify_eq;
    try (split; assumption).
  - (* New *)
    split; simpl; intros; rewrite length_app; simpl.
    + apply Hreg in H. lia.
    + apply Happ in H. lia.
  - (* Store *)
    split; simpl; intros; rewrite length_insert; eauto.
  - (* MapStore *)
    split; [|exact Happ]. simpl. intros k l Hk.
    destruct (decide (id m = k)) as [<- | Hne].
    + rewrite lookup_insert_eq in Hk. injection Hk as ->.
      eapply lookup_lt_Some. eassumption.
    + rewrite lookup_insert_ne in Hk by exact Hne. eapply Hreg. exact Hk.
  - (* addOrUpdateMenuItem *)
    split; [exact Hreg|]. simpl. intros l m0 b Hin.
    apply elem_of_app in Hin as [Hin | Hin]; [eapply Happ; exact Hin|].
    apply list_elem_of_singleton in Hin. injection Hin as <- <- <-.
    eapply lookup_lt_Some. eassumption.
Qed.

Lemma reachable_closed (c : config) : reachable c -> closed (st c).
Proof.
  apply (reachable_invariant (fun c => closed (st c))); [apply closed_init|].
  intros l c0 c' Hc Hs. apply step_transition in Hs.
  destruct Hs as [t A a k x s' _ _ He | sd rc ps pr ps' pr' m _ _ _ _ _ | | |];
    simpl; try assumption.
  - eapply exec_closed; eassumption.
  - destruct Hc as [Hreg Happ]. split; [exact Hreg|].
    destruct m; exact Happ.
Qed.

(** ** A call on its own within the pool *)

Lemma calm_silent {A : Type} (a : action A) (k : A -> prog unit) (c : config)
    (t : tid) :
  threads c !! t = Some (Bind a k) ->
  calm_rule A a tt tt ->
  no_listener_but t (threads c) ->
  send_ready a c = false.
Proof.
  intros Ht [_ Hrecv] Hno.
  destruct a; try reflexivity. simpl.
  destruct (listening (Click item) (threads c)) eqn:Hl; [|apply andb_false_r].
  apply listening_lookup in Hl as (r & p & p' & Hr & Hp).
  destruct (decide (r = t)) as [-> | Hne].
  - rewrite Ht in Hr. injection Hr as <-. discriminate.
  - rewrite (Hno r p item Hne Hr) in Hp. discriminate.
Qed.

(** What a call computes when run on its own, the pool computes when the
    goroutine making the call is the only one to move and no other
    goroutine waits for a click.  [K] is what the goroutine does with the
    result of the call. *)
Lemma run_steps {R : Type} (K : prog R -> prog unit) (p : prog R) (c : config)
    (t : tid) (r : R) (s' : state) :
  (forall A (a : action A) k, K (Bind a k) = Bind a (fun x => K (k x))) ->
  calm p ->
  no_listener_but t (threads c) ->
  threads c !! t = Some (K p) ->
  run p t (st c) = Ok (r, s') ->
  exists n, steps (repeat (Tau t) n) c
            = Some (mkConfig s' (<[t := K (Ret r)]> (threads c))).
Proof.
  intros HK. revert c. induction p as [r0 | X a k0 IH]; intros c Hcalm Hno Ht Hrun.
  - simpl in Hrun. injection Hrun as -> <-. exists 0%nat. simpl.
    rewrite list_insert_id by exact Ht. destruct c. reflexivity.
  - rewrite HK in Ht. simpl in Hrun. destruct Hcalm as ([] & Hrule & Hk).
    destruct (exec a t (st c)) as [[x s1]| |] eqn:He; try discriminate.
    assert (Hlt : (t < length (threads c))%nat) by (eapply lookup_lt_Some; eauto).
    pose proof (calm_silent a _ c t Ht Hrule Hno) as Hsil.
    pose proof (step_tau c t a _ x s1 Ht Hsil He (proj1 Hrule)) as Hstep.
    destruct (IH x (mkConfig s1 (<[t := K (k0 x)]> (threads c))))
      as [n Hn]; simpl.
    + apply Hk.
    + intros r1 p1 item Hne Hr1.
      rewrite list_lookup_insert_ne in Hr1 by lia. eapply Hno; eassumption.
    + apply list_lookup_insert_eq. exact Hlt.
    + exact Hrun.
    + exists (S n). cbn [repeat steps]. rewrite Hstep.
      simpl in Hn. rewrite list_insert_insert_eq in Hn. exact Hn.
Qed.

Lemma AddMenuItem_calm (ttl tip : string) (before : ptr) :
  calm (AddMenuItem ttl tip before).
Proof.
  unfold calm, AddMenuItem, update. cbn [typed bind act].
  repeat (exists tt; split; [split; [reflexivity | exact I]|]; intros).
  exact I.
Qed.

Lemma mutate_calm (mu : mutator) (item : ptr) : calm (mutate mu item).
Proof.
  unfold calm.
  destruct mu; cbn [mutate]; unfold SetTitle, SetTooltip, SetSeparator, Enable,
    Disable, Check, Uncheck, Remove, update; cbn [typed bind act];
    repeat (exists tt; split; [split; [reflexivity | exact I]|]; intros);
    exact I.
Qed.

(** [AddMenuItem] and the mutators called by a goroutine of the pool: when
    the lock is free and the goroutine is not interrupted, the pool reaches
    the state the call computes on its own. *)
Lemma AddMenuItem_in_pool (ttl tip : string) (before : ptr) (c : config) (t : tid) :
  lock_free (st c) ->
  no_listener_but t (threads c) ->
  threads c !! t = Some (entry (CallAddMenuItem ttl tip before)) ->
  exists n item s',
    run (AddMenuItem ttl tip before) t (st c) = Ok (item, s')
    /\ steps (repeat (Tau t) n) c
       = Some (mkConfig s' (<[t := Ret tt]> (threads c))).
Proof.
  intros Hfree Hno Ht.
  pose proof (run_AddMenuItem ttl tip before t (st c) Hfree) as Hrun.
  cbv zeta in Hrun.
  destruct (run_steps (fun p => p ;; Ret tt) _ c t _ _ (fun _ _ _ => eq_refl)
              (AddMenuItem_calm ttl tip before) Hno Ht Hrun) as [n Hn].
  exists n. do 2 eexists. split; [exact Hrun | exact Hn].
Qed.

Lemma mutate_in_pool (mu : mutator) (c : config) (t : tid) (l : loc) (m : MenuItem) :
  lock_free (st c) ->
  heap (st c) !! l = Some m ->
  no_listener_but t (threads c) ->
  threads c !! t = Some (mutate mu (Some l)) ->
  exists n s',
    run (mutate mu (Some l)) t (st c) = Ok (tt, s')
    /\ steps (repeat (Tau t) n) c
       = Some (mkConfig s' (<[t := Ret tt]> (threads c))).
Proof.
  intros Hfree Hl Hno Ht.
  pose proof (run_mutate mu t l m (st c) Hfree Hl) as Hrun.
  destruct (run_steps (fun p => p) _ c t _ _ (fun _ _ _ => eq_refl)
              (mutate_calm mu (Some l)) Hno Ht Hrun) as [n Hn].
  exists n. eexists. split; [exact Hrun | exact Hn].
Qed.

(** * Further properties of the package *)

(** ** Getters *)

Lemma run_GetTitle (t : tid) (l : loc) (m : MenuItem) (s : state) :
  heap s !! l = Some m -> run (GetTitle (Some l)) t s = Ok (title m, s).
Proof. intros Hl. unfold GetTitle. simpl. rewrite Hl. reflexivity. Qed.

Lemma run_Disabled (t : tid) (l : loc) (m : MenuItem) (s : state) :
  heap s !! l = Some m -> run (Disabled (Some l)) t s = Ok (disabled m, s).
Proof. intros Hl. unfold Disabled. simpl. rewrite Hl. reflexivity. Qed.

Lemma run_Checked (t : tid) (l : loc) (m : MenuItem) (s : state) :
  heap s !! l = Some m -> run (Checked (Some l)) t s = Ok (checked m, s).
Proof. intros Hl. unfold Checked. simpl. rewrite Hl. reflexivity. Qed.

Lemma published_heap (mu : mutator) (t : tid) (l : loc) (m : MenuItem) (s : state) :
  heap s !! l = Some m ->
  heap (published t l (staged mu m) None (with_heap (<[l := staged mu m]> (heap s)) s))
  !! l = Some (staged mu m).
Proof.
  intros Hl. simpl. apply list_lookup_insert_eq. eapply lookup_lt_Some; eauto.
Qed.

(** Round trip through setter and getter: [GetTitle] after [SetTitle]
    returns the string that was set, unchanged; [Disabled] returns [false]
    after [Enable] and [true] after [Disable]; [Checked] returns [true]
    after [Check] and [false] after [Uncheck]. *)
Theorem setter_getter_round_trip (t : tid) (l : loc) (m : MenuItem) (s : state) :
  lock_free s -> heap s !! l = Some m ->
  (forall v, exists s',
      run (SetTitle (Some l) v ;; GetTitle (Some l)) t s = Ok (v, s'))
  /\ (exists s', run (Enable (Some l) ;; Disabled (Some l)) t s = Ok (false, s'))
  /\ (exists s', run (Disable (Some l) ;; Disabled (Some l)) t s = Ok (true, s'))
  /\ (exists s', run (Check (Some l) ;; Checked (Some l)) t s = Ok (true, s'))
  /\ (exists s', run (Uncheck (Some l) ;; Checked (Some l)) t s = Ok (false, s')).
Proof.
  intros Hfree Hl.
  split; [|split; [|split; [|split]]].
  - intros v. eexists. rewrite run_bind.
    change (SetTitle (Some l) v) with (mutate (MSetTitle v) (Some l)).
    rewrite (run_mutate (MSetTitle v) t l m s Hfree Hl).
    apply (run_GetTitle t l (staged (MSetTitle v) m)), published_heap, Hl.
  - eexists. rewrite run_bind.
    change (Enable (Some l)) with (mutate MEnable (Some l)).
    rewrite (run_mutate MEnable t l m s Hfree Hl).
    apply (run_Disabled t l (staged MEnable m)), published_heap, Hl.
  - eexists. rewrite run_bind.
    change (Disable (Some l)) with (mutate MDisable (Some l)).
    rewrite (run_mutate MDisable t l m s Hfree Hl).
    apply (run_Disabled t l (staged MDisable m)), published_heap, Hl.
  - eexists. rewrite run_bind.
    change (Check (Some l)) with (mutate MCheck (Some l)).
    rewrite (run_mutate MCheck t l m s Hfree Hl).
    apply (run_Checked t l (staged MCheck m)), published_heap, Hl.
  - eexists. rewrite run_bind.
    change (Uncheck (Some l)) with (mutate MUncheck (Some l)).
    rewrite (run_mutate MUncheck t l m s Hfree Hl).
    apply (run_Checked t l (staged MUncheck m)), published_heap, Hl.
Qed.

Lemma setter_getter_round_trip_witness :
  exists s', run (SetTitle (Some 0%nat) "Close" ;; GetTitle (Some 0%nat)) 0%nat opened
             = Ok ("Close", s').
Proof.
  destruct (setter_getter_round_trip 0%nat 0%nat
              (mkMenuItem 1%Z "Open" "Open window" false false false false) opened
              eq_refl eq_refl) as (Htitle & _).
  exact (Htitle "Close").
Defined.

(** ** Calls on a [nil] receiver *)

(** Every mutator and every getter called on a [nil] [*MenuItem] panics at
    its first statement, the field access: a mutator does not reach
    [update], so neither the registry nor the backend is touched, and in the
    pool a goroutine making such a call has no further step. *)
Theorem nil_receiver_panics (t : tid) (s : state) :
  (forall mu, run (mutate mu None) t s = Panics)
  /\ run (GetTitle None) t s = Panics
  /\ run (Disabled None) t s = Panics
  /\ run (Checked None) t s = Panics
  /\ (forall mu c, st c = s -> threads c !! t = Some (mutate mu None) ->
        step (Tau t) c = None).
Proof.
  split; [|split; [|split; [|split]]]; try reflexivity.
  - intros mu. destruct mu; reflexivity.
  - intros mu c _ Ht. simpl. rewrite Ht. destruct mu; reflexivity.
Qed.

(** ** What a mutator leaves alone *)

Lemma staged_twice (mu : mutator) (m : MenuItem) :
  staged mu (staged mu m) = staged mu m.
Proof. destruct mu; reflexivity. Qed.

Lemma published_free (t : tid) (l : loc) (m : MenuItem) (before : ptr) (s : state) :
  lock_free (published t l m before s).
Proof. reflexivity. Qed.

(** Calling the same mutator a second time changes neither the item nor the
    registry, but the backend is called again with the same full state:
    there is no check for "nothing changed". *)
Theorem mutator_twice_resends (mu : mutator) (t : tid) (l : loc) (m : MenuItem)
    (s : state) :
  lock_free s -> heap s !! l = Some m ->
  exists s1 s2,
    run (mutate mu (Some l)) t s = Ok (tt, s1)
    /\ run (mutate mu (Some l)) t s1 = Ok (tt, s2)
    /\ heap s2 = heap s1
    /\ menuItems s2 = menuItems s1
    /\ applied (trace s1) = applied (trace s) ++ [(Some l, staged mu m, None)]
    /\ applied (trace s2) = applied (trace s1) ++ [(Some l, staged mu m, None)].
Proof.
  intros Hfree Hl.
  set (s1 := published t l (staged mu m) None
               (with_heap (<[l := staged mu m]> (heap s)) s)).
  assert (Hl1 : heap s1 !! l = Some (staged mu m)) by (apply published_heap, Hl).
  exists s1. eexists.
  split; [apply run_mutate; assumption|].
  split; [apply (run_mutate mu t l (staged mu m) s1 (published_free _ _ _ _ _) Hl1)|].
  rewrite staged_twice.
  split; [simpl; apply list_insert_insert_eq|].
  split; [simpl; rewrite staged_id; apply insert_insert_eq|].
  split; reflexivity.
Qed.

Lemma mutator_twice_resends_witness :
  exists s1 s2,
    run (Disable (Some 0%nat)) 0%nat opened = Ok (tt, s1)
    /\ run (Disable (Some 0%nat)) 0%nat s1 = Ok (tt, s2)
    /\ heap s2 = heap s1
    /\ menuItems s2 = menuItems s1
    /\ length (applied (trace s2)) = S (length (applied (trace s1))).
Proof.
  destruct (mutator_twice_resends MDisable 0%nat 0%nat
              (mkMenuItem 1%Z "Open" "Open window" false false false false) opened
              eq_refl eq_refl) as (s1 & s2 & H1 & H2 & Hh & Hm & _ & Ha).
  exists s1, s2. repeat split; try assumption.
  rewrite Ha, length_app. simpl. lia.
Defined.

(** A mutator writes the registry entry of the item's own id and no other,
    issues no identifier, allocates no object, leaves both channels alone
    and returns with [menuItemsLock] released. *)
Theorem mutator_touches_one_entry (mu : mutator) (t : tid) (l : loc) (m : MenuItem)
    (s : state) :
  lock_free s -> heap s !! l = Some m ->
  exists s',
    run (mutate mu (Some l)) t s = Ok (tt, s')
    /\ (forall k, k <> id m -> menuItems s' !! k = menuItems s !! k)
    /\ currentID s' = currentID s
    /\ length (heap s') = length (heap s)
    /\ ClickedCh s' = ClickedCh s /\ readyCh s' = readyCh s
    /\ lock_free s'.
Proof.
  intros Hfree Hl. eexists. split; [apply run_mutate; eassumption|].
  split.
  { intros k Hk. simpl. rewrite staged_id. apply lookup_insert_ne. congruence. }
  split; [reflexivity|]. split; [simpl; apply length_insert|].
  repeat split.
Qed.

Lemma mutator_touches_one_entry_witness :
  exists s',
    run (Remove (Some 0%nat)) 0%nat opened = Ok (tt, s')
    /\ (forall k, k <> 1%Z -> menuItems s' !! k = menuItems opened !! k)
    /\ lock_free s'.
Proof.
  destruct (mutator_touches_one_entry MRemove 0%nat 0%nat
              (mkMenuItem 1%Z "Open" "Open window" false false false false) opened
              eq_refl eq_refl) as (s' & Hrun & Hk & _ & _ & _ & _ & Hf).
  exists s'. repeat split; assumption.
Defined.

(** ** What [AddMenuItem] returns *)

(** [AddMenuItem] never returns [nil]: it returns a newly allocated object,
    distinct from every object that existed before, registered under the
    identifier it was issued (replacing whatever that identifier denoted);
    the objects that existed keep their state, every other registry entry is
    as before, and the lock is released on return. *)
Theorem AddMenuItem_returns_fresh (ttl tip : string) (before : ptr) (t : tid)
    (s : state) :
  lock_free s ->
  exists l m s',
    run (AddMenuItem ttl tip before) t s = Ok (Some l, s')
    /\ heap s !! l = None
    /\ heap s' !! l = Some m
    /\ id m = wrap32 (currentID s + 1) /\ currentID s' = id m
    /\ menuItems s' !! id m = Some (Some l)
    /\ (forall l' m', heap s !! l' = Some m' -> heap s' !! l' = Some m')
    /\ (forall k, k <> id m -> menuItems s' !! k = menuItems s !! k)
    /\ lock_free s'.
Proof.
  intros Hfree. do 3 eexists.
  split; [apply run_AddMenuItem; exact Hfree|].
  split; [apply lookup_ge_None; lia|].
  split; [simpl; rewrite lookup_app_r by lia; rewrite Nat.sub_diag; reflexivity|].
  split; [reflexivity|]. split; [reflexivity|].
  split; [simpl; apply lookup_insert_eq|].
  split; [intros l' m' H; simpl; apply lookup_app_l_Some; exact H|].
  split; [intros k Hk; simpl; apply lookup_insert_ne; simpl in Hk; congruence|].
  reflexivity.
Qed.

Lemma AddMenuItem_returns_fresh_witness :
  exists l m s',
    run (AddMenuItem "Quit" "Quit the app" (Some 0%nat)) 0%nat opened = Ok (Some l, s')
    /\ heap opened !! l = None
    /\ heap s' !! l = Some m
    /\ id m = 2%Z.
Proof.
  destruct (AddMenuItem_returns_fresh "Quit" "Quit the app" (Some 0%nat) 0%nat opened
              eq_refl) as (l & m & s' & Hrun & Hnew & Hm & Hid & _).
  exists l, m, s'. repeat split; assumption.
Defined.

(** ** The registry over time *)

Lemma exec_keeps_keys {A : Type} (a : action A) (t : tid) (s s' : state) (x : A)
    (k : Z) :
  exec a t s = Ok (x, s') ->
  is_Some (menuItems s !! k) -> is_Some (menuItems s' !! k).
Proof.
  intros He Hk.
  destruct a; simpl in He; repeat case_match; simplify_eq; simpl; try exact Hk.
  destruct (decide (id m = k)) as [-> | Hne].
  - rewrite lookup_insert_eq. eauto.
  - rewrite lookup_insert_ne by exact Hne. exact Hk.
Qed.

Lemma step_keeps_keys (l : label) (c c' : config) (k : Z) :
  step l c = Some c' ->
  is_Some (menuItems (st c) !! k) -> is_Some (menuItems (st c') !! k).
Proof.
  intros Hs Hk. apply step_transition in Hs.
  destruct Hs as [t A a k0 x s' _ _ He | sd rc ps pr ps' pr' m _ _ _ _ _ | | |];
    simpl; try exact Hk.
  eapply exec_keeps_keys; eassumption.
Qed.

(** No entry ever leaves the registry: an identifier that is registered
    stays registered through every execution of the pool.  In particular
    [Remove] only sets the flag of the item and publishes it again. *)
Theorem registry_never_shrinks (ls : list label) (c c' : config) (k : Z) :
  steps ls c = Some c' ->
  is_Some (menuItems (st c) !! k) ->
  is_Some (menuItems (st c') !! k).
Proof.
  revert c. induction ls as [|l ls IH]; intros c Hs Hk; simpl in Hs.
  - injection Hs as <-. exact Hk.
  - destruct (step l c) as [c1|] eqn:E; [|discriminate].
    apply (IH c1 Hs). eapply step_keeps_keys; eassumption.
Qed.

Lemma registry_never_shrinks_witness :
  is_Some (menuItems (st (after (firstn 11 retitling))) !! 1%Z)
  /\ is_Some (menuItems (st (after retitling)) !! 1%Z).
Proof.
  assert (H1 : is_Some (menuItems (st (after (firstn 11 retitling))) !! 1%Z)).
  { exists (Some 0%nat). vm_compute. reflexivity. }
  split; [exact H1|].
  apply (registry_never_shrinks (skipn 11 retitling) (after (firstn 11 retitling)));
    [vm_compute; reflexivity | exact H1].
Defined.

Lemma persists_refl (s : state) : persists s s.
Proof. intros l m H. eauto. Qed.

Lemma persists_trans (s1 s2 s3 : state) :
  persists s1 s2 -> persists s2 s3 -> persists s1 s3.
Proof.
  intros H12 H23 l m H. destruct (H12 l m H) as (m2 & H2 & E2).
  destruct (H23 l m2 H2) as (m3 & H3 & E3). exists m3. split; [exact H3|].
  congruence.
Qed.

Lemma stable_persists (s s' : state) : stable s s' -> persists s s'.
Proof. intros (_ & _ & _ & Hd) l m H. apply (Hd (Some l) m H). Qed.

(** An action allowed by the lock discipline keeps every object and its
    [id]. *)
Lemma exec_persists {A : Type} (a : action A) (t : tid) (s s' : state) (x : A)
    (h h' : held) :
  lock_rule A a h h' -> exec a t s = Ok (x, s') -> persists s s'.
Proof.
  intros Hr He.
  assert (Hn : lock_neutral a -> persists s s').
  { intros Hn. eapply stable_persists, exec_stable; eassumption. }
  destruct a; simpl in Hr; try (apply Hn; exact I);
    try (apply Hn; exact (proj2 (proj2 Hr)));
    simpl in He; repeat case_match; simplify_eq;
    (intros l0 m0 Hl0; exists m0; split; [exact Hl0 | reflexivity]).
Qed.

Lemma step_persists (l : label) (c c' : config) :
  lock_inv c -> step l c = Some c' -> persists (st c) (st c').
Proof.
  intros (Hth & _) Hs. apply step_transition in Hs.
  destruct Hs as [t A a k x s' Ht _ He | sd rc ps pr ps' pr' m _ _ _ _ _ | | |];
    simpl; try (intros l0 m0 Hl0; exists m0; split; [exact Hl0 | reflexivity]).
  destruct (Hth t _ Ht) as (h & (h' & Hr & _) & _).
  eapply exec_persists; eassumption.
Qed.

(** Objects are never freed and their [id] is never modified: through every
    execution of the pool, an object that exists keeps existing with the
    [id] it was created with, whatever mutators run on it. *)
Theorem id_never_changes (ls : list label) (c c' : config) (l : loc) (m : MenuItem) :
  reachable c ->
  steps ls c = Some c' ->
  heap (st c) !! l = Some m ->
  exists m', heap (st c') !! l = Some m' /\ id m' = id m.
Proof.
  intros Hreach Hs. revert l m.
  change (persists (st c) (st c')).
  revert c Hreach Hs. induction ls as [|lb ls IH]; intros c Hreach Hs; simpl in Hs.
  - injection Hs as <-. apply persists_refl.
  - destruct (step lb c) as [c1|] eqn:E; [|discriminate].
    apply (persists_trans _ (st c1)).
    + apply (step_persists lb c c1); [apply reachable_lock_inv; exact Hreach | exact E].
    + apply IH; [eapply reachable_step; eassumption | exact Hs].
Qed.

Lemma id_never_changes_witness :
  exists m', heap (st (after retitling)) !! 0%nat = Some m'
             /\ id m' = 1%Z /\ title m' = "Close".
Proof.
  destruct (id_never_changes (skipn 11 retitling) (after (firstn 11 retitling))
              (after retitling) 0%nat
              (mkMenuItem 1%Z "Open" "Open window" false false false false)
              (after_reachable _) ltac:(vm_compute; reflexivity)
              ltac:(vm_compute; reflexivity)) as (m' & Hm' & Hid).
  exists m'. split; [exact Hm'|]. split; [exact Hid|].
  assert (H : heap (st (after retitling)) !! 0%nat
              = Some (mkMenuItem 1%Z "Close" "Open window" false false false false))
    by (vm_compute; reflexivity).
  rewrite H in Hm'. injection Hm' as <-. reflexivity.
Defined.

Lemma exec_keyed {A : Type} (a : action A) (t : tid) (s s' : state) (x : A)
    (h h' : held) :
  lock_rule A a h h' -> exec a t s = Ok (x, s') -> keyed s -> keyed s'.
Proof.
  intros Hr He Hk.
  pose proof (exec_persists a t s s' x h h' Hr He) as Hp.
  assert (Hsame : menuItems s' = menuItems s -> keyed s').
  { intros Hm k p Hkp. rewrite Hm in Hkp.
    destruct (Hk k p Hkp) as (l & m & -> & Hl & Hid).
    destruct (Hp l m Hl) as (m' & Hl' & Hid'). exists l, m'.
    split; [reflexivity|]. split; [exact Hl'|]. congruence. }
  destruct a; simpl in He; repeat case_match; simplify_eq;
    try (apply Hsame; reflexivity).
  intros k p Hkp. simpl in Hkp.
  destruct (decide (id m = k)) as [<- | Hne].
  - rewrite lookup_insert_eq in Hkp. injection Hkp as <-.
    destruct item as [l|]; [|discriminate]. exists l, m. auto.
  - rewrite lookup_insert_ne in Hkp by exact Hne. apply (Hk k p Hkp).
Qed.

Lemma reachable_keyed (c : config) : reachable c -> keyed (st c).
Proof.
  intros Hreach.
  apply (reachable_invariant (fun c => reachable c /\ keyed (st c))); [| |exact Hreach].
  - split; [exists []; reflexivity|]. intros k p H. simpl in H.
    rewrite lookup_empty in H. discriminate.
  - intros l c0 c' [Hr0 Hk0] Hs. split; [eapply reachable_step; eassumption|].
    destruct (reachable_lock_inv c0 Hr0) as (Hth & _).
    apply step_transition in Hs.
    destruct Hs as [t A a k x s' Ht _ He | sd rc ps pr ps' pr' m _ _ _ _ _ | | |];
      simpl; try exact Hk0.
    destruct (Hth t _ Ht) as (h & (h' & Hrule & _) & _).
    eapply exec_keyed; eassumption.
Qed.

(** The registry is keyed by the items' own identifiers: in every state the
    process can reach, an entry of the registry is never [nil] and denotes
    an allocated object whose [id] is the key it is stored under. *)
Theorem registry_keyed_by_id (c : config) (k : Z) (p : ptr) :
  reachable c ->
  menuItems (st c) !! k = Some p ->
  exists l m, p = Some l /\ heap (st c) !! l = Some m /\ id m = k.
Proof. intros Hreach. apply (reachable_keyed c Hreach). Qed.

Lemma registry_keyed_by_id_witness :
  exists l m, Some 0%nat = Some l
              /\ heap (st (after retitling)) !! l = Some m /\ id m = 1%Z.
Proof.
  exact (registry_keyed_by_id (after retitling) 1%Z (Some 0%nat) (after_reachable _)
           ltac:(vm_compute; reflexivity)).
Defined.

(** ** Who holds the lock *)

Lemma in_update_writer (c : config) (t : tid) (p : prog unit) :
  lock_inv c -> threads c !! t = Some p -> in_update p ->
  writer (menuItemsLock (st c)) = Some t.
Proof.
  intros (Hth & _) Ht Hin. destruct (Hth t p Ht) as (h & Hd & Hh).
  destruct p as [r | A a k]; [contradiction|].
  destruct Hd as (h' & Hr & _).
  destruct a; simpl in Hin; try contradiction; destruct Hr as [-> _]; apply Hh.
Qed.

Lemma writer_in_update (c : config) (w : tid) :
  lock_inv c -> writer (menuItemsLock (st c)) = Some w ->
  exists p, threads c !! w = Some p /\ in_update p.
Proof.
  intros (Hth & Hw & _) Hwr. destruct (Hw w Hwr) as [Hre Hlt].
  destruct (lookup_lt_is_Some_2 _ _ Hlt) as [p Hp]. exists p. split; [exact Hp|].
  destruct (Hth w p Hp) as (h & Hd & Hh).
  destruct p as [r | A a k].
  - unfold disciplined in Hd. simpl in Hd. subst h. destruct Hh as [Hne _].
    congruence.
  - destruct Hd as (h' & Hr & _).
    destruct a; simpl in Hr; simpl; try exact I; exfalso;
      try (destruct Hr as [-> _]; simpl in Hh; first
             [ destruct Hh as [Hne _]; congruence
             | rewrite Hre in Hh; inversion Hh ]).
Qed.

(** The critical sections of [update] exclude each other: in every state
    the process can reach, at most one goroutine is between [Lock] and
    [Unlock], so the calls of [addOrUpdateMenuItem] are serialized, each
    directly after the registry write of the same call. *)
Theorem update_sections_exclusive (c : config) (t1 t2 : tid) (p1 p2 : prog unit) :
  reachable c ->
  threads c !! t1 = Some p1 -> in_update p1 ->
  threads c !! t2 = Some p2 -> in_update p2 ->
  t1 = t2.
Proof.
  intros Hreach H1 I1 H2 I2. pose proof (reachable_lock_inv c Hreach) as Hinv.
  pose proof (in_update_writer c t1 p1 Hinv H1 I1) as W1.
  pose proof (in_update_writer c t2 p2 Hinv H2 I2) as W2. congruence.
Qed.

Lemma update_sections_exclusive_witness :
  in_update (Bind (addOrUpdateMenuItem (Some 0%nat) None)
               (fun _ => act Unlock ;; Ret tt))
  /\ writer (menuItemsLock (st (after (firstn 9 retitling)))) = Some 3%nat
  /\ 3%nat = 3%nat.
Proof.
  split; [exact I|]. split; [vm_compute; reflexivity|].
  exact (update_sections_exclusive (after (firstn 9 retitling)) 3%nat 3%nat
           (Bind (addOrUpdateMenuItem (Some 0%nat) None) (fun _ => act Unlock ;; Ret tt))
           (Bind (addOrUpdateMenuItem (Some 0%nat) None) (fun _ => act Unlock ;; Ret tt))
           (after_reachable _) eq_refl I eq_refl I).
Defined.

Lemma unlock_step (c : config) (t : tid) (k : unit -> prog unit) :
  lock_inv c -> queue_inv c ->
  threads c !! t = Some (Bind Unlock k) ->
  writer (menuItemsLock (st c)) = Some t
  /\ step (Tau t) c
     = Some (mkConfig (with_lock (mkRWMutex None [] None) (st c))
               (<[t := k tt]> (threads c))).
Proof.
  intros Hinv [_ Hq] Ht. pose proof Hinv as (Hth & Hw & _).
  pose proof (in_update_writer c t _ Hinv Ht I) as Hwr.
  split; [exact Hwr|]. destruct (Hw t Hwr) as [Hre _].
  eapply step_tau; [exact Ht | reflexivity | | reflexivity].
  simpl. rewrite Hwr, Hre, (Hq t Hwr). reflexivity.
Qed.

Lemma runlock_step (c : config) (t : tid) (k : unit -> prog unit) :
  lock_inv c ->
  threads c !! t = Some (Bind RUnlock k) ->
  t ∈ readers (menuItemsLock (st c))
  /\ step (Tau t) c
     = Some (mkConfig
               (with_lock (mkRWMutex None (release t (readers (menuItemsLock (st c))))
                             (waiting (menuItemsLock (st c))))
                  (st c))
               (<[t := k tt]> (threads c))).
Proof.
  intros Hinv Ht. pose proof Hinv as (Hth & Hw & _).
  destruct (Hth t _ Ht) as (h & (h' & [-> _] & _) & Hh). simpl in Hh.
  split; [exact Hh|].
  assert (Hnw : writer (menuItemsLock (st c)) = None).
  { destruct (writer (menuItemsLock (st c))) as [w|] eqn:E; [|reflexivity].
    destruct (Hw w eq_refl) as [Hre _]. rewrite Hre in Hh. inversion Hh. }
  eapply step_tau; [exact Ht | reflexivity | | reflexivity].
  cbn [exec]. rewrite Hnw.
  destruct (readers (menuItemsLock (st c))) eqn:E; [inversion Hh | reflexivity].
Qed.

(** The package never unlocks a mutex it does not hold: in every state the
    process can reach, a goroutine at the deferred [Unlock] of [update] or
    at the [RUnlock] of the click handler holds the lock, and its unlock
    step is enabled. *)
Theorem unlock_never_fatal (c : config) (t : tid) (k : unit -> prog unit) :
  reachable c ->
  (threads c !! t = Some (Bind Unlock k) ->
     writer (menuItemsLock (st c)) = Some t
     /\ step (Tau t) c
        = Some (mkConfig (with_lock (mkRWMutex None [] None) (st c))
                  (<[t := k tt]> (threads c))))
  /\ (threads c !! t = Some (Bind RUnlock k) ->
       t ∈ readers (menuItemsLock (st c))
       /\ step (Tau t) c
          = Some (mkConfig
                    (with_lock (mkRWMutex None (release t (readers (menuItemsLock (st c))))
                             (waiting (menuItemsLock (st c))))
                       (st c))
                    (<[t := k tt]> (threads c)))).
Proof.
  intros Hreach. pose proof (reachable_lock_inv c Hreach) as Hinv.
  pose proof (reachable_queue_inv c Hreach) as Hq.
  split; intros Ht; [apply unlock_step | apply runlock_step]; assumption.
Qed.

Lemma unlock_never_fatal_witness :
  writer (menuItemsLock (st (after (firstn 10 retitling)))) = Some 3%nat
  /\ exists c', step (Tau 3) (after (firstn 10 retitling)) = Some c'.
Proof.
  destruct (unlock_never_fatal (after (firstn 10 retitling)) 3%nat
              (fun x => Ret (Some 0%nat) ;; Ret tt) (after_reachable _))
    as [Hu _].
  destruct (Hu ltac:(vm_compute; reflexivity)) as [Hw Hs].
  split; [exact Hw | eexists; exact Hs].
Defined.

(** No lock is held across a channel operation, inside the native loop or
    across the call of [onReady]: in every state the process can reach, a
    goroutine that is at the send or the receive of a click or of the ready
    signal, inside the native loop, or about to call [onReady] holds
    [menuItemsLock] neither for writing nor for reading; a listener that is
    slow or absent never keeps the registry locked.  The one call out of
    the package that is made with the lock held is [addOrUpdateMenuItem]
    (line 145): the goroutine making it holds the write lock. *)
Theorem no_lock_at_rendezvous (c : config) (t : tid) (p : prog unit) :
  reachable c ->
  threads c !! t = Some p ->
  (at_rendezvous p ->
     writer (menuItemsLock (st c)) <> Some t /\ t ∉ readers (menuItemsLock (st c)))
  /\ (forall item before k, p = Bind (addOrUpdateMenuItem item before) k ->
        writer (menuItemsLock (st c)) = Some t
        /\ readers (menuItemsLock (st c)) = []).
Proof.
  intros Hreach Ht. pose proof (reachable_lock_inv c Hreach) as Hinv.
  destruct Hinv as (Hth & Hw & _).
  destruct (Hth t p Ht) as (h & Hd & Hh). split.
  - intros Hat. destruct p as [r | A a k]; [contradiction|].
    destruct Hd as (h' & Hr & _).
    destruct a; simpl in Hat; try contradiction; destruct Hr as [-> _]; exact Hh.
  - intros item before k ->. destruct Hd as (h' & [-> _] & _).
    destruct Hh as [Hwt _]. split; [exact Hwt | apply (Hw t Hwt)].
Qed.

Lemma no_lock_at_rendezvous_witness :
  writer (menuItemsLock (st (after (clicking 7 ++ [Tau 1; Tau 1; Tau 1])))) <> Some 1%nat
  /\ 1%nat ∉ readers (menuItemsLock (st (after (clicking 7 ++ [Tau 1; Tau 1; Tau 1])))).
Proof.
  exact (proj1 (no_lock_at_rendezvous (after (clicking 7 ++ [Tau 1; Tau 1; Tau 1])) 1%nat
                  (Bind (SelectSendClicked None) (fun _ => Bind nativeLoop Ret))
                  (after_reachable _) eq_refl) I).
Defined.

(** A goroutine that holds the read lock never waits: in every state the
    process can reach, a reader is the click handler at the map read of
    line 154 or at the [RUnlock] of line 155, and its next step is
    enabled. *)
Theorem reader_always_proceeds (c : config) (t : tid) :
  reachable c ->
  t ∈ readers (menuItemsLock (st c)) ->
  exists p c', threads c !! t = Some p
               /\ ((exists i k, p = Bind (MapGet i) k)
                   \/ (exists k, p = Bind RUnlock k))
               /\ step (Tau t) c = Some c'.
Proof.
  intros Hreach Hin. pose proof (reachable_lock_inv c Hreach) as Hinv.
  pose proof Hinv as (Hth & Hw & Hr & _).
  destruct (lookup_lt_is_Some_2 _ _ (Hr t Hin)) as [p Hp].
  destruct (Hth t p Hp) as (h & Hd & Hh).
  assert (Hnw : writer (menuItemsLock (st c)) = None).
  { destruct (writer (menuItemsLock (st c))) as [w|] eqn:E; [|reflexivity].
    destruct (Hw w eq_refl) as [Hre _]. rewrite Hre in Hin. inversion Hin. }
  destruct p as [r | A a k].
  - unfold disciplined in Hd. simpl in Hd. subst h. destruct Hh as [_ Hn].
    contradiction.
  - pose proof Hd as (h' & Hrule & _).
    destruct a; simpl in Hrule;
      try (destruct Hrule as [-> _]; simpl in Hh; exfalso;
           first [ destruct Hh as [_ Hn]; contradiction
                 | destruct Hh as [Hwt _]; congruence ]).
    + (* RUnlock *)
      destruct (runlock_step c t k Hinv Hp) as [_ Hc'].
      exists (Bind RUnlock k). eexists. split; [exact Hp|].
      split; [eauto | exact Hc'].
    + (* MapGet *)
      exists (Bind (MapGet k0) k). eexists. split; [exact Hp|].
      split; [eauto|]. eapply step_tau; [exact Hp | reflexivity | | reflexivity].
      reflexivity.
Qed.

Lemma reader_always_proceeds_witness :
  exists p c', threads (after (clicking 7 ++ [Tau 1])) !! 1%nat = Some p
               /\ ((exists i k, p = Bind (MapGet i) k)
                   \/ (exists k, p = Bind RUnlock k))
               /\ step (Tau 1) (after (clicking 7 ++ [Tau 1])) = Some c'.
Proof.
  apply (reader_always_proceeds (after (clicking 7 ++ [Tau 1])) 1%nat
           (after_reachable _)).
  vm_compute. apply elem_of_cons. left. reflexivity.
Defined.

(** ** Clicks *)

Lemma dispatch_resolves (c : config) (t : tid) (i : Z) (k : prog unit)
    (rs : list tid) :
  threads c !! t = Some (systrayMenuItemSelected i ;; k) ->
  menuItemsLock (st c) = mkRWMutex None rs None ->
  steps [Tau t; Tau t; Tau t] c
  = Some (mkConfig (st c)
            (<[t := Bind (SelectSendClicked (default None (menuItems (st c) !! i)))
                      (fun _ => k)]> (threads c))).
Proof.
  intros Ht Hlock.
  assert (Hlt : (t < length (threads c))%nat) by (eapply lookup_lt_Some; eauto).
  unfold steps.
  erewrite step_tau; [| exact Ht | reflexivity | simpl; rewrite Hlock; reflexivity
                      | reflexivity].
  erewrite step_tau; [| simpl; apply list_lookup_insert_eq; exact Hlt | reflexivity
                      | simpl; reflexivity | reflexivity].
  erewrite step_tau; [| simpl; apply list_lookup_insert_eq;
                        rewrite length_insert; exact Hlt
                      | reflexivity
                      | simpl; reflexivity | reflexivity].
  simpl. rewrite release_head, !list_insert_insert_eq.
  do 2 f_equal. destruct (st c); simpl in *. subst. reflexivity.
Qed.


Lemma rlock_step (c : config) (t : tid) (k : unit -> prog unit) :
  threads c !! t = Some (Bind RLock k) ->
  writer (menuItemsLock (st c)) = None ->
  waiting (menuItemsLock (st c)) = None ->
  step (Tau t) c
  = Some (mkConfig
            (with_lock (mkRWMutex None (t :: readers (menuItemsLock (st c))) None)
               (st c))
            (<[t := k tt]> (threads c))).
Proof.
  intros Ht Hw Hq. eapply step_tau; [exact Ht | reflexivity | | reflexivity].
  simpl. rewrite Hw, Hq. reflexivity.
Qed.

Lemma rlock_blocked_by (c : config) (t : tid) (k : unit -> prog unit) :
  lock_inv c -> queue_inv c ->
  threads c !! t = Some (Bind RLock k) ->
  step (Tau t) c = None ->
  exists w p,
    w <> t /\ threads c !! w = Some p
    /\ (writer (menuItemsLock (st c)) = Some w /\ in_update p
        \/ waiting (menuItemsLock (st c)) = Some w /\ at_Lock p = true).
Proof.
  intros Hinv [Hq _] Ht Hs.
  destruct (writer (menuItemsLock (st c))) as [w|] eqn:Ew.
  - destruct (writer_in_update c w Hinv Ew) as (p & Hp & Hin).
    exists w, p. split; [|split; [exact Hp | left; auto]].
    intros ->. rewrite Ht in Hp. injection Hp as <-. exact Hin.
  - destruct (waiting (menuItemsLock (st c))) as [w|] eqn:Eq.
    + destruct (Hq w eq_refl) as (p & Hp & Hat).
      exists w, p. split; [|split; [exact Hp | right; auto]].
      intros ->. rewrite Ht in Hp. injection Hp as <-. discriminate.
    + rewrite (rlock_step c t k Ht Ew Eq) in Hs. discriminate.
Qed.

(** While a writer holds the lock, a goroutine at [RLock] stays there
    through every step of the pool, and the writer keeps the lock until it
    moves itself. *)
Lemma rlock_waits (c c' : config) (t w : tid) (k : unit -> prog unit) (l : label) :
  lock_inv c ->
  threads c !! t = Some (Bind RLock k) ->
  writer (menuItemsLock (st c)) = Some w ->
  step l c = Some c' ->
  threads c' !! t = Some (Bind RLock k)
  /\ (writer (menuItemsLock (st c')) = Some w \/ l = Tau w).
Proof.
  intros Hinv Ht Hw Hs.
  assert (Hlt : (t < length (threads c))%nat) by (eapply lookup_lt_Some; eauto).
  destruct l as [t0 | sd rc | cl | t0 cb | t0].
  - destruct (decide (t0 = t)) as [-> | Hne].
    { simpl in Hs. rewrite Ht in Hs. simpl in Hs. rewrite Hw in Hs. discriminate. }
    apply step_tau_inv in Hs as (A & a & k0 & x & s' & Ht0 & He & ->).
    split; [apply lookup_moved_other; [congruence | exact Ht]|]. simpl.
    destruct (exec_queue a k0 t0 (st c) s' x He)
      as [(Hat & _ & _) | (Hat & _ & _)].
    + exfalso. destruct a; simpl in Hat; try discriminate.
      simpl in He. rewrite Hw in He. discriminate.
    + destruct (decide (t0 = w)) as [-> | Hnw]; [right; reflexivity|]. left.
      destruct a; simpl in He; repeat case_match; simplify_eq; simpl;
        try assumption.
      exfalso. apply Hnw.
      pose proof (in_update_writer c t0 _ Hinv Ht0 I) as Hw0. congruence.
  - simpl in Hs.
    destruct (threads c !! sd) as [ps|] eqn:Hsd; [|discriminate].
    destruct (threads c !! rc) as [pr|] eqn:Hrc; [|discriminate].
    destruct (offers ps) as [[m ps']|] eqn:Hoff; [|discriminate].
    destruct (accepts m pr) as [pr'|] eqn:Hacc; [|discriminate].
    destruct (idle m (st c)); [|discriminate]. injection Hs as <-.
    assert (Hs' : sd <> t).
    { intros ->. rewrite Ht in Hsd. injection Hsd as <-. discriminate. }
    assert (Hr' : rc <> t).
    { intros ->. rewrite Ht in Hrc. injection Hrc as <-. destruct m; discriminate. }
    split; [|left; exact Hw]. simpl.
    rewrite !list_lookup_insert_ne by congruence. exact Ht.
  - simpl in Hs. injection Hs as <-. split; [|left; exact Hw].
    simpl. apply lookup_app_l_Some. exact Ht.
  - simpl in Hs. destruct (threads c !! t0) as [p|] eqn:Hp; [|discriminate].
    destruct (in_nativeLoop p) eqn:Hn; [|discriminate]. injection Hs as <-.
    split; [|left; exact Hw]. simpl.
    rewrite list_lookup_insert_ne; [exact Ht|].
    intros ->. rewrite Ht in Hp. injection Hp as <-. discriminate.
  - simpl in Hs. destruct (threads c !! t0) as [p|]; [|discriminate].
    rewrite Hw in Hs. discriminate.
Qed.

Lemma rlock_waits_steps (ls : list label) :
  forall (c c' : config) (t w : tid) (k : unit -> prog unit),
    reachable c ->
    threads c !! t = Some (Bind RLock k) ->
    writer (menuItemsLock (st c)) = Some w ->
    steps ls c = Some c' ->
    Tau w ∉ ls ->
    threads c' !! t = Some (Bind RLock k)
    /\ writer (menuItemsLock (st c')) = Some w
    /\ step (Tau t) c' = None.
Proof.
  induction ls as [|l ls IH]; intros c c' t w k Hreach Ht Hw Hs Hno.
  - simpl in Hs. injection Hs as <-. split; [exact Ht|]. split; [exact Hw|].
    simpl. rewrite Ht. simpl. rewrite Hw. reflexivity.
  - simpl in Hs. destruct (step l c) as [c1|] eqn:E; [|discriminate].
    destruct (rlock_waits c c1 t w k l (reachable_lock_inv c Hreach) Ht Hw E)
      as [Ht1 [Hw1 | ->]].
    + apply (IH c1 c' t w k); try assumption.
      * eapply reachable_step; eassumption.
      * intros Hin. apply Hno. apply elem_of_cons. right. exact Hin.
    + exfalso. apply Hno. apply elem_of_cons. left. reflexivity.
Qed.

(** C1, as the code has it: a click whose identifier is not in the registry
    is resolved to [nil], and the dispatcher makes the same non-blocking
    send with it.  When no writer holds the lock or waits for it, the
    handler looks the identifier up at once; a listener waiting on the
    channel then receives [nil], and with no listener waiting nothing is
    delivered.  The registry and the rest of the state are as before the
    click. *)
Theorem C1_miss_sends_nil (c : config) (t : tid) (i : Z) (k : prog unit) :
  reachable c ->
  threads c !! t = Some (systrayMenuItemSelected i ;; k) ->
  menuItems (st c) !! i = None ->
  writer (menuItemsLock (st c)) = None ->
  waiting (menuItemsLock (st c)) = None ->
  exists c3,
    steps [Tau t; Tau t; Tau t] c = Some c3
    /\ st c3 = st c
    /\ threads c3 = <[t := Bind (SelectSendClicked None) (fun _ => k)]> (threads c)
    /\ (listening (Click None) (threads c3) = false ->
        step (Tau t) c3 = Some (mkConfig (st c) (<[t := k]> (threads c))))
    /\ (forall r k', threads c3 !! r = Some (Bind RecvClicked k') ->
        step (Handoff t r) c3
        = Some (mkConfig (record (Delivered t r None) (st c))
                  (<[r := k' None]> (<[t := k]> (threads c))))).
Proof.
  intros Hreach Ht Hmiss Hw Hq.
  assert (Hlt : (t < length (threads c))%nat) by (eapply lookup_lt_Some; eauto).
  destruct (menuItemsLock (st c)) as [w rs q] eqn:Hlock. simpl in Hw, Hq. subst w q.
  pose proof (dispatch_resolves c t i k rs Ht Hlock) as H3.
  rewrite Hmiss in H3. simpl in H3.
  set (c3 := mkConfig (st c)
               (<[t := Bind (SelectSendClicked None) (fun _ => k)]> (threads c))) in *.
  assert (Hu3 : unbuffered (st c3)) by (apply (reachable_unbuffered c Hreach)).
  assert (Ht3 : threads c3 !! t = Some (Bind (SelectSendClicked None) (fun _ => k))).
  { simpl. apply list_lookup_insert_eq. exact Hlt. }
  pose proof (select_default c3 t None (fun _ => k) Hu3 Ht3) as Hdrop.
  pose proof (fun r k' => select_handoff c3 t r None (fun _ => k) k' Hu3 Ht3) as Hhand.
  exists c3. split; [exact H3|]. split; [reflexivity|]. split; [reflexivity|].
  split.
  - intros Hl. rewrite (Hdrop Hl). simpl. rewrite list_insert_insert_eq. reflexivity.
  - intros r k' Hr. rewrite (Hhand r k' Hr). simpl.
    rewrite list_insert_insert_eq. reflexivity.
Qed.

Lemma C1_miss_sends_nil_witness :
  exists c3,
    steps [Tau 1; Tau 1; Tau 1] (after (clicking 7)) = Some c3
    /\ st c3 = st (after (clicking 7))
    /\ forall r k', threads c3 !! r = Some (Bind RecvClicked k') ->
        step (Handoff 1 r) c3
        = Some (mkConfig (record (Delivered 1 r None) (st (after (clicking 7))))
                  (<[r := k' None]>
                     (<[1%nat := Bind nativeLoop Ret]> (threads (after (clicking 7)))))).
Proof.
  destruct (C1_miss_sends_nil (after (clicking 7)) 1%nat 7%Z (Bind nativeLoop Ret)
              (after_reachable _) eq_refl eq_refl eq_refl eq_refl)
    as (c3 & H3 & Hst & _ & _ & Hhand).
  exists c3. split; [exact H3|]. split; [exact Hst|]. exact Hhand.
Defined.

(** C1 as stated fails: identifier 7 was never registered, a listener is
    waiting on [ClickedCh], and the click on 7 hands it a value, [nil]; the
    listener has received and gone on. *)
Lemma C1_counterexample :
  exists c,
    steps (clicking 7 ++ [Tau 1; Tau 1; Tau 1; Handoff 1 0]) init = Some c
    /\ menuItems (st c) !! 7%Z = None
    /\ trace (st c) = [Delivered 1 0 None; Spawned 1; Pinned 1]
    /\ threads c !! 0%nat = Some (Ret tt).
Proof. eexists. split; [reflexivity|]. repeat split. Qed.

(** C5, as the code has it, line by line of [systrayMenuItemSelected], in
    every state the process can reach.  At the [RLock] of line 153 the
    handler goes on when no writer holds the lock or waits for it, and
    when it cannot go on, another goroutine holds the lock inside [update]
    or has announced itself at the [Lock] of [update]: here the call can
    wait.  At the lookup of line 154 and the [RUnlock] of line 155 it
    always goes on.  At the [select] of lines 156-160 it always goes on:
    [ClickedCh] has capacity 0 and holds nothing; with no listener waiting
    it takes [default] at once, leaving the whole state as it was (the
    click is dropped, not queued), and the call returns; with a listener
    waiting it hands the item to exactly that listener and returns. *)
Theorem C5_send_never_blocks_lock_may (c : config) (t : tid) (i : Z) (k : prog unit) :
  reachable c ->
  (threads c !! t = Some (systrayMenuItemSelected i ;; k) ->
     (writer (menuItemsLock (st c)) = None ->
      waiting (menuItemsLock (st c)) = None ->
      step (Tau t) c
      = Some (mkConfig
                (with_lock (mkRWMutex None (t :: readers (menuItemsLock (st c))) None)
                   (st c))
                (<[t := selected_lookup i ;; k]> (threads c))))
     /\ (step (Tau t) c = None ->
         exists w p,
           w <> t /\ threads c !! w = Some p
           /\ (writer (menuItemsLock (st c)) = Some w /\ in_update p
               \/ waiting (menuItemsLock (st c)) = Some w /\ at_Lock p = true)))
  /\ (threads c !! t = Some (selected_lookup i ;; k) ->
        step (Tau t) c
        = Some (mkConfig (st c)
                  (<[t := selected_unlock (default None (menuItems (st c) !! i)) ;; k]>
                     (threads c))))
  /\ (forall item, threads c !! t = Some (selected_unlock item ;; k) ->
        step (Tau t) c
        = Some (mkConfig
                  (with_lock
                     (mkRWMutex None (release t (readers (menuItemsLock (st c))))
                        (waiting (menuItemsLock (st c))))
                     (st c))
                  (<[t := selected_send item ;; k]> (threads c))))
  /\ (forall item, threads c !! t = Some (selected_send item ;; k) ->
        ClickedCh (st c) = make_chan 0
        /\ (listening (Click item) (threads c) = false ->
            step (Tau t) c = Some (mkConfig (st c) (<[t := k]> (threads c))))
        /\ (forall r k', threads c !! r = Some (Bind RecvClicked k') ->
            step (Handoff t r) c
            = Some (mkConfig (record (Delivered t r item) (st c))
                      (<[r := k' item]> (<[t := k]> (threads c)))))
        /\ (exists l c', step l c = Some c'
                         /\ (l = Tau t \/ exists r, l = Handoff t r))).
Proof.
  intros Hreach.
  pose proof (reachable_lock_inv c Hreach) as Hinv.
  pose proof (reachable_queue_inv c Hreach) as Hqi.
  pose proof (reachable_unbuffered c Hreach) as Hu.
  split; [|split; [|split]].
  - intros Ht. split.
    + intros Hw Hq. exact (rlock_step c t (fun _ => selected_lookup i ;; k) Ht Hw Hq).
    + exact (rlock_blocked_by c t (fun _ => selected_lookup i ;; k) Hinv Hqi Ht).
  - intros Ht.
    exact (step_tau c t (MapGet i) (fun item => selected_unlock item ;; k)
             (default None (menuItems (st c) !! i)) (st c) Ht eq_refl eq_refl eq_refl).
  - intros item Ht.
    exact (proj2 (runlock_step c t (fun _ => selected_send item ;; k) Hinv Ht)).
  - intros item Ht.
    pose proof (select_default c t item (fun _ => k) Hu Ht) as Hdrop.
    pose proof (fun r k' => select_handoff c t r item (fun _ => k) k' Hu Ht) as Hhand.
    split; [apply Hu|]. split; [exact Hdrop|]. split; [exact Hhand|].
    destruct (listening (Click item) (threads c)) eqn:Hl.
    + apply listening_lookup in Hl as (r & p & p' & Hr & Hp).
      apply accepts_inv in Hp as [(it & k' & -> & _ & _) | (k' & _ & Hm & _)];
        [|discriminate].
      do 2 eexists. split; [apply (Hhand r k' Hr)|]. right. eauto.
    + do 2 eexists. split; [apply Hdrop; reflexivity|]. left. reflexivity.
Qed.

Lemma C5_send_never_blocks_lock_may_witness :
  (exists w p,
     w <> 2%nat /\ threads (after click_behind_writer) !! w = Some p
     /\ (writer (menuItemsLock (st (after click_behind_writer))) = Some w /\ in_update p
         \/ waiting (menuItemsLock (st (after click_behind_writer))) = Some w
            /\ at_Lock p = true))
  /\ (exists l c', step l (after (clicking 7 ++ [Tau 1; Tau 1; Tau 1])) = Some c'
                   /\ (l = Tau 1%nat \/ exists r, l = Handoff 1 r)).
Proof.
  split.
  - destruct (C5_send_never_blocks_lock_may (after click_behind_writer) 2%nat 1%Z
                (Bind nativeLoop Ret) (after_reachable _)) as ([_ Hwait] & _).
    + vm_compute. reflexivity.
    + apply Hwait. vm_compute. reflexivity.
  - destruct (C5_send_never_blocks_lock_may (after (clicking 7 ++ [Tau 1; Tau 1; Tau 1]))
                1%nat 7%Z (Bind nativeLoop Ret) (after_reachable _))
      as (_ & _ & _ & Hsel).
    destruct (Hsel None ltac:(vm_compute; reflexivity)) as (_ & _ & _ & Hmove).
    exact Hmove.
Defined.

(** C5 as stated fails: [Run] is under way on goroutine 0, which has
    pinned itself to its thread; goroutine 2 is inside [AddMenuItem], at its
    call of the backend, and holds the lock; nobody listens on [ClickedCh].
    The backend reports a click: the handler cannot take its first step,
    the [RLock] of line 153, and it stays there whatever the other
    goroutines do, for as long as goroutine 2 has not moved. *)
Lemma C5_counterexample :
  exists c k,
    steps click_during_update init = Some c
    /\ (Pinned 0 ∈ trace (st c))
    /\ threads c !! 0%nat = Some (systrayMenuItemSelected 1 ;; Bind nativeLoop Ret)
    /\ threads c !! 2%nat = Some (Bind (addOrUpdateMenuItem (Some 0%nat) None) k)
    /\ writer (menuItemsLock (st c)) = Some 2%nat
    /\ (forall item, listening (Click item) (threads c) = false)
    /\ step (Tau 0) c = None
    /\ (forall ls c', steps ls c = Some c' -> Tau 2 ∉ ls ->
          threads c' !! 0%nat = Some (systrayMenuItemSelected 1 ;; Bind nativeLoop Ret)
          /\ writer (menuItemsLock (st c')) = Some 2%nat
          /\ step (Tau 0) c' = None).
Proof.
  do 2 eexists. split; [vm_compute; reflexivity|].
  split; [vm_compute; repeat constructor|].
  split; [reflexivity|]. split; [reflexivity|]. split; [reflexivity|].
  split; [intros item; reflexivity|]. split; [reflexivity|].
  intros ls c' Hs Hno.
  match type of Hs with steps ls ?c0 = _ => set (c := c0) in * end.
  assert (Hreach : reachable c).
  { exists click_during_update. vm_compute. reflexivity. }
  exact (rlock_waits_steps ls c c' 0%nat 2%nat
           (fun _ => selected_lookup 1 ;; Bind nativeLoop Ret)
           Hreach eq_refl eq_refl Hs Hno).
Qed.

(** A click on a registered identifier: once no writer holds the lock or
    waits for it, the handler resolves the identifier in three steps of its
    own, leaving the state as it was, to the registered item, which is an
    allocated object with that very [id]; a waiting listener is handed
    exactly this item, and with no listener waiting the click is dropped
    and the handler returns. *)
Theorem click_delivers_registered (c : config) (t : tid) (i : Z) (k : prog unit)
    (p : ptr) :
  reachable c ->
  threads c !! t = Some (systrayMenuItemSelected i ;; k) ->
  menuItems (st c) !! i = Some p ->
  writer (menuItemsLock (st c)) = None ->
  waiting (menuItemsLock (st c)) = None ->
  exists c3 l m,
    steps [Tau t; Tau t; Tau t] c = Some c3
    /\ st c3 = st c
    /\ p = Some l /\ heap (st c) !! l = Some m /\ id m = i
    /\ (forall r k', threads c3 !! r = Some (Bind RecvClicked k') ->
        step (Handoff t r) c3
        = Some (mkConfig (record (Delivered t r (Some l)) (st c))
                  (<[r := k' (Some l)]> (<[t := k]> (threads c)))))
    /\ (listening (Click (Some l)) (threads c3) = false ->
        step (Tau t) c3 = Some (mkConfig (st c) (<[t := k]> (threads c)))).
Proof.
  intros Hreach Ht Hreg Hw Hq.
  assert (Hlt : (t < length (threads c))%nat) by (eapply lookup_lt_Some; eauto).
  destruct (reachable_keyed c Hreach i p Hreg) as (l & m & -> & Hl & Hid).
  destruct (menuItemsLock (st c)) as [w rs q] eqn:Hlock. simpl in Hw, Hq. subst w q.
  pose proof (dispatch_resolves c t i k rs Ht Hlock) as H3.
  rewrite Hreg in H3. simpl in H3.
  set (c3 := mkConfig (st c)
               (<[t := Bind (SelectSendClicked (Some l)) (fun _ => k)]> (threads c)))
    in *.
  assert (Hu3 : unbuffered (st c3)) by (apply (reachable_unbuffered c Hreach)).
  assert (Ht3 : threads c3 !! t = Some (Bind (SelectSendClicked (Some l)) (fun _ => k))).
  { simpl. apply list_lookup_insert_eq. exact Hlt. }
  exists c3, l, m. split; [exact H3|]. split; [reflexivity|].
  split; [reflexivity|]. split; [exact Hl|]. split; [exact Hid|]. split.
  - intros r k' Hr.
    rewrite (select_handoff c3 t r (Some l) (fun _ => k) k' Hu3 Ht3 Hr). simpl.
    rewrite list_insert_insert_eq. reflexivity.
  - intros Hno. rewrite (select_default c3 t (Some l) (fun _ => k) Hu3 Ht3 Hno).
    simpl. rewrite list_insert_insert_eq. reflexivity.
Qed.

Lemma click_delivers_registered_witness :
  exists c3 l m,
    steps [Tau 1; Tau 1; Tau 1] (after (firstn 14 retitling)) = Some c3
    /\ st c3 = st (after (firstn 14 retitling))
    /\ Some 0%nat = Some l
    /\ heap (st (after (firstn 14 retitling))) !! l = Some m /\ id m = 1%Z.
Proof.
  destruct (click_delivers_registered (after (firstn 14 retitling)) 1%nat 1%Z
              (Bind nativeLoop Ret) (Some 0%nat) (after_reachable _)
              ltac:(vm_compute; reflexivity) ltac:(vm_compute; reflexivity)
              ltac:(vm_compute; reflexivity) ltac:(vm_compute; reflexivity))
    as (c3 & l & m & H3 & Hst & Hp & Hl & Hid & _).
  exists c3, l, m. repeat split; assumption.
Defined.

(** A click waits at the [RLock] of line 153 only for [update]: when the
    handler cannot go on, another goroutine holds the lock inside the
    critical section of [update], or has announced itself at the [Lock] of
    [update] and waits for the readers inside to leave.  While a writer
    holds the lock the handler cannot go on, and it stays at line 153, the
    lock with that writer, through every execution of the pool in which the
    writer itself does not move. *)
Theorem click_waits_only_for_update (c : config) (t : tid) (k : unit -> prog unit) :
  reachable c ->
  threads c !! t = Some (Bind RLock k) ->
  (step (Tau t) c = None ->
     exists w p,
       w <> t /\ threads c !! w = Some p
       /\ (writer (menuItemsLock (st c)) = Some w /\ in_update p
           \/ waiting (menuItemsLock (st c)) = Some w /\ at_Lock p = true))
  /\ (forall w, writer (menuItemsLock (st c)) = Some w ->
        forall ls c', steps ls c = Some c' -> Tau w ∉ ls ->
          threads c' !! t = Some (Bind RLock k)
          /\ writer (menuItemsLock (st c')) = Some w
          /\ step (Tau t) c' = None).
Proof.
  intros Hreach Ht. pose proof (reachable_lock_inv c Hreach) as Hinv.
  pose proof (reachable_queue_inv c Hreach) as Hqi.
  split; [exact (rlock_blocked_by c t k Hinv Hqi Ht)|].
  intros w Hw ls c' Hs Hno.
  exact (rlock_waits_steps ls c c' t w k Hreach Ht Hw Hs Hno).
Qed.

Lemma click_waits_only_for_update_witness :
  step (Tau 1) (after (firstn 9 retitling ++ [Backend 1 (CbSelected 1)])) = None.
Proof.
  destruct (click_waits_only_for_update
              (after (firstn 9 retitling ++ [Backend 1 (CbSelected 1)])) 1%nat
              (fun _ => x <- act (MapGet 1) ;; act RUnlock ;;
                        act (SelectSendClicked x) ;; Ret tt ;; Bind nativeLoop Ret)
              (after_reachable _) ltac:(vm_compute; reflexivity)) as [_ Hhold].
  destruct (Hhold 3%nat ltac:(vm_compute; reflexivity) []
              (after (firstn 9 retitling ++ [Backend 1 (CbSelected 1)]))
              eq_refl ltac:(apply not_elem_of_nil)) as (_ & _ & Hblock).
  exact Hblock.
Defined.



(** A listener blocked at a receive from [ClickedCh] stays there through
    every step of the pool, except a hand-off from a click handler at its
    [select]: then it continues with exactly the item the handler offered,
    and the delivery is recorded once.  Nothing is ever received that was
    not sent for a click, and a click dropped earlier is not received
    later. *)
Theorem listener_receives_only_a_click (c c' : config) (r : tid)
    (k : ptr -> prog unit) (l : label) :
  reachable c ->
  threads c !! r = Some (Bind RecvClicked k) ->
  step l c = Some c' ->
  threads c' !! r = Some (Bind RecvClicked k)
  \/ exists t item k0,
       l = Handoff t r
       /\ threads c !! t = Some (Bind (SelectSendClicked item) k0)
       /\ trace (st c') = Delivered t r item :: trace (st c)
       /\ threads c' !! r = Some (k item).
Proof.
  intros Hreach Hr Hs. destruct (reachable_unbuffered c Hreach) as [Hcc _].
  assert (Hlt : (r < length (threads c))%nat) by (eapply lookup_lt_Some; eauto).
  destruct l as [t0 | sd rc | cl | t0 cb | t0].
  5: { simpl in Hs. destruct (threads c !! t0) as [p|]; [|discriminate].
       destruct (writer (menuItemsLock (st c))); [discriminate|].
       destruct (waiting (menuItemsLock (st c))); [discriminate|].
       destruct (at_Lock p); [|discriminate]. injection Hs as <-.
       left. exact Hr. }
  - destruct (decide (t0 = r)) as [-> | Hne].
    + simpl in Hs. rewrite Hr in Hs. simpl in Hs. rewrite Hcc in Hs. discriminate.
    + apply step_tau_inv in Hs as (A & a & k0 & x & s' & _ & _ & ->).
      left. simpl. apply lookup_app_l_Some.
      rewrite list_lookup_insert_ne by lia. exact Hr.
  - simpl in Hs.
    destruct (threads c !! sd) as [ps|] eqn:Hsd; [|discriminate].
    destruct (threads c !! rc) as [pr|] eqn:Hrc; [|discriminate].
    destruct (offers ps) as [[m ps']|] eqn:Hoff; [|discriminate].
    destruct (accepts m pr) as [pr'|] eqn:Hacc; [|discriminate].
    destruct (idle m (st c)); [|discriminate]. injection Hs as <-.
    assert (Hsr : sd <> r).
    { intros ->. rewrite Hr in Hsd. injection Hsd as <-. discriminate. }
    destruct (decide (rc = r)) as [-> | Hne].
    + rewrite Hr in Hrc. injection Hrc as <-.
      destruct m as [item|]; [|discriminate]. simpl in Hacc. injection Hacc as <-.
      apply offers_inv in Hoff as [(item' & k0 & -> & [= <-] & ->) | (? & _ & ? & _)];
        [|discriminate].
      right. exists sd, item, k0. split; [reflexivity|]. split; [exact Hsd|].
      split; [reflexivity|]. simpl. apply list_lookup_insert_eq.
      rewrite length_insert. exact Hlt.
    + left. simpl. rewrite !list_lookup_insert_ne by lia. exact Hr.
  - simpl in Hs. injection Hs as <-. left. simpl. apply lookup_app_l_Some. exact Hr.
  - destruct (decide (t0 = r)) as [-> | Hne].
    + simpl in Hs. rewrite Hr in Hs. discriminate.
    + simpl in Hs. destruct (threads c !! t0) as [p|]; [|discriminate].
      destruct (in_nativeLoop p); [|discriminate]. injection Hs as <-.
      left. simpl. rewrite list_lookup_insert_ne by lia. exact Hr.
Qed.

Lemma listener_receives_only_a_click_witness :
  threads (after retitling) !! 0%nat = Some (Ret tt)
  /\ trace (st (after retitling))
     = Delivered 1 0 (Some 0%nat) :: trace (st (after (firstn 17 retitling))).
Proof.
  destruct (listener_receives_only_a_click (after (firstn 17 retitling))
              (after retitling) 0%nat (fun _ => Ret tt) (Handoff 1 0)
              (after_reachable _) ltac:(vm_compute; reflexivity)
              ltac:(vm_compute; reflexivity))
    as [Hstay | (t & item & k0 & Hl & Ht & Htr & Hthr)].
  - exfalso. revert Hstay. vm_compute. discriminate.
  - injection Hl as <-.
    assert (Hitem : item = Some 0%nat).
    { revert Ht. vm_compute. intros [= <-]. reflexivity. }
    subst item. split; [exact Hthr | exact Htr].
Defined.

(** ** Identifiers, once more *)

Lemma ids_upto_elem (n : nat) (i : Z) :
  (Z.of_nat n < 2147483648)%Z ->
  ((i ∈ ids_upto n) <-> (1 <= i <= Z.of_nat n)%Z).
Proof.
  intros Hn. split; [apply ids_upto_bound; exact Hn|].
  induction n as [|n IH]; intros Hi; [lia|]. cbn [ids_upto].
  destruct (decide (i = Z.of_nat (S n))) as [-> | Hne].
  - rewrite wrap32_small by lia. apply elem_of_cons. left. reflexivity.
  - apply elem_of_cons. right. apply IH; lia.
Qed.

(** *** Objects carry issued identifiers *)

Lemma numbered_holding {R : Type} (p : prog R) (q : option Z) :
  numbered p q -> holding p = q.
Proof.
  destruct p as [r | A a k]; simpl; [intros ->; reflexivity|].
  destruct a; simpl; intros [-> _]; reflexivity.
Qed.

Lemma numbered_bind {A B : Type} (p : prog A) (f : A -> prog B) (q : option Z) :
  numbered p q -> (forall x, numbered (f x) None) -> numbered (bind p f) q.
Proof.
  intros Hp Hf. revert q Hp. induction p as [r | X a k IH]; intros q Hp.
  - simpl in Hp. subst q. apply Hf.
  - destruct a; simpl in Hp |- *;
      repeat match goal with H : _ /\ _ |- _ => destruct H end;
      repeat split; auto.
Qed.

Lemma entry_numbered (cl : call) : numbered (entry cl) None.
Proof. destruct cl; cbn; repeat split; auto. Qed.

Lemma handler_numbered (cb : callback) : numbered (handler cb) None.
Proof. destruct cb; cbn; repeat split; auto. Qed.

Lemma body_numbered (g : goroutine) : numbered (body g) None.
Proof. destruct g; cbn; repeat split; auto. Qed.

Lemma issued_app (tr tr' : list event) : issued (tr ++ tr') = issued tr ++ issued tr'.
Proof.
  induction tr as [|e tr IH]; [reflexivity|].
  destruct e; simpl; rewrite IH; reflexivity.
Qed.

Lemma numbering_init : numbering init.
Proof.
  split; [|split; [|split]]; simpl.
  - intros t p H. rewrite lookup_nil in H. discriminate.
  - intros l m H. rewrite lookup_nil in H. discriminate.
  - intros t p v H. rewrite lookup_nil in H. discriminate.
  - intros _. split; [|split]; intros *; rewrite lookup_nil; discriminate.
Qed.

Lemma numbering_spawn (c : config) (ps : list (prog unit)) :
  numbering c ->
  Forall (fun p => numbered p None) ps ->
  numbering (mkConfig (st c) (threads c ++ ps)).
Proof.
  intros (N1 & N2 & N3 & N456) Hps.
  assert (Hnew : forall t p, (threads c ++ ps) !! t = Some p ->
            threads c !! t = Some p \/ numbered p None).
  { intros t p H. apply lookup_app_Some in H as [H | [_ H]]; [auto|].
    right. eapply Forall_lookup_1 in Hps; eauto. }
  assert (Hold : forall t p v, (threads c ++ ps) !! t = Some p -> holding p = Some v ->
            threads c !! t = Some p).
  { intros t p v H Hv. destruct (Hnew t p H) as [H0 | H0]; [exact H0|].
    rewrite (numbered_holding p None H0) in Hv. discriminate. }
  split; [|split; [|split]]; simpl.
  - intros t p H. destruct (Hnew t p H) as [H0 | H0]; [eapply N1; exact H0|].
    rewrite (numbered_holding p None H0). exact H0.
  - exact N2.
  - intros t p v H Hv. eapply N3; eauto.
  - intros Hnd. destruct (N456 Hnd) as (N4 & N5 & N6). split; [exact N4|]. split.
    + intros t1 t2 p1 p2 v H1 H2 Hv1 Hv2. eapply N5; eauto.
    + intros l m t p Hl H Hv. eapply N6; eauto.
Qed.

Lemma numbering_set (c : config) (t : tid) (p' : prog unit) (s' : state) :
  numbering c ->
  (t < length (threads c))%nat ->
  numbered p' None ->
  (forall l m', heap s' !! l = Some m' ->
     exists m, heap (st c) !! l = Some m /\ id m = id m') ->
  issued (trace s') = issued (trace (st c)) ->
  numbering (mkConfig s' (<[t := p']> (threads c))).
Proof.
  intros (N1 & N2 & N3 & N456) Hlt Hp' Hheap Hiss.
  assert (Hold : forall t0 p0 v, <[t := p']> (threads c) !! t0 = Some p0 ->
            holding p0 = Some v -> threads c !! t0 = Some p0).
  { intros t0 p0 v H Hv. destruct (decide (t0 = t)) as [-> | Hne].
    - rewrite list_lookup_insert_eq in H by exact Hlt. injection H as <-.
      rewrite (numbered_holding p' None Hp') in Hv. discriminate.
    - rewrite list_lookup_insert_ne in H by congruence. exact H. }
  split; [|split; [|split]]; simpl.
  - intros t0 p0 H. destruct (decide (t0 = t)) as [-> | Hne].
    + rewrite list_lookup_insert_eq in H by exact Hlt. injection H as <-.
      rewrite (numbered_holding p' None Hp'). exact Hp'.
    + rewrite list_lookup_insert_ne in H by congruence. eapply N1. exact H.
  - intros l m' Hl. destruct (Hheap l m' Hl) as (m & Hm & <-).
    rewrite Hiss. eapply N2. exact Hm.
  - intros t0 p0 v H Hv. rewrite Hiss. eapply N3; eauto.
  - rewrite Hiss. intros Hnd. destruct (N456 Hnd) as (N4 & N5 & N6).
    split; [|split].
    + intros l1 l2 m1 m2 H1 H2 Hid.
      destruct (Hheap _ _ H1) as (m1' & H1' & E1).
      destruct (Hheap _ _ H2) as (m2' & H2' & E2).
      eapply N4; eauto. congruence.
    + intros t1 t2 p1 p2 v H1 H2 Hv1 Hv2. eapply N5; eauto.
    + intros l m' t0 p0 Hl H Hv.
      destruct (Hheap _ _ Hl) as (m & Hm & E). rewrite <- E in Hv.
      eapply N6; eauto.
Qed.

Lemma numbering_draw (c : config) (t : tid) (k : Z -> prog unit) (v : Z) (s' : state) :
  numbering c ->
  threads c !! t = Some (Bind AddInt32_currentID k) ->
  heap s' = heap (st c) ->
  issued (trace s') = v :: issued (trace (st c)) ->
  numbering (mkConfig s' (<[t := k v]> (threads c))).
Proof.
  intros (N1 & N2 & N3 & N456) Ht Hheap Hiss.
  assert (Hlt : (t < length (threads c))%nat) by (eapply lookup_lt_Some; eauto).
  pose proof (N1 t _ Ht) as [_ Hk]. specialize (Hk v).
  fold (@numbered unit) in Hk. cbv beta in Hk.
  pose proof (numbered_holding _ _ Hk) as Hhold.
  split; [|split; [|split]]; simpl; rewrite ?Hheap, ?Hiss.
  - intros t0 p0 H. destruct (decide (t0 = t)) as [-> | Hne].
    + rewrite list_lookup_insert_eq in H by exact Hlt. injection H as <-.
      rewrite Hhold. exact Hk.
    + rewrite list_lookup_insert_ne in H by congruence. eapply N1. exact H.
  - intros l m Hl. apply elem_of_cons. right. eapply N2. exact Hl.
  - intros t0 p0 v0 H Hv. destruct (decide (t0 = t)) as [-> | Hne].
    + rewrite list_lookup_insert_eq in H by exact Hlt. injection H as <-.
      rewrite Hhold in Hv. injection Hv as <-. apply elem_of_cons. left. reflexivity.
    + rewrite list_lookup_insert_ne in H by congruence.
      apply elem_of_cons. right. eapply N3; eauto.
  - intros Hnd. apply NoDup_cons in Hnd as [Hfresh Hnd].
    destruct (N456 Hnd) as (N4 & N5 & N6). split; [exact N4|]. split.
    + intros t1 t2 p1 p2 v0 H1 H2 Hv1 Hv2.
      destruct (decide (t1 = t)) as [-> | Hne1];
        destruct (decide (t2 = t)) as [-> | Hne2]; try reflexivity.
      * exfalso. rewrite list_lookup_insert_eq in H1 by exact Hlt. injection H1 as <-.
        rewrite list_lookup_insert_ne in H2 by congruence.
        rewrite Hhold in Hv1. injection Hv1 as <-.
        apply Hfresh. eapply N3; eauto.
      * exfalso. rewrite list_lookup_insert_eq in H2 by exact Hlt. injection H2 as <-.
        rewrite list_lookup_insert_ne in H1 by congruence.
        rewrite Hhold in Hv2. injection Hv2 as <-.
        apply Hfresh. eapply N3; eauto.
      * rewrite list_lookup_insert_ne in H1 by congruence.
        rewrite list_lookup_insert_ne in H2 by congruence. eapply N5; eauto.
    + intros l m t0 p0 Hl H Hv. destruct (decide (t0 = t)) as [-> | Hne].
      * rewrite list_lookup_insert_eq in H by exact Hlt. injection H as <-.
        rewrite Hhold in Hv. injection Hv as ->.
        apply Hfresh. eapply N2. exact Hl.
      * rewrite list_lookup_insert_ne in H by congruence. eapply N6; eauto.
Qed.

Lemma numbering_alloc (c : config) (t : tid) (m : MenuItem) (k : ptr -> prog unit)
    (x : ptr) (s' : state) :
  numbering c ->
  threads c !! t = Some (Bind (New m) k) ->
  heap s' = heap (st c) ++ [m] ->
  issued (trace s') = issued (trace (st c)) ->
  numbering (mkConfig s' (<[t := k x]> (threads c))).
Proof.
  intros (N1 & N2 & N3 & N456) Ht Hheap Hiss.
  assert (Hlt : (t < length (threads c))%nat) by (eapply lookup_lt_Some; eauto).
  pose proof (N1 t _ Ht) as [_ Hk]. specialize (Hk x).
  fold (@numbered unit) in Hk. cbv beta in Hk.
  pose proof (numbered_holding _ _ Hk) as Hhold.
  assert (Hold : forall t0 p0 v, <[t := k x]> (threads c) !! t0 = Some p0 ->
            holding p0 = Some v -> t0 <> t /\ threads c !! t0 = Some p0).
  { intros t0 p0 v H Hv. destruct (decide (t0 = t)) as [-> | Hne].
    - rewrite list_lookup_insert_eq in H by exact Hlt. injection H as <-.
      rewrite Hhold in Hv. discriminate.
    - rewrite list_lookup_insert_ne in H by congruence. auto. }
  assert (Hcell : forall l m0, (heap (st c) ++ [m]) !! l = Some m0 ->
            heap (st c) !! l = Some m0 \/ (l = length (heap (st c)) /\ m0 = m)).
  { intros l m0 H. apply lookup_app_Some in H as [H | [Hge H]]; [auto|].
    right. apply list_lookup_singleton_Some in H as [Hz ->]. split; [lia | reflexivity]. }
  split; [|split; [|split]]; simpl; rewrite ?Hheap, ?Hiss.
  - intros t0 p0 H. destruct (decide (t0 = t)) as [-> | Hne].
    + rewrite list_lookup_insert_eq in H by exact Hlt. injection H as <-.
      rewrite Hhold. exact Hk.
    + rewrite list_lookup_insert_ne in H by congruence. eapply N1. exact H.
  - intros l m0 Hl. destruct (Hcell l m0 Hl) as [H | [_ ->]].
    + eapply N2. exact H.
    + eapply N3; [exact Ht | reflexivity].
  - intros t0 p0 v H Hv. destruct (Hold t0 p0 v H Hv) as [_ H0]. eapply N3; eauto.
  - intros Hnd. destruct (N456 Hnd) as (N4 & N5 & N6). split; [|split].
    + intros l1 l2 m1 m2 H1 H2 Hid.
      destruct (Hcell l1 m1 H1) as [H1' | [-> ->]];
        destruct (Hcell l2 m2 H2) as [H2' | [-> ->]]; try reflexivity.
      * eapply N4; eauto.
      * exfalso. apply (N6 l1 m1 t _ H1' Ht). simpl. congruence.
      * exfalso. apply (N6 l2 m2 t _ H2' Ht). simpl. congruence.
    + intros t1 t2 p1 p2 v H1 H2 Hv1 Hv2.
      destruct (Hold t1 p1 v H1 Hv1) as [_ H1'].
      destruct (Hold t2 p2 v H2 Hv2) as [_ H2']. eapply N5; eauto.
    + intros l m0 t0 p0 Hl H Hv. destruct (Hold t0 p0 _ H Hv) as [Hne H0].
      destruct (Hcell l m0 Hl) as [Hl' | [_ ->]].
      * eapply N6; eauto.
      * apply Hne. eapply (N5 t0 t p0 _ (id m) H0 Ht Hv). reflexivity.
Qed.

Lemma numbering_exec {A : Type} (c : config) (t : tid) (a : action A)
    (k : A -> prog unit) (x : A) (s' : state) :
  numbering c ->
  threads c !! t = Some (Bind a k) ->
  exec a t (st c) = Ok (x, s') ->
  numbering (mkConfig s' (<[t := k x]> (threads c))).
Proof.
  intros Hinv Ht He.
  assert (Hlt : (t < length (threads c))%nat) by (eapply lookup_lt_Some; eauto).
  pose proof Hinv as (N1 & _). pose proof (N1 t _ Ht) as Hty.
  assert (Hsame : forall s0, heap s0 = heap (st c) ->
            forall l m', heap s0 !! l = Some m' ->
              exists m, heap (st c) !! l = Some m /\ id m = id m').
  { intros s0 -> l m' H. eauto. }
  destruct a; simpl in Hty; simpl in He; repeat case_match; simplify_eq;
    try (destruct Hty as [_ Hk]; fold (@numbered unit) in Hk;
         apply numbering_set; [exact Hinv | exact Hlt | apply Hk
                               | apply Hsame; reflexivity | reflexivity]).
  - (* AddInt32 *)
    eapply numbering_draw; [exact Hinv | exact Ht | reflexivity | reflexivity].
  - (* New *)
    eapply numbering_alloc; [exact Hinv | exact Ht | reflexivity | reflexivity].
  - (* Store *)
    destruct Hty as (_ & Hid & Hk). fold (@numbered unit) in Hk.
    apply numbering_set; [exact Hinv | exact Hlt | apply Hk | | reflexivity].
    simpl. intros l m' Hl. destruct (decide (l = n)) as [-> | Hne].
    + rewrite list_lookup_insert_eq in Hl by (eapply lookup_lt_Some; eauto).
      injection Hl as <-. eexists. split; [eassumption | symmetry; apply Hid].
    + rewrite list_lookup_insert_ne in Hl by congruence. eauto.
Qed.

Lemma step_numbering (l : label) (c c' : config) :
  numbering c -> step l c = Some c' -> numbering c'.
Proof.
  intros Hinv Hs. apply step_transition in Hs.
  destruct Hs as [t A a k x s' Ht _ He
                 | sd rc ps pr ps' pr' m Hsd Hrc Hoff Hacc _
                 | cl
                 | t cb p Ht Hloop
                 | t p Ht Hat Hw Hq].
  - apply (numbering_spawn (mkConfig s' (<[t := k x]> (threads c)))).
    + eapply numbering_exec; eassumption.
    + destruct a; simpl; try constructor; [apply body_numbered | constructor].
  - pose proof Hinv as (N1 & _).
    assert (Hps' : numbered ps' None).
    { pose proof (N1 sd ps Hsd) as Hty.
      apply offers_inv in Hoff as [(item & k & -> & _ & ->) | (k & -> & _ & ->)];
        destruct Hty as [_ Hk]; apply Hk. }
    assert (Hpr' : numbered pr' None).
    { pose proof (N1 rc pr Hrc) as Hty.
      apply accepts_inv in Hacc as [(item & k & -> & _ & ->) | (k & -> & _ & ->)];
        destruct Hty as [_ Hk]; apply Hk. }
    assert (H1 : numbering (mkConfig (st c) (<[sd := ps']> (threads c)))).
    { apply numbering_set; [exact Hinv | eapply lookup_lt_Some; eauto | exact Hps'
                            | eauto | reflexivity]. }
    apply (numbering_set _ rc pr' _ H1).
    + simpl. rewrite length_insert. eapply lookup_lt_Some; eauto.
    + exact Hpr'.
    + simpl. eauto.
    + destruct m; reflexivity.
  - apply numbering_spawn; [exact Hinv|].
    constructor; [apply entry_numbered | constructor].
  - pose proof Hinv as (N1 & _). pose proof (N1 t p Ht) as Hty.
    apply in_nativeLoop_inv in Hloop as [k ->].
    apply numbering_set; [exact Hinv | eapply lookup_lt_Some; eauto | | eauto
                          | reflexivity].
    apply numbered_bind; [apply handler_numbered|]. intros _. exact Hty.
  - exact Hinv.
Qed.

Lemma reachable_numbering (c : config) : reachable c -> numbering c.
Proof.
  apply reachable_invariant; [apply numbering_init | apply step_numbering].
Qed.

(** *** A call of [AddMenuItem] among other goroutines *)

Lemma own_steps_cons (t : tid) (l : label) (ls : list label) :
  own_steps t (l :: ls) = (own_steps t [l] + own_steps t ls)%nat.
Proof. destruct l; simpl; lia. Qed.

Lemma own_steps_other (t : tid) (l : label) : l <> Tau t -> own_steps t [l] = 0%nat.
Proof.
  destruct l as [t0 | | | |]; simpl; try reflexivity.
  intros Hne. destruct (Nat.eqb_spec t0 t) as [-> | _]; [congruence | reflexivity].
Qed.

Lemma own_or_other (t : tid) (l : label) : l = Tau t \/ l <> Tau t.
Proof.
  destruct l as [t0 | | | |]; try (right; discriminate).
  destruct (decide (t0 = t)) as [-> | Hne]; [left; reflexivity | right; congruence].
Qed.

Lemma adding_busy (n : nat) (v : Z) (l : loc) (ttl tip : string) (before : ptr)
    (k : ptr -> prog unit) :
  (n <= 5)%nat ->
  offers (adding n v l ttl tip before k) = None
  /\ (forall m, accepts m (adding n v l ttl tip before k) = None)
  /\ in_nativeLoop (adding n v l ttl tip before k) = false.
Proof.
  intros Hn. do 6 (destruct n as [|n]; [repeat split; reflexivity|]). lia.
Qed.

Lemma step_elsewhere (l : label) (c c' : config) (t : tid) (p : prog unit) :
  step l c = Some c' ->
  threads c !! t = Some p ->
  l <> Tau t ->
  offers p = None -> (forall m, accepts m p = None) -> in_nativeLoop p = false ->
  threads c' !! t = Some p.
Proof.
  intros Hs Ht Hne Hoff Hacc Hloop. apply step_transition in Hs.
  destruct Hs as [t0 A a k x s' Ht0 _ He
                 | sd rc ps pr ps' pr' m Hsd Hrc Hoff' Hacc' _
                 | cl
                 | t0 cb p0 Ht0 Hloop0
                 | t0 p0 Ht0 Hat Hw Hq]; simpl.
  - apply lookup_moved_other; [congruence | exact Ht].
  - assert (Hs' : sd <> t) by (intros ->; congruence).
    assert (Hr' : rc <> t).
    { intros ->. rewrite Ht in Hrc. injection Hrc as <-. rewrite Hacc in Hacc'.
      discriminate. }
    rewrite !list_lookup_insert_ne by congruence. exact Ht.
  - apply lookup_app_l_Some. exact Ht.
  - rewrite list_lookup_insert_ne; [exact Ht|]. intros ->. congruence.
  - exact Ht.
Qed.

Lemma persists_length (s s' : state) :
  persists s s' -> (length (heap s) <= length (heap s'))%nat.
Proof.
  intros Hp. destruct (heap s) as [|m0 h] eqn:E; [simpl; lia|].
  assert (Hlast : is_Some (heap s !! length h)).
  { apply lookup_lt_is_Some. rewrite E. simpl. lia. }
  destruct Hlast as [m Hm]. destruct (Hp _ _ Hm) as (m' & Hm' & _).
  apply lookup_lt_Some in Hm'. simpl. lia.
Qed.

Lemma calling_step (c0 : config) (t : tid) (ttl tip : string) (before : ptr)
    (k : ptr -> prog unit) (n : nat) (c c' : config) (l : label) :
  lock_inv c -> (n <= 5)%nat ->
  calling c0 t ttl tip before k n c ->
  step l c = Some c' ->
  calling c0 t ttl tip before k (n + own_steps t [l]) c'.
Proof.
  intros Hinv Hn (v & l0 & es & Ht & Hiss & Hlen & Hv & Hobj) Hs.
  assert (Hlt : (t < length (threads c))%nat) by (eapply lookup_lt_Some; eauto).
  pose proof (step_trace_grows l c c' Hs) as [es' Htr].
  assert (Hiss' : issued (trace (st c')) = (issued es' ++ es) ++ issued (trace (st c0))).
  { rewrite Htr, issued_app, Hiss, app_assoc. reflexivity. }
  pose proof (step_persists l c c' Hinv Hs) as Hper.
  pose proof (persists_length _ _ Hper) as Hlen'.
  assert (Hobj' : (2 <= n)%nat ->
            (length (heap (st c0)) <= l0)%nat
            /\ exists m, heap (st c') !! l0 = Some m /\ id m = v).
  { intros H2. destruct (Hobj H2) as (Hge & m & Hm & Hid). split; [exact Hge|].
    destruct (Hper l0 m Hm) as (m' & Hm' & Hid'). exists m'.
    split; [exact Hm' | congruence]. }
  assert (Hv' : (1 <= n)%nat -> v ∈ issued es' ++ es).
  { intros H1. apply elem_of_app. right. auto. }
  destruct (own_or_other t l) as [-> | Hne].
  - cbn [own_steps]. rewrite Nat.eqb_refl.
    destruct n as [|[|[|[|[|[|n]]]]]]; [ | | | | | | lia]; cbn [adding] in Ht;
      simpl in Hs; rewrite Ht in Hs; simpl in Hs.
    + injection Hs as <-.
      exists (wrap32 (currentID (st c) + 1)), l0, (wrap32 (currentID (st c) + 1) :: es).
      split; [simpl; rewrite app_nil_r; apply list_lookup_insert_eq; exact Hlt|].
      split; [simpl; rewrite Hiss; reflexivity|].
      split; [exact Hlen|].
      split; [intros _; apply elem_of_cons; left; reflexivity|].
      intros H2. simpl in H2. lia.
    + injection Hs as <-.
      exists v, (length (heap (st c))), es.
      split; [simpl; rewrite app_nil_r; apply list_lookup_insert_eq; exact Hlt|].
      split; [exact Hiss|].
      split; [simpl; rewrite length_app; simpl; lia|].
      split; [intros _; apply Hv; lia|].
      intros _. split; [exact Hlen|]. simpl.
      eexists. split;
        [rewrite lookup_app_r by lia; rewrite Nat.sub_diag; reflexivity
        | reflexivity].
    + repeat case_match; simplify_eq.
      exists v, l0, (issued es' ++ es).
      split; [simpl; rewrite app_nil_r; apply list_lookup_insert_eq; exact Hlt|].
      split; [exact Hiss'|]. split; [lia|].
      split; [intros _; apply Hv'; lia | intros _; apply Hobj'; lia].
    + repeat case_match; simplify_eq.
      exists v, l0, (issued es' ++ es).
      split; [simpl; rewrite app_nil_r; apply list_lookup_insert_eq; exact Hlt|].
      split; [exact Hiss'|]. split; [lia|].
      split; [intros _; apply Hv'; lia | intros _; apply Hobj'; lia].
    + repeat case_match; simplify_eq.
      exists v, l0, (issued es' ++ es).
      split; [simpl; rewrite app_nil_r; apply list_lookup_insert_eq; exact Hlt|].
      split; [exact Hiss'|]. split; [lia|].
      split; [intros _; apply Hv'; lia | intros _; apply Hobj'; lia].
    + repeat case_match; simplify_eq.
      exists v, l0, (issued es' ++ es).
      split; [simpl; rewrite app_nil_r; apply list_lookup_insert_eq; exact Hlt|].
      split; [exact Hiss'|]. split; [lia|].
      split; [intros _; apply Hv'; lia | intros _; apply Hobj'; lia].
  - rewrite (own_steps_other t l Hne), Nat.add_0_r.
    destruct (adding_busy n v l0 ttl tip before k Hn) as (Hoff & Hacc & Hloop).
    exists v, l0, (issued es' ++ es).
    split; [eapply step_elsewhere; eassumption|].
    split; [exact Hiss'|]. split; [lia|]. split; [exact Hv' | exact Hobj'].
Qed.

Lemma calling_steps (c0 : config) (t : tid) (ttl tip : string) (before : ptr)
    (k : ptr -> prog unit) (ls : list label) :
  forall (n : nat) (c c' : config),
    reachable c ->
    calling c0 t ttl tip before k n c ->
    steps ls c = Some c' ->
    (n + own_steps t ls <= 5)%nat ->
    calling c0 t ttl tip before k (n + own_steps t ls) c'.
Proof.
  induction ls as [|l ls IH]; intros n c c' Hreach Hcall Hs Hn.
  - simpl in Hs. injection Hs as <-. simpl. rewrite Nat.add_0_r. exact Hcall.
  - simpl in Hs. destruct (step l c) as [c1|] eqn:E; [|discriminate].
    rewrite own_steps_cons in Hn |- *. rewrite Nat.add_assoc.
    apply (IH _ c1 c'); [eapply reachable_step; eassumption | | exact Hs | lia].
    apply (calling_step c0 t ttl tip before k n c c1 l);
      [apply reachable_lock_inv; exact Hreach | lia | exact Hcall | exact E].
Qed.

Lemma sorted_app_lt (l1 l2 : list Z) (x y : Z) :
  StronglySorted (fun newer older => (older < newer)%Z) (l1 ++ l2) ->
  x ∈ l1 -> y ∈ l2 -> (y < x)%Z.
Proof.
  induction l1 as [|a l1 IH]; intros Hs Hx Hy; [inversion Hx|].
  simpl in Hs. apply StronglySorted_inv in Hs as [Hs Hall].
  apply elem_of_cons in Hx as [-> | Hx]; [|apply IH; assumption].
  rewrite Forall_forall in Hall. apply Hall. apply elem_of_app. right. exact Hy.
Qed.

Lemma call_returns (c0 c : config) (ls : list label) (t : tid) (ttl tip : string)
    (before : ptr) (k : ptr -> prog unit) :
  reachable c0 ->
  threads c0 !! t = Some (item <- AddMenuItem ttl tip before ;; k item) ->
  steps (ls ++ [Tau t]) c0 = Some c ->
  own_steps t ls = 5%nat ->
  calling c0 t ttl tip before k 6 c.
Proof.
  intros Hreach Ht Hs Hown.
  rewrite steps_app in Hs. destruct (steps ls c0) as [c1|] eqn:E; [|discriminate].
  cbn [steps] in Hs. destruct (step (Tau t) c1) as [c2|] eqn:E1; [|discriminate].
  injection Hs as <-.
  assert (H0 : calling c0 t ttl tip before k 0 c0).
  { exists 0%Z, 0%nat, []. split; [exact Ht|]. split; [reflexivity|].
    split; [lia|]. split; intros; lia. }
  pose proof (calling_steps c0 t ttl tip before k ls 0 c0 c1 Hreach H0 E
                ltac:(lia)) as H5.
  rewrite Hown in H5.
  assert (Hr1 : reachable c1).
  { destruct Hreach as [ls0 H]. exists (ls0 ++ ls). rewrite steps_app, H. exact E. }
  pose proof (calling_step c0 t ttl tip before k 5 c1 c2 (Tau t)
                (reachable_lock_inv c1 Hr1) ltac:(lia) H5 E1) as H6.
  cbn [own_steps] in H6. rewrite Nat.eqb_refl in H6. exact H6.
Qed.

(** C2, within the range of the counter and as the code has it: in every
    state the process can reach, under any interleaving of the calls, as
    long as fewer than 2^31 identifiers have been issued, each identifier
    issued is strictly greater than every identifier issued before it, no
    identifier was issued twice, and the counter holds the newest one;
    every object that [AddMenuItem] has allocated carries an identifier
    that was issued, and no two of them carry the same.  A call of [AddMenuItem] that has just returned, after
    its six actions interleaved in any way with the other goroutines, has
    returned a new object whose identifier was issued during the call: it
    is greater than every identifier issued before the call began and than
    the identifier of every object that existed then.  (It need not be
    greater than identifiers issued during the call to calls that have
    returned in the meantime.) *)
Theorem C2_ids_unique_below_2_31 (c : config) :
  reachable c ->
  (Z.of_nat (length (issued (trace (st c)))) < 2147483648)%Z ->
  StronglySorted (fun newer older => (older < newer)%Z) (issued (trace (st c)))
  /\ NoDup (issued (trace (st c)))
  /\ currentID (st c) = Z.of_nat (length (issued (trace (st c))))
  /\ (forall l m, heap (st c) !! l = Some m -> id m ∈ issued (trace (st c)))
  /\ (forall l1 l2 m1 m2,
        heap (st c) !! l1 = Some m1 -> heap (st c) !! l2 = Some m2 ->
        id m1 = id m2 -> l1 = l2)
  /\ (forall c0 ls t ttl tip before k,
        reachable c0 ->
        threads c0 !! t = Some (item <- AddMenuItem ttl tip before ;; k item) ->
        steps (ls ++ [Tau t]) c0 = Some c ->
        own_steps t ls = 5%nat ->
        exists l m,
          threads c !! t = Some (k (Some l))
          /\ heap (st c0) !! l = None
          /\ heap (st c) !! l = Some m
          /\ (id m ∈ issued (trace (st c)))
          /\ (id m ∉ issued (trace (st c0)))
          /\ (forall i, i ∈ issued (trace (st c0)) -> (i < id m)%Z)
          /\ (forall l0 m0, heap (st c0) !! l0 = Some m0 -> (id m0 < id m)%Z)).
Proof.
  intros Hreach Hn. destruct (reachable_counter c Hreach) as [Hi Hc].
  assert (Hsorted : StronglySorted (fun newer older => (older < newer)%Z)
                      (issued (trace (st c)))).
  { rewrite Hi. apply ids_upto_sorted. exact Hn. }
  assert (Hnd : NoDup (issued (trace (st c)))).
  { rewrite Hi. apply ids_upto_NoDup. exact Hn. }
  destruct (reachable_numbering c Hreach) as (_ & N2 & _ & N456).
  destruct (N456 Hnd) as (N4 & _ & _).
  split; [exact Hsorted|]. split; [exact Hnd|].
  split; [rewrite Hc; apply wrap32_small; lia|].
  split; [exact N2|]. split; [exact N4|].
  intros c0 ls t ttl tip before k Hreach0 Ht Hs Hown.
  destruct (call_returns c0 c ls t ttl tip before k Hreach0 Ht Hs Hown)
    as (v & l & es & Hthr & Hiss & _ & Hv & Hobj).
  specialize (Hv ltac:(lia)).
  destruct (Hobj ltac:(lia)) as (Hge & m & Hm & <-).
  destruct (reachable_numbering c0 Hreach0) as (_ & N2' & _).
  rewrite Hiss in Hsorted, Hnd.
  assert (Hlt : forall i, i ∈ issued (trace (st c0)) -> (i < id m)%Z).
  { intros i Hin. eapply sorted_app_lt; eassumption. }
  exists l, m. split; [exact Hthr|].
  split; [apply lookup_ge_None; exact Hge|]. split; [exact Hm|].
  split; [rewrite Hiss; apply elem_of_app; left; exact Hv|].
  split; [apply NoDup_app in Hnd as (_ & Hdis & _); apply Hdis; exact Hv|].
  split; [exact Hlt|].
  intros l0 m0 Hl0. apply Hlt. eapply N2'. exact Hl0.
Qed.

Lemma C2_ids_unique_below_2_31_witness :
  issued (trace (st (after two_adds))) = [2%Z; 1%Z]
  /\ NoDup (issued (trace (st (after two_adds))))
  /\ exists l m,
       threads (after two_adds) !! 1%nat = Some (Ret tt)
       /\ heap (st (after two_adds)) !! l = Some m
       /\ (id m ∈ issued (trace (st (after two_adds)))).
Proof.
  destruct (C2_ids_unique_below_2_31 (after two_adds) (after_reachable _) eq_refl)
    as (_ & Hnd & _ & _ & _ & Hcall).
  split; [reflexivity|]. split; [exact Hnd|].
  destruct (Hcall (after (firstn 2 two_adds)) (firstn 11 (skipn 2 two_adds)) 1%nat
              "B" "" None (fun _ => Ret tt) (after_reachable _)
              ltac:(vm_compute; reflexivity) ltac:(vm_compute; reflexivity)
              ltac:(vm_compute; reflexivity))
    as (l & m & Hthr & _ & Hm & Hin & _).
  exists l, m. split; [exact Hthr|]. split; [exact Hm | exact Hin].
Defined.

(** Identifiers start at 1 and have no gaps: in every state the process can
    reach, while fewer than 2^31 identifiers have been issued, the
    identifiers issued so far are exactly 1, ..., n for the number n of
    identifiers issued, whatever the interleaving, and every object that
    [AddMenuItem] has allocated carries one of them; so none carries 0, the
    value of [currentID] before the first allocation. *)
Theorem ids_are_one_to_n (c : config) :
  reachable c ->
  (Z.of_nat (length (issued (trace (st c)))) < 2147483648)%Z ->
  (forall i, (i ∈ issued (trace (st c)))
             <-> (1 <= i <= Z.of_nat (length (issued (trace (st c)))))%Z)
  /\ (forall l m, heap (st c) !! l = Some m ->
        (1 <= id m <= Z.of_nat (length (issued (trace (st c)))))%Z).
Proof.
  intros Hreach Hn. destruct (reachable_counter c Hreach) as [Hi _].
  assert (Hrange : forall i, (i ∈ issued (trace (st c)))
            <-> (1 <= i <= Z.of_nat (length (issued (trace (st c)))))%Z).
  { intros i. rewrite Hi at 1. apply ids_upto_elem. exact Hn. }
  split; [exact Hrange|].
  intros l m Hl. apply Hrange.
  destruct (reachable_numbering c Hreach) as (_ & N2 & _). eapply N2. exact Hl.
Qed.

Lemma ids_are_one_to_n_witness :
  (0%Z ∉ issued (trace (st (after two_adds))))
  /\ (2%Z ∈ issued (trace (st (after two_adds))))
  /\ (1 <= 2 <= Z.of_nat (length (issued (trace (st (after two_adds))))))%Z.
Proof.
  destruct (ids_are_one_to_n (after two_adds) (after_reachable _)
              ltac:(vm_compute; reflexivity)) as [H Hobj].
  assert (Hlen : length (issued (trace (st (after two_adds)))) = 2%nat)
    by (vm_compute; reflexivity).
  split; [|split].
  - intros H0. apply H in H0. lia.
  - apply H. rewrite Hlen. lia.
  - exact (Hobj 0%nat (mkMenuItem 2 "A" "" false false false false)
             ltac:(vm_compute; reflexivity)).
Defined.

(** ** What the backend shows when no mutator is under way *)

Ltac tidiness :=
  repeat first
    [ progress (cbn [typed bind act])
    | match goal with
      | |- exists _, dirty_rule _ _ _ _ /\ _ => eexists; split; [cbn; eauto|]
      | |- forall _, _ => intro
      | |- _ = _ => reflexivity
      end ].

Lemma entry_tidy (cl : call) : tidy (entry cl) Clean.
Proof.
  unfold tidy.
  destruct cl; cbn [entry];
    unfold Run, Quit, AddMenuItem, SetTitle, GetTitle, SetTooltip, SetSeparator,
      Disabled, Enable, Disable, Checked, Check, Uncheck, Remove, update;
    tidiness.
Qed.

Lemma handler_tidy (cb : callback) : tidy (handler cb) Clean.
Proof.
  unfold tidy.
  destruct cb; cbn [handler]; unfold systrayReady, systrayMenuItemSelected;
    tidiness.
Qed.

Lemma body_tidy (g : goroutine) : tidy (body g) Clean.
Proof. unfold tidy. destruct g; cbn [body]; tidiness. Qed.

Lemma tidy_publishing (p : prog unit) (item : ptr) :
  tidy p (Dirty item) -> publishing p = Some item.
Proof.
  induction p as [r | A a k IH]; intros Hp.
  - discriminate Hp.
  - destruct Hp as (q' & Hr & Hk). fold (@typed pend unit) in Hk.
    destruct a; simpl in Hr;
      try (assert (Hq : Dirty item = Clean) by apply Hr; discriminate Hq).
    + subst q'. simpl. apply IH. apply Hk.
    + destruct Hr as [[Hr | Hr] _]; [discriminate|]. injection Hr as ->. reflexivity.
    + destruct Hr as [[Hr | Hr] _]; [discriminate|]. injection Hr as ->. reflexivity.
Qed.

Lemma settled_init : settled init.
Proof.
  split; simpl.
  - intros t p H. rewrite lookup_nil in H. discriminate.
  - intros l m H. discriminate.
Qed.

Lemma settled_spawn (c : config) (ps : list (prog unit)) :
  settled c ->
  Forall (fun p => tidy p Clean) ps ->
  settled (mkConfig (st c) (threads c ++ ps)).
Proof.
  intros [HT HJ] Hps. split; simpl.
  - intros t p Hp. apply lookup_app_Some in Hp as [Hp | [_ Hp]].
    + eapply HT. exact Hp.
    + exists Clean. eapply Forall_lookup_1 in Hps; [exact Hps | exact Hp].
  - intros l m Hl. destruct (HJ l m Hl) as [H | (t & p & Hp & Hd)]; [auto|].
    right. exists t, p. split; [apply lookup_app_l_Some; exact Hp | exact Hd].
Qed.

Lemma settled_set (c : config) (t : tid) (p' : prog unit) (s' : state) (q' : pend) :
  settled c ->
  (t < length (threads c))%nat ->
  tidy p' q' ->
  (forall l m, last_shown (trace s') l = Some m ->
     heap s' !! l = Some m
     \/ tidy p' (Dirty (Some l))
     \/ exists t0 p0, t0 <> t /\ threads c !! t0 = Some p0
                       /\ tidy p0 (Dirty (Some l))) ->
  settled (mkConfig s' (<[t := p']> (threads c))).
Proof.
  intros [HT _] Hlt Hp' HJ. split; simpl.
  - intros t0 p0 H0. destruct (decide (t0 = t)) as [-> | Hne].
    + rewrite list_lookup_insert_eq in H0 by exact Hlt. injection H0 as <-. eauto.
    + rewrite list_lookup_insert_ne in H0 by lia. eapply HT. exact H0.
  - intros l m Hl. destruct (HJ l m Hl) as [H | [Hd | (t0 & p0 & Hne & H0 & Hd)]].
    + auto.
    + right. exists t, p'. split; [apply list_lookup_insert_eq; exact Hlt | exact Hd].
    + right. exists t0, p0. split; [|exact Hd].
      rewrite list_lookup_insert_ne by lia. exact H0.
Qed.

Lemma settled_advance (c : config) (t : tid) (p p' : prog unit) (s' : state) :
  settled c ->
  threads c !! t = Some p ->
  (forall q, tidy p q -> tidy p' q) ->
  (forall l m, heap (st c) !! l = Some m -> heap s' !! l = Some m) ->
  (forall l, last_shown (trace s') l = last_shown (trace (st c)) l) ->
  settled (mkConfig s' (<[t := p']> (threads c))).
Proof.
  intros Hset Ht Hadv Hheap Hshown. pose proof Hset as [HT HJ].
  assert (Hlt : (t < length (threads c))%nat) by (eapply lookup_lt_Some; eauto).
  destruct (HT t p Ht) as [q Hq].
  apply (settled_set c t p' s' q Hset Hlt (Hadv _ Hq)).
  intros l m Hl. rewrite Hshown in Hl.
  destruct (HJ l m Hl) as [H | (t0 & p0 & H0 & Hd)]; [auto|].
  destruct (decide (t0 = t)) as [-> | Hne].
  - rewrite Ht in H0. injection H0 as <-. right. left. apply Hadv. exact Hd.
  - right. right. eauto.
Qed.

Lemma settled_exec {A : Type} (c : config) (t : tid) (a : action A)
    (k : A -> prog unit) (x : A) (s' : state) :
  settled c ->
  threads c !! t = Some (Bind a k) ->
  exec a t (st c) = Ok (x, s') ->
  settled (mkConfig s' (<[t := k x]> (threads c))).
Proof.
  intros Hset Ht He. pose proof Hset as [HT HJ].
  assert (Hlt : (t < length (threads c))%nat) by (eapply lookup_lt_Some; eauto).
  assert (Hquiet :
    (forall q q', dirty_rule A a q q' -> q' = q) ->
    (forall l m, heap (st c) !! l = Some m -> heap s' !! l = Some m) ->
    (forall l, last_shown (trace s') l = last_shown (trace (st c)) l) ->
    settled (mkConfig s' (<[t := k x]> (threads c)))).
  { intros Hrule Hheap Hshown. eapply settled_advance; try eassumption.
    intros q (q' & Hr & Hk). rewrite <- (Hrule _ _ Hr). apply Hk. }
  destruct a; simpl in He; repeat case_match; simplify_eq;
    try (apply Hquiet; simpl;
         [intros q q' Hr; first [exact Hr | destruct Hr as [Hq1 Hq2]; congruence]
         | auto | auto]; fail).
  - (* New *)
    apply Hquiet; simpl; [intros q q' [Hq1 Hq2]; congruence | | auto].
    intros l m0 Hlm. apply lookup_app_l_Some. exact Hlm.
  - (* Store *)
    destruct (HT t _ Ht) as (q & q' & [Hq1 Hq2] & Hk). subst q q'.
    apply (settled_set c t _ _ (Dirty (Some n)) Hset Hlt (Hk tt)).
    intros l m0 Hl. simpl in Hl. simpl.
    destruct (decide (l = n)) as [-> | Hne]; [right; left; apply Hk|].
    destruct (HJ l m0 Hl) as [Hm | (t0 & p0 & Hwit & Hd)].
    + left. rewrite list_lookup_insert_ne by lia. exact Hm.
    + right. right. exists t0, p0. split; [|auto]. intros ->.
      rewrite Ht in Hwit. injection Hwit as <-.
      destruct Hd as (q' & [Hq _] & _). discriminate Hq.
  - (* addOrUpdateMenuItem *)
    destruct item as [l0|]; [|discriminate].
    destruct (HT t _ Ht) as (q & q' & [_ Hq2] & Hk). subst q'.
    apply (settled_set c t _ _ Clean Hset Hlt (Hk tt)).
    intros l m0 Hl. simpl in Hl. simpl.
    match goal with Hd0 : deref _ _ = Some _ |- _ => simpl in Hd0 end.
    destruct (Nat.eqb_spec l0 l) as [-> | Hne].
    + left. congruence.
    + destruct (HJ l m0 Hl) as [Hm | (t0 & p0 & Hwit & Hd)]; [auto|].
      right. right. exists t0, p0. split; [|auto]. intros ->.
      rewrite Ht in Hwit. injection Hwit as <-.
      destruct Hd as (q' & [[Hq | Hq] _] & _); [discriminate | congruence].
Qed.

Lemma step_settled (l : label) (c c' : config) :
  settled c -> step l c = Some c' -> settled c'.
Proof.
  intros Hset Hs. apply step_transition in Hs.
  destruct Hs as [t A a k x s' Ht _ He
                 | sd rc ps pr ps' pr' m Hsd Hrc Hoff Hacc _
                 | cl
                 | t cb p Ht Hloop
                 | t p Ht Hat Hw Hq].
  5: exact Hset.
  - apply (settled_spawn (mkConfig s' (<[t := k x]> (threads c)))).
    + eapply settled_exec; eassumption.
    + destruct a; simpl; try constructor; [apply body_tidy | constructor].
  - assert (Hne : sd <> rc).
    { intros ->. rewrite Hsd in Hrc. injection Hrc as ->.
      apply offers_inv in Hoff as [(? & ? & -> & _) | (? & -> & _)];
        apply accepts_inv in Hacc as [(? & ? & ? & _) | (? & ? & _)]; discriminate. }
    assert (H1 : settled (mkConfig (record (exchanged sd rc m) (st c))
                            (<[sd := ps']> (threads c)))).
    { eapply settled_advance; [exact Hset | exact Hsd | | auto | ].
      - intros q Hq.
        apply offers_inv in Hoff as [(item & k & -> & _ & ->) | (k & -> & _ & ->)];
          destruct Hq as (q' & [Hq1 Hq2] & Hk); subst q q'; apply Hk.
      - intros l0. destruct m; reflexivity. }
    apply (settled_advance _ rc pr pr' _ H1).
    + simpl. rewrite list_lookup_insert_ne by lia. exact Hrc.
    + intros q Hq.
      apply accepts_inv in Hacc as [(item & k & -> & _ & ->) | (k & -> & _ & ->)];
        destruct Hq as (q' & [Hq1 Hq2] & Hk); subst q q'; apply Hk.
    + auto.
    + auto.
  - apply settled_spawn; [exact Hset|].
    constructor; [apply entry_tidy | constructor].
  - apply in_nativeLoop_inv in Hloop as [k ->].
    eapply settled_advance; [exact Hset | exact Ht | | auto | auto].
    intros q Hq. pose proof Hq as (q' & [Hq1 Hq2] & _). subst q.
    unfold tidy. eapply typed_bind; [apply handler_tidy|].
    intros _ q0 ->. exact Hq.
Qed.

Lemma reachable_settled (c : config) : reachable c -> settled c.
Proof. apply reachable_invariant; [apply settled_init | apply step_settled]. Qed.

(** The backend shows the current state of an item whenever no mutator is
    under way on it: in every state the process can reach, if no goroutine
    is between a field write to the item and the return of its call of the
    backend (at the [Lock] of [update], at the registry write, or at the
    call itself), then the state the backend was last shown for the item is
    the state the item has.  Registry and backend differ only while a
    mutator on that item is under way. *)
Theorem backend_current_when_quiet (c : config) (l : loc) (m : MenuItem) :
  reachable c ->
  last_shown (trace (st c)) l = Some m ->
  (forall t p, threads c !! t = Some p -> publishing p <> Some (Some l)) ->
  heap (st c) !! l = Some m.
Proof.
  intros Hreach Hl Hquiet. destruct (reachable_settled c Hreach) as [_ HJ].
  destruct (HJ l m Hl) as [H | (t & p & Hp & Hd)]; [exact H|].
  exfalso. apply (Hquiet t p Hp). apply tidy_publishing. exact Hd.
Qed.

Lemma backend_current_when_quiet_witness :
  heap (st (after (firstn 11 retitling))) !! 0%nat
  = Some (mkMenuItem 1%Z "Open" "Open window" false false false false).
Proof.
  apply (backend_current_when_quiet (after (firstn 11 retitling)) 0%nat _
           (after_reachable _)).
  - vm_compute. reflexivity.
  - intros t p Hp.
    assert (HF : Forall (fun p => publishing p <> Some (Some 0%nat))
                   (threads (after (firstn 11 retitling)))).
    { vm_compute. repeat constructor; discriminate. }
    eapply Forall_lookup_1 in HF; [exact HF | exact Hp].
Defined.
